(** * eco: the Dirichlet-process Gibbs sampler and the bounded integrator

    A shallow embedding of [src/gibbsDP.c] (function [cDPeco]) and of
    [src/fintegrate.c] ([setBounds], the integrands [SuffExp] and
    [NormConstT], [paramIntegration], its callers [getLogLikelihood] and
    [setNormConst], and the small helpers), followed by the properties
    proved of them.

    Conventions of the embedding.
    - A C [double] is a rational number of [Q] with exact arithmetic; two
      doubles are compared with [==].  Rounding, infinities and NaN are not
      modelled: [x / 0] is [0] in [Q], so statements about a division are
      only made where the divisor is known to be non-zero.  In particular
      the logistic [exp(w)/(1+exp(w))] of lines 414, 428 and 619 to 624 of
      [gibbsDP.c] is the exact quotient: that the C expression rounds to 1
      for a large [w] and is NaN once [exp] overflows is outside the
      embedding, and no statement is made of the range of these values.
    - A cell that no line of the C code assigns before it is read (as
      [Wstar[n_samp+x1_samp+i][0]] at line 428) holds what the allocator of
      the class gave; no statement is made of its value.
    - A C [int] used as an index or a count is a [nat]; a C [int] that the
      caller may choose freely (iteration counts, tags, status codes) is
      a [Z].
    - A C array is a [list]; [a[i] = v] is stdpp's [<[i:=v]> a] and a read
      [a[i]] is [a !!! i].
    - The routines of R and of the files of the package that are not part
      of the sources at hand (random draws, densities, matrix inverse,
      quadrature, sorting) are the fields of the classes [Rmath], [Rrand],
      [EcoLib] and [QuadLib] below; the stand-ins of the module [Demo] run
      the embedding on concrete units. *)

From Stdlib Require Import ZArith QArith Qabs Qminmax Lia Lqa List Permutation.
From stdpp Require Import base list sorting.

Local Open Scope Q_scope.

(** ** Doubles *)

#[global] Instance Q_inhabited : Inhabited Q := populate 0.

(** [a < b] on doubles, as a boolean *)
Definition Qltb (a b : Q) : bool := negb (Qle_bool b a).

(** Rmath's [fmax2] and [fmin2] on ordinary numbers *)
Definition fmax2 (x y : Q) : Q := if Qltb x y then y else x.

Definition fmin2 (x y : Q) : Q := if Qltb x y then x else y.

(** Rmath's [ftrunc]: the integer part, rounding towards zero *)
Definition ftrunc (x : Q) : Z := Z.quot (Qnum x) (Zpos (Qden x)).

(** the sum of the cells of an array *)
Definition Qsum (l : list Q) : Q := fold_right Qplus 0 l.

(** ** Vectors and matrices of dimension [n_cov = 2] *)

Record vec2 := Vec2 { v0 : Q; v1 : Q }.

Record mat2 := Mat2 { m00 : Q; m01 : Q; m10 : Q; m11 : Q }.

#[global] Instance vec2_inhabited : Inhabited vec2 := populate (Vec2 0 0).

#[global] Instance mat2_inhabited : Inhabited mat2 := populate (Mat2 0 0 0 0).

(** a [double*] of two cells and a [double**] of two rows, as the library
    routines receive them *)
Definition vl (v : vec2) : list Q := [v0 v; v1 v].

Definition ml (m : mat2) : list (list Q) := [[m00 m; m01 m]; [m10 m; m11 m]].

(** [v[k]] and [m[k][l]] for loop indices [k], [l] below [n_cov] *)
Definition vget (v : vec2) (k : nat) : Q :=
  match k with O => v0 v | _ => v1 v end.

Definition mget (m : mat2) (k l : nat) : Q :=
  match k, l with
  | O, O => m00 m | O, _ => m01 m | _, O => m10 m | _, _ => m11 m
  end.

(** the vector and the matrix a loop over [k] (and [l]) fills *)
Definition vbuild (f : nat -> Q) : vec2 := Vec2 (f 0%nat) (f 1%nat).

Definition mbuild (f : nat -> nat -> Q) : mat2 :=
  Mat2 (f 0%nat 0%nat) (f 0%nat 1%nat) (f 1%nat 0%nat) (f 1%nat 1%nat).

(** ** What the sources take from elsewhere *)

(** [math.h] and [Rmath.h] *)
Class Rmath := {
  log : Q -> Q;
  exp : Q -> Q;
  sqrt : Q -> Q;
  (** [qnorm(p, 0, 1, 1, 0)] *)
  qnorm : Q -> Q;
  (** [dnorm(x, 0, 1, 1)], the log density *)
  dnorm_log : Q -> Q;
  (** [pnorm(x, 0, 1, 1, 0)] *)
  pnorm : Q -> Q;
}.

(** R's random number stream ([unif_rand], [norm_rand], [rbeta], [rgamma])
    and the package's [rand.c] ([rWish], [rMVN]); a draw reads the stream and
    advances it *)
Class Rrand := {
  rng : Type;
  unif_rand : rng -> Q * rng;
  norm_rand : rng -> Q * rng;
  rbeta : Q -> Q -> rng -> Q * rng;
  rgamma : Q -> Q -> rng -> Q * rng;
  (** [rWish(Sample, S, df, 2)] *)
  rWish : mat2 -> Z -> rng -> mat2 * rng;
  (** [rMVN(Sample, mean, Var, 2)] *)
  rMVN : vec2 -> mat2 -> rng -> vec2 * rng;
}.

(** the package's [subroutines.c] and [vector.c], and R's sorting *)
Class EcoLib := {
  (** [dinv(X, 2, X_inv)] *)
  dinv : mat2 -> mat2;
  (** [dMVN(Y, MEAN, SIG_INV, dim, give_log)] *)
  dMVN : list Q -> list Q -> list (list Q) -> nat -> bool -> Q;
  (** [dMVT(Y, MEAN, SIG_INV, nu, dim, give_log)] *)
  dMVT : list Q -> list Q -> list (list Q) -> Z -> nat -> bool -> Q;
  (** [R_qsort_int_I(iv, I, 1, n)]: sorts [iv] increasingly and moves the
      cells of [I] alongside *)
  R_qsort_int_I : list nat -> list nat -> list nat * list nat;
  (** [doubleArray(n)], [doubleMatrix(n, 2)] and [intArray(n)] of the
      package's [vector.c]: a fresh array, with the cells as the allocator
      leaves them *)
  doubleArray : nat -> list Q;
  doubleMatrix2 : nat -> list vec2;
  intArray : nat -> list nat;
}.

(** ** [fintegrate.c] *)

Module Fintegrate.

(** The parameter block of one unit.  Its declaration ([bayes.h]) is not
    among the sources; the fields are the ones [fintegrate.c] reads and
    writes: [param->caseP.X], [param->setP->Sigma] and so on. *)
Record caseParam := {
  mu : vec2;
  X : Q;
  Y : Q;
  normcT : Q;
  suff : Z;
  Wbounds : mat2;
}.

Record setParam := {
  ncar : Z;
  Sigma : mat2;
  InvSigma : mat2;
  Sigma3 : list (list Q);
  InvSigma3 : list (list Q);
}.

Record Param := { caseP : caseParam; setP : setParam }.

(** What the integrator writes or reads on the console. *)
Inductive event :=
| (** [Rprintf("Integration error %d: Sf %d X %5g Y %5g [%5g,%5g] -> %5g +- %5g\n", ...)] *)
  IntegrationError (ier : Z) (sf : Z) (x y lb ub result anserr : Q)
| (** [Rprintf("Error Suff= %d", suff)] *)
  ErrorSuff (sf : Z)
| (** [scanf("Hit enter to continue %c", &ch)]: a read of the standard
      input, which waits until input is there *)
  ScanfHitEnter.

(** an event during which the program waits for its user *)
Definition waits (e : event) : bool :=
  match e with ScanfHitEnter => true | _ => false end.

(** the status code a diagnostic carries *)
Definition status_of (e : event) : option Z :=
  match e with IntegrationError ier _ _ _ _ _ _ _ => Some ier | _ => None end.

(** an integrand [integr_fn]: the nodes [t[0..n-1]] are replaced by the
    values at them; the model also gives what it prints *)
Definition integr_fn := list Q -> Param -> list Q * list event.

(** what [Rdqags] leaves in its output arguments, and what the integrand
    printed while it ran *)
Record quad_out := {
  q_result : Q;
  q_abserr : Q;
  q_neval : Z;
  q_ier : Z;
  q_last : Z;
  q_events : list event;
}.

(** R's quadrature and the package's [bayes.c] *)
Class QuadLib := {
  (** [Rdqags(f, ex, &lb, &ub, &epsabs, &epsrel, ..., &limit, ...)] *)
  Rdqags : integr_fn -> Param -> Q -> Q -> Q -> Q -> Z -> quad_out;
  (** [dBVNtomo(Wstar, pp, give_log, normc)] *)
  dBVNtomo : list Q -> Param -> bool -> Q -> Q;
  (** [invLogit(x)] *)
  invLogit : Q -> Q;
}.

Section Integrator.
Context {RM : Rmath} {EL : EcoLib} {QL : QuadLib}.

(** [W1star(t)], with [W1(t) = (W1_ub - W1_lb)*t + W1_lb]; the boolean
    tells whether [*imposs] was set to one *)
Definition getW1starFromT (t : Q) (param : Param) : Q * bool :=
  let W1 := (m01 (Wbounds (caseP param)) - m00 (Wbounds (caseP param))) * t
            + m00 (Wbounds (caseP param)) in
  if Qeq_bool W1 1 || Qeq_bool W1 0 then (W1, true)
  else (log (W1 / (1 - W1)), false).

(** [W2star(t)] *)
Definition getW2starFromT (t : Q) (param : Param) : Q * bool :=
  let W2 := (m10 (Wbounds (caseP param)) - m11 (Wbounds (caseP param))) * t
            + m11 (Wbounds (caseP param)) in
  if Qeq_bool W2 1 || Qeq_bool W2 0 then (W2, true)
  else (log (W2 / (1 - W2)), false).

(** [W1star'(t)] *)
Definition getW1starPrimeFromT (t : Q) (param : Param) : Q :=
  let m := m01 (Wbounds (caseP param)) - m00 (Wbounds (caseP param)) in
  let W1 := m * t + m00 (Wbounds (caseP param)) in
  (1 / W1) * (m / (1 - W1)).

(** [W2star'(t)] *)
Definition getW2starPrimeFromT (t : Q) (param : Param) : Q :=
  let m := m10 (Wbounds (caseP param)) - m11 (Wbounds (caseP param)) in
  let W2 := m * t + m11 (Wbounds (caseP param)) in
  (1 / W2) * (m / (1 - W2)).

(** whether [imposs] stays zero at the node [t] *)
Definition node_feasible (pp : Param) (t : Q) : bool :=
  negb (snd (getW1starFromT t pp)) && negb (snd (getW2starFromT t pp)).

(** [dim = (pp->setP->ncar==1) ? 3 : 2] *)
Definition SuffExp_dim (pp : Param) : nat :=
  if (ncar (setP pp) =? 1)%Z then 3%nat else 2%nat.

(** the local [mu] of [SuffExp]: cells 0 and 1 are assigned *)
Definition SuffExp_mu (pp : Param) : list Q :=
  <[1%nat := v1 (mu (caseP pp))]>
    (<[0%nat := v0 (mu (caseP pp))]> (doubleArray (SuffExp_dim pp))).

(** the local [InvSigma] of [SuffExp], filled for all [i], [j] below
    [dim] *)
Definition SuffExp_InvSigma (pp : Param) : list (list Q) :=
  if (SuffExp_dim pp =? 3)%nat
  then map (fun i => map (fun j => (InvSigma3 (setP pp) !!! i) !!! j)
                         (seq 0 3)) (seq 0 3)
  else ml (InvSigma (setP pp)).

(** the body of the loop of [SuffExp] at one node: the value left in
    [t[ii]] and what is printed there *)
Definition SuffExp_node (pp : Param) (t : Q) : Q * list event :=
  let sf := suff (caseP pp) in
  let normc := normcT (caseP pp) in
  let '(W1, imposs1) := getW1starFromT t pp in
  let '(W2, imposs) :=
    if imposs1 then (0, true) else getW2starFromT t pp in
  if imposs then (0, [])
  else
    let W1p := getW1starPrimeFromT t pp in
    let W2p := getW2starPrimeFromT t pp in
    let pfact := sqrt (W1p * W1p + W2p * W2p) in
    let vtemp := <[1%nat := W2]>
                   (<[0%nat := W1]> (doubleArray (SuffExp_dim pp))) in
    let density := dBVNtomo vtemp pp false normc in
    let ti := density * pfact in
    if (sf =? 0)%Z then (W1 * ti, [])
    else if (sf =? 1)%Z then (W2 * ti, [])
    else if (sf =? 2)%Z then (W1 * W1 * ti, [])
    else if (sf =? 3)%Z then (W1 * W2 * ti, [])
    else if (sf =? 4)%Z then (W2 * W2 * ti, [])
    else if (sf =? 5)%Z then (invLogit W1 * ti, [])
    else if (sf =? 6)%Z then (invLogit W2 * ti, [])
    else if (sf =? 7)%Z then
      (dMVN vtemp (SuffExp_mu pp) (SuffExp_InvSigma pp) (SuffExp_dim pp) false
       * pfact, [])
    else if negb (sf =? -1)%Z then (ti, [ErrorSuff sf])
    else (ti, []).

(** [SuffExp(t, n, param)]: every node in turn *)
Fixpoint SuffExp (t : list Q) (pp : Param) : list Q * list event :=
  match t with
  | [] => ([], [])
  | ti :: rest =>
      let '(v, ev) := SuffExp_node pp ti in
      let '(vs, evs) := SuffExp rest pp in
      (v :: vs, ev ++ evs)
  end.

(** [paramIntegration(f, ex)]: the value returned and the console events,
    in order *)
Definition paramIntegration (f : integr_fn) (ex : Param) : Q * list event :=
  let epsabs := 1 # 1000000000 in
  let epsrel := 1 # 1000000000 in
  let limit := 100%Z in
  let lb := 1 # 100000 in
  let ub := 99999 # 100000 in
  let out := Rdqags f ex lb ub epsabs epsrel limit in
  if (q_ier out =? 0)%Z then (q_result out, q_events out)
  else
    let p := ex in
    (q_result out,
     q_events out ++
     [IntegrationError (q_ier out) (suff (caseP p)) (X (caseP p)) (Y (caseP p))
        (m00 (Wbounds (caseP p))) (m01 (Wbounds (caseP p)))
        (q_result out) (q_abserr out);
      ScanfHitEnter]).

(** [setBounds(param)]: the bounds it stores in [param->caseP.Wbounds] *)
Definition setBounds_Wbounds (X Y : Q) : mat2 :=
  let tol0 := 1 # 10000 in
  let tol1 := 9999 # 10000 in
  let w1_ub := (Y - (1 - X) * 0) / X in
  let w1_ub := if Qltb tol1 w1_ub then 1 else w1_ub in
  let w1_lb := (Y - (1 - X) * 1) / X in
  let w1_lb := if Qltb w1_lb tol0 then 0 else w1_lb in
  let w2_ub := Y / (1 - X) - X * 0 / (1 - X) in
  let w2_ub := if Qltb tol1 w2_ub then 1 else w2_ub in
  let w2_lb := Y / (1 - X) - X * 1 / (1 - X) in
  let w2_lb := if Qltb w2_lb tol0 then 0 else w2_lb in
  Mat2 w1_lb w1_ub w2_lb w2_ub.

Definition setBounds (param : Param) : Param :=
  let c := caseP param in
  {| caseP := {| mu := mu c; X := X c; Y := Y c; normcT := normcT c;
                 suff := suff c;
                 Wbounds := setBounds_Wbounds (X c) (Y c) |};
     setP := setP param |}.

(** [getW1FromW2(X, Y, W2)] *)
Definition getW1FromW2 (X Y W2 : Q) : Q := (Y - (1 - X) * W2) / X.

(** [getW2starFromW1star(X, Y, W1, &imposs)]: the value returned, and
    whether [*imposs] was set to one *)
Definition getW2starFromW1star (X Y W1 : Q) : Q * bool :=
  let W1 := if Qltb 30 W1 then 1 else 1 / (1 + exp (- (1) * W1)) in
  let W2 := Y / (1 - X) - X * W1 / (1 - X) in
  if Qle_bool 1 W2 || Qle_bool W2 0 then (W2, true)
  else (log (W2 / (1 - W2)), false).

(** [getW1starFromW2star(X, Y, W2, &imposs)] *)
Definition getW1starFromW2star (X Y W2 : Q) : Q * bool :=
  let W2 := if Qltb 30 W2 then 1 else 1 / (1 + exp (- (1) * W2)) in
  let W1 := (Y - (1 - X) * W2) / X in
  if Qle_bool 1 W1 || Qle_bool W1 0 then (W1, true)
  else (log (W1 / (1 - W1)), false).

(** [M_PI] of [math.h] *)
Variable M_PI : Q.

(** the body of the loop of [NormConstT] at one node: the value left in
    [t[ii]] *)
Definition NormConstT_node (pp : Param) (t : Q) : Q :=
  let m := mu (caseP pp) in
  let Sg := Sigma (setP pp) in
  let rho := m01 Sg / sqrt (m00 Sg * m11 Sg) in
  let dtemp := 1 / (2 * M_PI * sqrt (m00 Sg * m11 Sg * (1 - rho * rho))) in
  let '(W1, imposs1) := getW1starFromT t pp in
  let '(W2, imposs) :=
    if imposs1 then (0, true) else getW2starFromT t pp in
  if imposs then 0
  else
    let W1p := getW1starPrimeFromT t pp in
    let W2p := getW2starPrimeFromT t pp in
    let pfact := sqrt (W1p * W1p + W2p * W2p) in
    exp (- (1) / (2 * (1 - rho * rho))
         * ((W1 - v0 m) * (W1 - v0 m) / m00 Sg
            + (W2 - v1 m) * (W2 - v1 m) / m11 Sg
            - 2 * rho * (W1 - v0 m) * (W2 - v1 m) / sqrt (m00 Sg * m11 Sg)))
    * dtemp * pfact.

(** [NormConstT(t, n, param)]: every node in turn; it prints nothing *)
Definition NormConstT (t : list Q) (pp : Param) : list Q * list event :=
  (map (NormConstT_node pp) t, []).

(** [param->caseP.suff = sf] and [param->caseP.normcT = nc] *)
Definition set_suff (param : Param) (sf : Z) : Param :=
  let c := caseP param in
  {| caseP := {| mu := mu c; X := X c; Y := Y c; normcT := normcT c;
                 suff := sf; Wbounds := Wbounds c |};
     setP := setP param |}.

Definition set_normcT (param : Param) (nc : Q) : Param :=
  let c := caseP param in
  {| caseP := {| mu := mu c; X := X c; Y := Y c; normcT := nc;
                 suff := suff c; Wbounds := Wbounds c |};
     setP := setP param |}.

(** [getLogLikelihood(param)]: the value returned, the console events and
    the parameter block it leaves *)
Definition getLogLikelihood (param : Param) : Q * list event * Param :=
  let param := set_suff param 7 in
  let '(v, ev) := paramIntegration SuffExp param in
  (log v, ev, param).

(** [setNormConst(param)]: the parameter block it leaves and the console
    events *)
Definition setNormConst (param : Param) : Param * list event :=
  let '(v, ev) := paramIntegration NormConstT param in
  (set_normcT param v, ev).

End Integrator.

End Fintegrate.

(** ** [gibbsDP.c] *)

Module GibbsDP.

(** *** Arguments, outputs and state *)

(** The input arguments of [cDPeco], under the names the function gives
    them after reading the pointers ([n_samp = *pin_samp] and so on). *)
Record args := {
  n_gen : Z;
  link : Z;
  pdX : list Q;
  n_samp : nat;
  nu0 : Z;
  tau0 : Q;
  mu0 : vec2;
  pdS0 : list Q;
  pinUpdate : Z;
  burn_in : Z;
  nth : Z;
  pred : Z;
  a0 : Q;
  b0 : Q;
  survey : Z;
  s_samp : nat;
  sur_W : list Q;
  x1 : Z;
  x1_samp : nat;
  x1_W1 : list Q;
  x0 : Z;
  x0_samp : nat;
  x0_W2 : list Q;
}.

(** The output buffers of the caller, with the three storage counters. *)
Record store := {
  pdSMu0 : list Q;
  pdSMu1 : list Q;
  pdSSig00 : list Q;
  pdSSig01 : list Q;
  pdSSig11 : list Q;
  pdSW1 : list Q;
  pdSW2 : list Q;
  pdSWt1 : list Q;
  pdSWt2 : list Q;
  pdY : list Q;
  pdSa : list Q;
  pdSn : list Z;
  itempA : nat;
  itempS : nat;
  itempC : Z;
}.

(** The arrays the sampler updates in place. *)
Record chain := {
  W : list vec2;
  Wstar : list vec2;
  mu : list vec2;
  Sigma : list mat2;
  InvSigma : list mat2;
  C : list nat;
  nstar : nat;
  sortC : list nat;
  prob_grid : list Q;
}.

Record state := { ch : chain; alpha : Q; out : store }.

(** a cluster parameter, as the remixing step draws it *)
Record theta := { mu_mix : vec2; Sigma_mix : mat2; InvSigma_mix : mat2 }.

(** the parameter unit [i] holds *)
Definition theta_of (c : chain) (i : nat) : theta :=
  {| mu_mix := mu c !!! i; Sigma_mix := Sigma c !!! i;
     InvSigma_mix := InvSigma c !!! i |}.

(** *** Statements about a state *)

(** the arrays of the parameters and of the labels have [t] cells *)
Definition sized (t : nat) (c : chain) : Prop :=
  length (mu c) = t /\ length (Sigma c) = t /\ length (InvSigma c) = t
  /\ length (C c) = t.

(** every unit met so far has a label below [nstar] and holds the value
    drawn for that label, and every label below [nstar] is in use *)
Definition remixed (done : list nat) (c : chain) (drawn : list theta) : Prop :=
  nstar c = length drawn
  /\ (forall ix : nat, ix ∈ done ->
        exists k : nat, C c !! ix = Some k /\ drawn !! k = Some (theta_of c ix))
  /\ (forall k : nat, (k < length drawn)%nat ->
        exists ix : nat, ix ∈ done /\ C c !! ix = Some k).

(** the labels of the [t] units are below [nstar], every label below
    [nstar] is in use, and every unit holds the value of [drawn] at its
    label *)
Definition contiguous (t : nat) (c : chain) (drawn : list theta) : Prop :=
  nstar c = length drawn
  /\ (forall i : nat, (i < t)%nat ->
        exists k : nat, C c !! i = Some k /\ (k < nstar c)%nat
                        /\ drawn !! k = Some (theta_of c i))
  /\ (forall k : nat, (k < nstar c)%nat ->
        exists i : nat, (i < t)%nat /\ C c !! i = Some k).

(** the units of [done] have labels below [nstar], and their labels are
    in the order of their keys: a smaller key has a smaller label and
    equal keys have equal labels *)
Definition ordered (key : nat -> nat) (done : list nat) (c : chain) : Prop :=
  (forall ix : nat, ix ∈ done ->
     exists l : nat, C c !! ix = Some l /\ (l < nstar c)%nat)
  /\ (forall ix1 ix2 l1 l2 : nat, ix1 ∈ done -> ix2 ∈ done ->
        C c !! ix1 = Some l1 -> C c !! ix2 = Some l2 ->
        ((key ix1 < key ix2)%nat -> (l1 < l2)%nat)
        /\ (key ix1 = key ix2 -> l1 = l2)).

(** the labels of the [t] units are below [nstar], and two units with the
    same label hold the same parameter *)
Definition consistent (t : nat) (c : chain) : Prop :=
  (forall i : nat, (i < t)%nat -> (C c !!! i < nstar c)%nat)
  /\ (forall i j : nat, (i < t)%nat -> (j < t)%nat ->
        C c !!! i = C c !!! j -> theta_of c i = theta_of c j).

(** the buffers of [alpha] and [nstar] and their counter are the same in
    [o] and [o'] *)
Definition same_alpha_store (o o' : store) : Prop :=
  pdSa o' = pdSa o /\ pdSn o' = pdSn o /\ itempA o' = itempA o.

(** the cells [k] of the seven buffers that take the draw of a unit *)
Definition stored_row (o : store) (k : nat) : list (option Q) :=
  [pdSMu0 o !! k; pdSMu1 o !! k; pdSSig00 o !! k; pdSSig01 o !! k;
   pdSSig11 o !! k; pdSW1 o !! k; pdSW2 o !! k].

(** the seven values of unit [i] that a draw stores *)
Definition unit_row (c : chain) (i : nat) : list (option Q) :=
  [Some (v0 (mu c !!! i)); Some (v1 (mu c !!! i));
   Some (m00 (Sigma c !!! i)); Some (m01 (Sigma c !!! i));
   Some (m11 (Sigma c !!! i)); Some (v0 (W c !!! i)); Some (v1 (W c !!! i))].

(** each of the seven buffers has [n] cells or more *)
Definition store_room (n : nat) (o : store) : Prop :=
  (n <= length (pdSMu0 o))%nat /\ (n <= length (pdSMu1 o))%nat
  /\ (n <= length (pdSSig00 o))%nat /\ (n <= length (pdSSig01 o))%nat
  /\ (n <= length (pdSSig11 o))%nat /\ (n <= length (pdSW1 o))%nat
  /\ (n <= length (pdSW2 o))%nat.

(** *** Array cells and loops *)

(** [a[i][0] = x] and [a[i][1] = x] *)
Definition set_v0 (a : list vec2) (i : nat) (x : Q) : list vec2 :=
  <[i := Vec2 x (v1 (a !!! i))]> a.
Definition set_v1 (a : list vec2) (i : nat) (x : Q) : list vec2 :=
  <[i := Vec2 (v0 (a !!! i)) x]> a.
Definition set_vk (a : list vec2) (i k : nat) (x : Q) : list vec2 :=
  match k with O => set_v0 a i x | _ => set_v1 a i x end.

(** [for (i = 0; i < n; i++) body] on a state [S] *)
Definition for_loop {S : Type} (n : nat) (body : nat -> S -> S) (s : S) : S :=
  fold_left (fun s i => body i s) (seq 0 n) s.

(** the running sums [dtemp += p; cum[j] = dtemp] and the last [dtemp] *)
Fixpoint cumulate (ps : list Q) (dtemp : Q) : list Q * Q :=
  match ps with
  | [] => ([], dtemp)
  | p :: rest =>
      let d := dtemp + p in
      let '(cum, total) := cumulate rest d in
      (d :: cum, total)
  end.

(** [for (j ...) cum[j] /= dtemp] *)
Definition standardize (cp : list Q * Q) : list Q :=
  map (fun c => c / snd cp) (fst cp).

(** *** Tomography lines *)

Definition n_step : nat := 1000.

(** [dtemp = (double)1/n_step] *)
Definition grid_step : Q := 1 / inject_Z (Z.of_nat n_step).

(** The bounds and the grid of one unit, lines 269 to 302. *)
Record tomo := {
  minW1 : Q;
  maxW1 : Q;
  n_grid : nat;
  resid : Q;
  W1g : list Q;
  W2g : list Q;
}.

(** the guard [X[i][1]!=0 && X[i][1]!=1] *)
Definition on_tomo_line (x : vec2) : bool :=
  negb (Qeq_bool (v1 x) 0) && negb (Qeq_bool (v1 x) 1).

(** [W1g[i][j]] in the branch of many grid points *)
Definition W1g_point (mn mx rs : Q) (j : nat) : Q :=
  let w := mn + (inject_Z (Z.of_nat j) + 1) * grid_step
           - (grid_step + rs) / 2 in
  let w := if Qltb (w - mn) (rs / 2) then w + rs / 2 else w in
  let w := if Qltb (mx - w) (rs / 2) then w - rs / 2 else w in
  w.

(** [W2g[i][j] = (X[i][1]-X[i][0]*W1g[i][j])/(1-X[i][0])] *)
Definition W2g_point (x : vec2) (w1 : Q) : Q :=
  (v1 x - v0 x * w1) / (1 - v0 x).

(** The body of the loop over [i] at lines 269 to 302, for a unit that
    passes the guard.  The cells of [W1g] and [W2g] from [n_grid] on keep
    the zero of lines 260 to 264, which is what a read past the end of the
    lists gives; [resid] is only assigned in the first branch.  For a unit
    that fails the guard [on_tomo_line] the C loop assigns nothing, so the
    record says nothing of it: statements about [tomo_of] are made of the
    units that pass the guard. *)
Definition tomo_of (x : vec2) : tomo :=
  let mn := fmax2 0 ((v0 x + v1 x - 1) / v0 x) in
  let mx := fmin2 1 (v1 x / v0 x) in
  if Qltb (2 * grid_step) (mx - mn) then
    let ng := Z.to_nat (ftrunc ((mx - mn) * inject_Z (Z.of_nat n_step))) in
    let rs := (mx - mn) - inject_Z (Z.of_nat ng) * grid_step in
    let w1 := map (W1g_point mn mx rs) (seq 0 ng) in
    {| minW1 := mn; maxW1 := mx; n_grid := ng; resid := rs;
       W1g := w1; W2g := map (W2g_point x) w1 |}
  else
    let w10 := mn + (mx - mn) / 3 in
    let w11 := mn + 2 * (mx - mn) / 3 in
    {| minW1 := mn; maxW1 := mx; n_grid := 2; resid := 0;
       W1g := [w10; w11]; W2g := [W2g_point x w10; W2g_point x w11] |}.

(** [while ((dtemp > prob_grid_cum[j]) && (j<(n_grid[i]-1))) j++;] started
    at [j]; [fuel] bounds the number of turns *)
Fixpoint tomo_search (fuel : nat) (dtemp : Q) (cum : list Q) (ng j : nat) : nat :=
  match fuel with
  | O => j
  | S fuel' =>
      if Qltb (cum !!! j) dtemp && (S j <? ng)%nat
      then tomo_search fuel' dtemp cum ng (S j)
      else j
  end.

(** *** The sampler *)

Section Sampler.
Context {RM : Rmath} {RR : Rrand} {EL : EcoLib}.
Variable a : args.

(** A step of the sampler reads the random stream; a read past the end of
    an array has no defined result and ends the run with [None]. *)
Definition M (A : Type) : Type := rng -> option (A * rng).

Definition ret {A : Type} (x : A) : M A := fun r => Some (x, r).

Definition bind {A B : Type} (m : M A) (k : A -> M B) : M B :=
  fun r => match m r with
           | Some (x, r') => k x r'
           | None => None
           end.

Definition draw {A : Type} (f : rng -> A * rng) : M A := fun r => Some (f r).

Definition undefined {A : Type} : M A := fun _ => None.

Notation "x <- m ;; k" := (bind m (fun x => k))
  (at level 100, m at next level, right associativity).

(** [for (i = 0; i < n; i++) body] with draws *)
Definition for_loopM {S : Type} (n : nat) (body : nat -> S -> M S) (s : S) : M S :=
  fold_left (fun m i => s' <- m ;; body i s') (seq 0 n) (ret s).

(** [t_samp = n_samp+x1_samp+x0_samp+s_samp] *)
Definition t_samp : nat := (n_samp a + x1_samp a + x0_samp a + s_samp a)%nat.

(** [X[i][j] = pdX[itemp++]], column after column *)
Definition X : list vec2 :=
  map (fun i => Vec2 (pdX a !!! i) (pdX a !!! (n_samp a + i)%nat))
      (seq 0 (n_samp a)).

(** [S0[j][k] = pdS0[itemp++]], with [k] in the outer loop *)
Definition S0 : mat2 :=
  Mat2 (pdS0 a !!! 0%nat) (pdS0 a !!! 2%nat) (pdS0 a !!! 1%nat) (pdS0 a !!! 3%nat).

(** the sentinels that keep a proportion off 0 and 1 *)
Definition clamp01 (w : Q) : Q :=
  let w := if Qeq_bool w 0 then 1 # 1000000 else w in
  if Qeq_bool w 1 then 999999 # 1000000 else w.

(** lines 199 to 205 *)
Definition init_W_unit (x : vec2) : vec2 :=
  let w := if Qeq_bool (v1 x) 0 then 1 # 1000000
           else if Qeq_bool (v1 x) 1 then 999999 # 1000000
           else 0 in
  Vec2 w w.

Definition init_data (ws : list vec2 * list vec2) : list vec2 * list vec2 :=
  for_loop (n_samp a)
    (fun i '(w, wstar) =>
       (<[i := init_W_unit (X !!! i)]> w, <[i := Vec2 0 0]> wstar)) ws.

(** lines 210 to 216 *)
Definition init_x1 (ws : list vec2 * list vec2) : list vec2 * list vec2 :=
  if (x1 a =? 1)%Z then
    for_loop (x1_samp a)
      (fun i '(w, wstar) =>
         let w := set_v0 w (n_samp a + i) (clamp01 (x1_W1 a !!! i)) in
         let w0 := v0 (w !!! (n_samp a + i)%nat) in
         (w, set_v0 wstar (n_samp a + i) (log w0 - log (1 - w0)))) ws
  else ws.

(** lines 218 to 224 *)
Definition init_x0 (ws : list vec2 * list vec2) : list vec2 * list vec2 :=
  if (x0 a =? 1)%Z then
    for_loop (x0_samp a)
      (fun i '(w, wstar) =>
         let k := (n_samp a + x1_samp a + i)%nat in
         let w := set_v1 w k (clamp01 (x0_W2 a !!! i)) in
         let w1 := v1 (w !!! k) in
         (w, set_v1 wstar k (log w1 - log (1 - w1)))) ws
  else ws.

(** lines 229 to 242 *)
Definition init_survey (ws : list vec2 * list vec2) : list vec2 * list vec2 :=
  if (survey a =? 1)%Z then
    for_loop 2
      (fun j =>
         for_loop (s_samp a)
           (fun i '(w, wstar) =>
              let k := (n_samp a + x1_samp a + x0_samp a + i)%nat in
              let sw := clamp01 (sur_W a !!! (j * s_samp a + i)%nat) in
              (set_vk w k j sw, set_vk wstar k j (log sw - log (1 - sw)))))
      ws
  else ws.

(** [W] and [Wstar] when the main loop starts *)
Definition init_W : list vec2 * list vec2 :=
  init_survey (init_x0 (init_x1 (init_data
    (doubleMatrix2 t_samp, doubleMatrix2 t_samp)))).

(** lines 313 to 317 *)
Definition S_bvt : mat2 :=
  dinv (mbuild (fun j k =>
    tau0 a * inject_Z (nu0 a - 1) * mget S0 j k / (1 + tau0 a))).

(** lines 323 to 331: one turn of the loop that draws the first
    [mu[i]], [Sigma[i]] under the base measure *)
Definition init_theta : M theta :=
  let mtemp := dinv S0 in
  IS <- draw (rWish mtemp (nu0 a)) ;;
  let Sg := dinv IS in
  let mtemp1 := mbuild (fun j k => mget Sg j k / tau0 a) in
  m <- draw (rMVN (mu0 a) mtemp1) ;;
  ret {| mu_mix := m; Sigma_mix := Sg; InvSigma_mix := IS |}.

Fixpoint init_thetas (n : nat) : M (list theta) :=
  match n with
  | O => ret []
  | S n' =>
      th <- init_theta ;;
      ths <- init_thetas n' ;;
      ret (th :: ths)
  end.

(** the state when the main loop starts, lines 129 to 336 *)
Definition init_chain : M chain :=
  ths <- init_thetas t_samp ;;
  ret {| W := fst init_W; Wstar := snd init_W;
         mu := map mu_mix ths; Sigma := map Sigma_mix ths;
         InvSigma := map InvSigma_mix ths;
         C := seq 0 t_samp; nstar := t_samp;
         sortC := intArray t_samp;
         prob_grid := doubleArray n_step |}.

(** **** Latent pairs, lines 341 to 403 *)

(** the value of [prob_grid[j]] before [exp]; [old] is what the cell held *)
Definition tomo_logdens (w1 w2 : Q) (m : vec2) (IS : mat2) (old : Q) : Q :=
  if (link a =? 1)%Z then
    dMVN [log w1 - log (1 - w1); log w2 - log (1 - w2)] (vl m) (ml IS) 2 true
    - log w1 - log w2 - log (1 - w1) - log (1 - w2)
  else if (link a =? 2)%Z then
    dMVN [qnorm w1; qnorm w2] (vl m) (ml IS) 2 true
    - dnorm_log (qnorm w1) - dnorm_log (qnorm w2)
  else if (link a =? 3)%Z then
    dMVN [- log (- log w1); - log (- log w2)] (vl m) (ml IS) 2 true
    - log w1 - log w2 - log (- log w1) - log (- log w2)
  else old.

(** the weights [prob_grid[0..n_grid-1]] of unit [i] *)
Definition tomo_probs (g : tomo) (c : chain) (i : nat) : list Q :=
  map (fun j => exp (tomo_logdens (W1g g !!! j) (W2g g !!! j)
                       (mu c !!! i) (InvSigma c !!! i) (prob_grid c !!! j)))
      (seq 0 (n_grid g)).

(** the index the draw [dtemp = unif_rand()] selects on the line of
    unit [i], lines 344 to 384 *)
Definition tomo_index (g : tomo) (c : chain) (i : nat) (dtemp : Q) : nat :=
  let prob_grid_cum := standardize (cumulate (tomo_probs g c i) 0) in
  tomo_search (n_grid g) dtemp prob_grid_cum (n_grid g) 0.

(** lines 343 to 386: the draw of [(W1, W2)] on the line of unit [i] *)
Definition draw_W (c : chain) (i : nat) : M chain :=
  let g := tomo_of (X !!! i) in
  let ps := tomo_probs g c i in
  dtemp <- draw unif_rand ;;
  let j := tomo_index g c i dtemp in
  ret {| W := <[i := Vec2 (W1g g !!! j) (W2g g !!! j)]> (W c);
         Wstar := Wstar c; mu := mu c; Sigma := Sigma c;
         InvSigma := InvSigma c; C := C c; nstar := nstar c;
         sortC := sortC c;
         prob_grid := ps ++ drop (length ps) (prob_grid c) |}.

(** lines 390 to 401: [Wstar[i]] from [W[i]] *)
Definition link_W (w old : vec2) : vec2 :=
  if (link a =? 1)%Z then
    Vec2 (log (v0 w) - log (1 - v0 w)) (log (v1 w) - log (1 - v1 w))
  else if (link a =? 2)%Z then Vec2 (qnorm (v0 w)) (qnorm (v1 w))
  else if (link a =? 3)%Z then
    Vec2 (- log (- log (v0 w))) (- log (- log (v1 w)))
  else old.

Definition set_Wstar (c : chain) (ws : list vec2) : chain :=
  {| W := W c; Wstar := ws; mu := mu c; Sigma := Sigma c;
     InvSigma := InvSigma c; C := C c; nstar := nstar c; sortC := sortC c;
     prob_grid := prob_grid c |}.

Definition set_W (c : chain) (w : list vec2) : chain :=
  {| W := w; Wstar := Wstar c; mu := mu c; Sigma := Sigma c;
     InvSigma := InvSigma c; C := C c; nstar := nstar c; sortC := sortC c;
     prob_grid := prob_grid c |}.

(** the body of the loop over [i] at lines 341 to 403 *)
Definition update_W_unit (i : nat) (c : chain) : M chain :=
  c <- (if on_tomo_line (X !!! i) then draw_W c i else ret c) ;;
  ret (set_Wstar c (<[i := link_W (W c !!! i) (Wstar c !!! i)]> (Wstar c))).

Definition update_W (c : chain) : M chain :=
  for_loopM (n_samp a) update_W_unit c.

(** **** Homogeneous areas, lines 406 to 430 *)

(** the body of the loop over [i] at lines 407 to 416 *)
Definition update_x1_unit (i : nat) (c : chain) : M chain :=
  let k := (n_samp a + i)%nat in
  let Sg := Sigma c !!! k in
  let dtemp := v1 (mu c !!! k)
               + m01 Sg / m00 Sg * (v0 (Wstar c !!! k) - v0 (mu c !!! k)) in
  let dtemp1 := m11 Sg * (1 - m01 Sg * m01 Sg / (m00 Sg * m11 Sg)) in
  z <- draw norm_rand ;;
  let c := set_Wstar c (set_v1 (Wstar c) k (z * sqrt dtemp1 + dtemp)) in
  let ws := v1 (Wstar c !!! k) in
  ret (set_W c (set_v1 (W c) k (exp ws / (1 + exp ws)))).

Definition update_x1 (c : chain) : M chain :=
  if (x1 a =? 1)%Z then for_loopM (x1_samp a) update_x1_unit c else ret c.

(** the body of the loop over [i] at lines 421 to 430; the draw is stored
    in [Wstar[n_samp+i][0]], as line 427 has it *)
Definition update_x0_unit (i : nat) (c : chain) : M chain :=
  let k := (n_samp a + x1_samp a + i)%nat in
  let Sg := Sigma c !!! k in
  let dtemp := v0 (mu c !!! k)
               + m01 Sg / m11 Sg * (v1 (Wstar c !!! k) - v1 (mu c !!! k)) in
  let dtemp1 := m00 Sg * (1 - m01 Sg * m01 Sg / (m00 Sg * m11 Sg)) in
  z <- draw norm_rand ;;
  let c := set_Wstar c (set_v0 (Wstar c) (n_samp a + i) (z * sqrt dtemp1 + dtemp)) in
  let ws := v0 (Wstar c !!! k) in
  ret (set_W c (set_v0 (W c) k (exp ws / (1 + exp ws)))).

Definition update_x0 (c : chain) : M chain :=
  if (x0 a =? 1)%Z then for_loopM (x0_samp a) update_x0_unit c else ret c.

(** **** The Polya urn, lines 434 to 495 *)

(** the weight [q[j]] in the turn of unit [i] *)
Definition urn_weight (al : Q) (c : chain) (i j : nat) : Q :=
  if negb (j =? i)%nat then
    dMVN (vl (Wstar c !!! i)) (vl (mu c !!! j)) (ml (InvSigma c !!! j)) 2 false
  else
    al * dMVT (vl (Wstar c !!! i)) (vl (mu0 a)) (ml S_bvt) (nu0 a - 1) 2 false.

(** the array [q] after the loop over [j] at lines 438 to 445 *)
Definition urn_q (al : Q) (c : chain) (i : nat) : list Q :=
  map (urn_weight al c i) (seq 0 t_samp).

(** The same weights in the order the specification words them: the units
    other than [i] in the order of their indices, and the new value last. *)
Definition urn_q_new_last (al : Q) (c : chain) (i : nat) : list Q :=
  map (urn_weight al c i)
      (List.filter (fun j => negb (j =? i)%nat) (seq 0 t_samp))
  ++ [urn_weight al c i i].

(** the array [qq] after lines 438 to 449 *)
Definition urn_qq (al : Q) (c : chain) (i : nat) : list Q :=
  standardize (cumulate (urn_q al c i) 0).

(** [while (dtemp > qq[j]) j++;] started at [j], on the cells of [qq] from
    [j] on; the loop has no other bound, and a turn that reaches the end
    of the array reads past it *)
Fixpoint urn_search (dtemp : Q) (qq : list Q) (j : nat) : option nat :=
  match qq with
  | [] => None
  | c :: rest => if Qltb c dtemp then urn_search dtemp rest (S j) else Some j
  end.

(** lines 464 to 480: a new value for unit [i] *)
Definition urn_new (c : chain) (i : nat) : M chain :=
  let w := Wstar c !!! i in
  let Sn := mbuild (fun k l =>
    mget S0 k l
    + tau0 a * (vget w k - vget (mu0 a) k) * (vget w l - vget (mu0 a) l)
      / (tau0 a + 1)) in
  let mtemp := dinv Sn in
  IS <- draw (rWish mtemp (nu0 a + 1)) ;;
  let Sg := dinv IS in
  let mun := vbuild (fun k => (tau0 a * vget (mu0 a) k + vget w k) / (tau0 a + 1)) in
  let mtemp := mbuild (fun k l => mget Sg k l / (tau0 a + 1)) in
  m <- draw (rMVN mun mtemp) ;;
  ret {| W := W c; Wstar := Wstar c;
         mu := <[i := m]> (mu c);
         Sigma := <[i := Sg]> (Sigma c);
         InvSigma := <[i := IS]> (InvSigma c);
         C := <[i := nstar c]> (C c);
         nstar := S (nstar c);
         sortC := sortC c; prob_grid := prob_grid c |}.

(** lines 483 to 492: unit [i] takes the value of unit [j] *)
Definition urn_copy (c : chain) (i j : nat) : chain :=
  {| W := W c; Wstar := Wstar c;
     mu := <[i := vbuild (vget (mu c !!! j))]> (mu c);
     Sigma := <[i := mbuild (mget (Sigma c !!! j))]> (Sigma c);
     InvSigma := <[i := mbuild (mget (InvSigma c !!! j))]> (InvSigma c);
     C := <[i := C c !!! j]> (C c);
     nstar := nstar c;
     sortC := sortC c; prob_grid := prob_grid c |}.

(** line 494 *)
Definition set_sortC (c : chain) (i : nat) : chain :=
  {| W := W c; Wstar := Wstar c; mu := mu c; Sigma := Sigma c;
     InvSigma := InvSigma c; C := C c; nstar := nstar c;
     sortC := <[i := C c !!! i]> (sortC c); prob_grid := prob_grid c |}.

(** the body of the loop over [i] at lines 434 to 495 *)
Definition sweep_unit (al : Q) (i : nat) (c : chain) : M chain :=
  let qq := urn_qq al c i in
  dtemp <- draw unif_rand ;;
  match urn_search dtemp qq 0 with
  | None => undefined
  | Some j =>
      c <- (if (j =? i)%nat then urn_new c i else ret (urn_copy c i j)) ;;
      ret (set_sortC c i)
  end.

Definition sweep (al : Q) (c : chain) : M chain :=
  for_loopM t_samp (sweep_unit al) c.

(** **** Remixing, lines 498 to 573 *)

(** the inner loop at lines 517 to 525, on the cells of [sortC] and
    [indexC] from the current [i] on: the array [label] it fills and the
    cells that remain.  At the end of the arrays the C test reads
    [sortC[t_samp]] before it checks [i<t_samp]; whatever it reads, the
    test is false. *)
Fixpoint remix_block (j : nat) (cells : list (nat * nat)) : list nat * list (nat * nat) :=
  match cells with
  | [] => ([], [])
  | (cj, ix) :: rest =>
      if (cj =? j)%nat then
        let '(label, rest') := remix_block j rest in (ix :: label, rest')
      else ([], cells)
  end.

(** lines 508 to 530 and 534 to 542: [Wstar_bar] and [Snj] of a block *)
Definition remix_Wstar_bar (Wstarmix : list vec2) : vec2 :=
  let nj := inject_Z (Z.of_nat (length Wstarmix)) in
  let sums := fold_left (fun s w => Vec2 (v0 s + v0 w) (v1 s + v1 w))
                        Wstarmix (Vec2 0 0) in
  Vec2 (v0 sums / nj) (v1 sums / nj).

Definition remix_Snj (Wstarmix : list vec2) (Wstar_bar : vec2) : mat2 :=
  let nj := inject_Z (Z.of_nat (length Wstarmix)) in
  let scatter := fold_left (fun Snj w => mbuild (fun k l =>
      mget Snj k l + (vget w k - vget Wstar_bar k) * (vget w l - vget Wstar_bar l)))
    Wstarmix S0 in
  mbuild (fun k l =>
    mget scatter k l
    + tau0 a * nj * (vget Wstar_bar k - vget (mu0 a) k)
      * (vget Wstar_bar l - vget (mu0 a) l) / (tau0 a + nj)).

(** lines 546 to 556: the value drawn for a block *)
Definition remix_draw (Wstarmix : list vec2) : M theta :=
  let nj := length Wstarmix in
  let Wstar_bar := remix_Wstar_bar Wstarmix in
  let Snj := remix_Snj Wstarmix Wstar_bar in
  let mtemp := dinv Snj in
  IS <- draw (rWish mtemp (nu0 a + Z.of_nat nj)) ;;
  let Sg := dinv IS in
  let q := inject_Z (Z.of_nat nj) in
  let munj := vbuild (fun k =>
    (tau0 a * vget (mu0 a) k + q * vget Wstar_bar k) / (tau0 a + q)) in
  let mtemp := mbuild (fun k l => mget Sg k l / (tau0 a + q)) in
  m <- draw (rMVN munj mtemp) ;;
  ret {| mu_mix := m; Sigma_mix := Sg; InvSigma_mix := IS |}.

(** lines 562 to 571: the units of [label] take the value of the block *)
Definition remix_assign (th : theta) (label : list nat) (c : chain) : chain :=
  fold_left (fun c ix =>
    {| W := W c; Wstar := Wstar c;
       mu := <[ix := vbuild (vget (mu_mix th))]> (mu c);
       Sigma := <[ix := mbuild (mget (Sigma_mix th))]> (Sigma c);
       InvSigma := <[ix := mbuild (mget (InvSigma_mix th))]> (InvSigma c);
       C := <[ix := nstar c]> (C c);
       nstar := nstar c;
       sortC := sortC c; prob_grid := prob_grid c |}) label c.

Definition set_nstar (c : chain) (n : nat) : chain :=
  {| W := W c; Wstar := Wstar c; mu := mu c; Sigma := Sigma c;
     InvSigma := InvSigma c; C := C c; nstar := n; sortC := sortC c;
     prob_grid := prob_grid c |}.

(** the loop [while (i<t_samp)] at lines 506 to 573, on the cells from the
    current [i] on; besides the state it gives the values drawn, one for
    each block, in the order of the blocks.  [fuel] bounds the number of
    blocks. *)
Fixpoint remix_loop (fuel : nat) (cells : list (nat * nat)) (c : chain)
    (drawn : list theta) : M (chain * list theta) :=
  match fuel, cells with
  | S fuel', (j, _) :: _ =>
      let '(label, rest) := remix_block j cells in
      let Wstarmix := map (fun ix => Wstar c !!! ix) label in
      th <- remix_draw Wstarmix ;;
      let c := remix_assign th label c in
      remix_loop fuel' rest (set_nstar c (S (nstar c))) (drawn ++ [th])
  | _, _ => ret (c, drawn)
  end.

Definition set_sortC_all (c : chain) (sc : list nat) : chain :=
  {| W := W c; Wstar := Wstar c; mu := mu c; Sigma := Sigma c;
     InvSigma := InvSigma c; C := C c; nstar := nstar c; sortC := sc;
     prob_grid := prob_grid c |}.

(** lines 498 to 500: [sortC] and [indexC] after the sort, cell by cell *)
Definition remix_cells (c : chain) : list (nat * nat) :=
  let indexC := seq 0 t_samp in
  let '(sc, ic) := R_qsort_int_I (sortC c) indexC in
  zip sc ic.

(** the remixing step, lines 498 to 573 *)
Definition remix_trace (c : chain) : M (chain * list theta) :=
  let cells := remix_cells c in
  remix_loop t_samp cells (set_nstar (set_sortC_all c (fst <$> cells)) 0) [].

Definition remix (c : chain) : M chain :=
  r <- remix_trace c ;; ret (fst r).

(** **** The concentration parameter, lines 576 to 591 *)

Definition update_alpha (al : Q) (ns : nat) : M Q :=
  if negb (pinUpdate a =? 0)%Z then
    let dtemp1 := al + 1 in
    let dtemp2 := inject_Z (Z.of_nat t_samp) in
    be <- draw (rbeta dtemp1 dtemp2) ;;
    let dtemp := b0 a - log be in
    let dtemp1 := (a0 a + inject_Z (Z.of_nat ns) - 1)
                  / (inject_Z (Z.of_nat t_samp) * dtemp) in
    u <- draw unif_rand ;;
    if Qltb u dtemp1 then
      draw (rgamma (a0 a + inject_Z (Z.of_nat ns)) (1 / dtemp))
    else
      draw (rgamma (a0 a + inject_Z (Z.of_nat ns) - 1) (1 / dtemp))
  else ret al.

(** **** Storage, lines 594 to 631 *)

(** lines 597 to 601 *)
Definition store_alpha (al : Q) (ns : nat) (o : store) : store :=
  if negb (pinUpdate a =? 0)%Z then
    {| pdSMu0 := pdSMu0 o; pdSMu1 := pdSMu1 o; pdSSig00 := pdSSig00 o;
       pdSSig01 := pdSSig01 o; pdSSig11 := pdSSig11 o; pdSW1 := pdSW1 o;
       pdSW2 := pdSW2 o; pdSWt1 := pdSWt1 o; pdSWt2 := pdSWt2 o;
       pdY := pdY o;
       pdSa := <[itempA o := al]> (pdSa o);
       pdSn := <[itempA o := Z.of_nat ns]> (pdSn o);
       itempA := S (itempA o); itempS := itempS o; itempC := itempC o |}
  else o.

(** lines 611 to 626: the posterior prediction for unit [i] *)
Definition store_pred (c : chain) (i : nat) (o : store) : M store :=
  if negb (pred a =? 0)%Z then
    vtemp <- draw (rMVN (mu c !!! i) (Sigma c !!! i)) ;;
    let k := itempS o in
    let '(wt1, wt2) :=
      if (link a =? 1)%Z then
        (<[k := exp (v0 vtemp) / (exp (v0 vtemp) + 1)]> (pdSWt1 o),
         <[k := exp (v1 vtemp) / (exp (v1 vtemp) + 1)]> (pdSWt2 o))
      else if (link a =? 2)%Z then
        (<[k := pnorm (v0 vtemp)]> (pdSWt1 o),
         <[k := pnorm (v1 vtemp)]> (pdSWt2 o))
      else if (link a =? 3)%Z then
        (<[k := exp (- exp (- v0 vtemp))]> (pdSWt1 o),
         <[k := exp (- exp (- v1 vtemp))]> (pdSWt2 o))
      else (pdSWt1 o, pdSWt2 o) in
    let x := v0 (X !!! i) in
    ret {| pdSMu0 := pdSMu0 o; pdSMu1 := pdSMu1 o; pdSSig00 := pdSSig00 o;
           pdSSig01 := pdSSig01 o; pdSSig11 := pdSSig11 o; pdSW1 := pdSW1 o;
           pdSW2 := pdSW2 o; pdSWt1 := wt1; pdSWt2 := wt2;
           pdY := <[k := (wt1 !!! k) * x + (wt2 !!! k) * (1 - x)]> (pdY o);
           pdSa := pdSa o; pdSn := pdSn o;
           itempA := itempA o; itempS := itempS o; itempC := itempC o |}
  else ret o.

(** the body of the loop over [i] at lines 602 to 628 *)
Definition store_unit (c : chain) (i : nat) (o : store) : M store :=
  let k := itempS o in
  let o :=
    {| pdSMu0 := <[k := v0 (mu c !!! i)]> (pdSMu0 o);
       pdSMu1 := <[k := v1 (mu c !!! i)]> (pdSMu1 o);
       pdSSig00 := <[k := m00 (Sigma c !!! i)]> (pdSSig00 o);
       pdSSig01 := <[k := m01 (Sigma c !!! i)]> (pdSSig01 o);
       pdSSig11 := <[k := m11 (Sigma c !!! i)]> (pdSSig11 o);
       pdSW1 := <[k := v0 (W c !!! i)]> (pdSW1 o);
       pdSW2 := <[k := v1 (W c !!! i)]> (pdSW2 o);
       pdSWt1 := pdSWt1 o; pdSWt2 := pdSWt2 o; pdY := pdY o;
       pdSa := pdSa o; pdSn := pdSn o;
       itempA := itempA o; itempS := itempS o; itempC := itempC o |} in
  o <- store_pred c i o ;;
  ret {| pdSMu0 := pdSMu0 o; pdSMu1 := pdSMu1 o; pdSSig00 := pdSSig00 o;
         pdSSig01 := pdSSig01 o; pdSSig11 := pdSSig11 o; pdSW1 := pdSW1 o;
         pdSW2 := pdSW2 o; pdSWt1 := pdSWt1 o; pdSWt2 := pdSWt2 o;
         pdY := pdY o; pdSa := pdSa o; pdSn := pdSn o;
         itempA := itempA o; itempS := S (itempS o); itempC := itempC o |}.

Definition set_itempC (o : store) (k : Z) : store :=
  {| pdSMu0 := pdSMu0 o; pdSMu1 := pdSMu1 o; pdSSig00 := pdSSig00 o;
     pdSSig01 := pdSSig01 o; pdSSig11 := pdSSig11 o; pdSW1 := pdSW1 o;
     pdSW2 := pdSW2 o; pdSWt1 := pdSWt1 o; pdSWt2 := pdSWt2 o;
     pdY := pdY o; pdSa := pdSa o; pdSn := pdSn o;
     itempA := itempA o; itempS := itempS o; itempC := k |}.

(** lines 594 to 631 *)
Definition store_draws (main_loop : nat) (al : Q) (c : chain) (o : store) : M store :=
  if (burn_in a <=? Z.of_nat main_loop)%Z then
    let o := set_itempC o (itempC o + 1) in
    if (itempC o =? nth a)%Z then
      let o := store_alpha al (nstar c) o in
      o <- for_loopM (n_samp a) (store_unit c) o ;;
      ret (set_itempC o 0)
    else ret o
  else ret o.

(** **** The main loop, lines 338 to 632 *)

Definition main_loop_body (main_loop : nat) (s : state) : M state :=
  c <- update_W (ch s) ;;
  c <- update_x1 c ;;
  c <- update_x0 c ;;
  c <- sweep (alpha s) c ;;
  c <- remix c ;;
  al <- update_alpha (alpha s) (nstar c) ;;
  o <- store_draws main_loop al c (out s) ;;
  ret {| ch := c; alpha := al; out := o |}.

(** the counters when the main loop starts, lines 254 to 256 *)
Definition init_store (o : store) : store :=
  {| pdSMu0 := pdSMu0 o; pdSMu1 := pdSMu1 o; pdSSig00 := pdSSig00 o;
     pdSSig01 := pdSSig01 o; pdSSig11 := pdSSig11 o; pdSW1 := pdSW1 o;
     pdSW2 := pdSW2 o; pdSWt1 := pdSWt1 o; pdSWt2 := pdSWt2 o;
     pdY := pdY o; pdSa := pdSa o; pdSn := pdSn o;
     itempA := 0; itempS := 0; itempC := 0 |}.

(** the state when the main loop starts; [alpha=1] is line 101 *)
Definition init_state (o : store) : M state :=
  c <- init_chain ;;
  ret {| ch := c; alpha := 1; out := init_store o |}.

(** the state after the first [n] turns of the main loop *)
Definition run (n : nat) (o : store) : M state :=
  s <- init_state o ;;
  for_loopM n main_loop_body s.

(** [cDPeco]: the output buffers when the function returns *)
Definition cDPeco (o : store) : M store :=
  s <- run (Z.to_nat (n_gen a)) o ;;
  ret (out s).

End Sampler.

End GibbsDP.

(** ** Stand-ins for the routines taken from elsewhere

    Simple rational functions in the place of the routines of R and of the
    package, to run the embedding on concrete units.  They keep the signs
    and the ranges of the routines they stand for: the densities are
    positive, [exp] is positive, a uniform draw is strictly between 0 and 1,
    a gamma draw is positive, [dinv] is the inverse of a 2 by 2 matrix, and
    the sort is a stable insertion sort. *)

Module Demo.

(** the square root of a square of a rational, and a lower bound of the
    root otherwise *)
Definition sqrt_q (x : Q) : Q :=
  Z.sqrt (Qnum x) # Pos.sqrt (Qden x).

(** [1 + x] above zero and [1 / (1 - x)] below *)
Definition exp_q (x : Q) : Q :=
  Qred (if Qltb x 0 then 1 / (1 - x) else 1 + x).

#[global] Instance rmath : Rmath := {|
  log := fun x => Qred (x - 1);
  exp := exp_q;
  sqrt := sqrt_q;
  qnorm := fun p => 4 * p - 2;
  dnorm_log := fun x => - (x * x) / 2;
  pnorm := fun x => fmax2 (1 # 100) (fmin2 (99 # 100) ((x + 2) / 4));
|}.

(** the uniform draws: 1/2, 1/4, 3/4, 1/8, and again *)
Definition unif_q (r : nat) : Q :=
  match (r mod 4)%nat with
  | 0%nat => 1 # 2
  | 1%nat => 1 # 4
  | 2%nat => 3 # 4
  | _ => 1 # 8
  end.

(** the random stream is the number of draws made so far *)
#[global] Instance rrand : Rrand := {|
  rng := nat;
  unif_rand := fun r => (unif_q r, S r);
  norm_rand := fun r => (unif_q r - (1 # 2), S r);
  rbeta := fun _ _ r => (unif_q r, S r);
  rgamma := fun sh sc r => (Qred (Qabs (sh * sc) + 1), S r);
  rWish := fun Sc df r =>
    (Mat2 (Qred (inject_Z df * m00 Sc)) (Qred (inject_Z df * m01 Sc))
          (Qred (inject_Z df * m10 Sc)) (Qred (inject_Z df * m11 Sc)), S r);
  rMVN := fun mean _ r =>
    (Vec2 (Qred (v0 mean + unif_q r)) (Qred (v1 mean - unif_q r)), S r);
|}.

Definition dinv_q (m : mat2) : mat2 :=
  let det := m00 m * m11 m - m01 m * m10 m in
  Mat2 (Qred (m11 m / det)) (Qred (- m01 m / det))
       (Qred (- m10 m / det)) (Qred (m00 m / det)).

(** the squared distance of two vectors *)
Fixpoint dist2 (y m : list Q) : Q :=
  match y, m with
  | yk :: y', mk :: m' => (yk - mk) * (yk - mk) + dist2 y' m'
  | _, _ => 0
  end.

(** the insertion of a cell in a sorted array of cells *)
Fixpoint insert_cell (c : nat * nat) (cells : list (nat * nat)) : list (nat * nat) :=
  match cells with
  | [] => [c]
  | d :: rest =>
      if (fst c <? fst d)%nat then c :: cells else d :: insert_cell c rest
  end.

Definition sort_cells (cells : list (nat * nat)) : list (nat * nat) :=
  fold_left (fun acc c => insert_cell c acc) cells [].

#[global] Instance ecolib : EcoLib := {|
  dinv := dinv_q;
  dMVN := fun y m _ _ give_log =>
    Qred (if give_log then - dist2 y m else 1 / (1 + dist2 y m));
  dMVT := fun y m _ _ _ give_log =>
    Qred (if give_log then - dist2 y m else 1 / (2 + dist2 y m));
  R_qsort_int_I := fun iv I =>
    let cells := sort_cells (zip iv I) in (fst <$> cells, snd <$> cells);
  doubleArray := fun n => replicate n 0;
  doubleMatrix2 := fun n => replicate n (Vec2 0 0);
  intArray := fun n => replicate n 0%nat;
|}.

(** a one-node rule: the value at the middle of the interval times its
    length, which never meets a tolerance below its error estimate of one *)
#[global] Instance quadlib : Fintegrate.QuadLib := {|
  Fintegrate.Rdqags := fun f ex lb ub epsabs epsrel limit =>
    let '(vals, evs) := f [(lb + ub) / 2] ex in
    {| Fintegrate.q_result := (vals !!! 0%nat) * (ub - lb);
       Fintegrate.q_abserr := 1;
       Fintegrate.q_neval := 1;
       Fintegrate.q_ier := if Qltb epsabs 1 then 1 else 0;
       Fintegrate.q_last := 1;
       Fintegrate.q_events := evs |};
  Fintegrate.dBVNtomo := fun w pp give_log normc =>
    1 / (1 + dist2 w (vl (Fintegrate.mu (Fintegrate.caseP pp)))) / normc;
  Fintegrate.invLogit := fun x => fmax2 (1 # 100) (fmin2 (99 # 100) ((x + 2) / 4));
|}.

(** a unit of the integrator with the margins [X = 3/7] and [Y = 1/2],
    whose line goes from [(0, 7/8)] to [(1, 1/8)], and the tag [sf] *)
Definition param (sf : Z) : Fintegrate.Param :=
  Fintegrate.setBounds
    {| Fintegrate.caseP :=
         {| Fintegrate.mu := Vec2 0 0; Fintegrate.X := 3 # 7;
            Fintegrate.Y := 1 # 2; Fintegrate.normcT := 1;
            Fintegrate.suff := sf;
            Fintegrate.Wbounds := Mat2 0 0 0 0 |};
       Fintegrate.setP :=
         {| Fintegrate.ncar := 0; Fintegrate.Sigma := Mat2 1 0 0 1;
            Fintegrate.InvSigma := Mat2 1 0 0 1;
            Fintegrate.Sigma3 := []; Fintegrate.InvSigma3 := [] |} |}.

(** a unit of the integrator with the margins [x] and [y] and the tag -1 *)
Definition param_at (x y : Q) : Fintegrate.Param :=
  Fintegrate.setBounds
    {| Fintegrate.caseP :=
         {| Fintegrate.mu := Vec2 0 0; Fintegrate.X := x;
            Fintegrate.Y := y; Fintegrate.normcT := 1;
            Fintegrate.suff := -1;
            Fintegrate.Wbounds := Mat2 0 0 0 0 |};
       Fintegrate.setP :=
         {| Fintegrate.ncar := 0; Fintegrate.Sigma := Mat2 1 0 0 1;
            Fintegrate.InvSigma := Mat2 1 0 0 1;
            Fintegrate.Sigma3 := []; Fintegrate.InvSigma3 := [] |} |}.

(** Five units: two with margins only, [(X, Y) = (1/2, 0.9985)], whose
    line has three grid points, and [(1/2, 0)]; one area with [X = 1] and
    [W1 = 1/2]; one area with [X = 0] and [W2 = 1/4]; one survey unit with
    [(W1, W2) = (1/3, 2/3)].  [upd] is the switch of the update of the
    concentration parameter. *)
Definition args5 (upd : Z) : GibbsDP.args :=
  {| GibbsDP.n_gen := 2; GibbsDP.link := 1;
     GibbsDP.pdX := [1 # 2; 1 # 2; 9985 # 10000; 0];
     GibbsDP.n_samp := 2; GibbsDP.nu0 := 4; GibbsDP.tau0 := 1;
     GibbsDP.mu0 := Vec2 0 0; GibbsDP.pdS0 := [1; 0; 0; 1];
     GibbsDP.pinUpdate := upd; GibbsDP.burn_in := 0; GibbsDP.nth := 1;
     GibbsDP.pred := 0; GibbsDP.a0 := 1; GibbsDP.b0 := 1;
     GibbsDP.survey := 1; GibbsDP.s_samp := 1;
     GibbsDP.sur_W := [1 # 3; 2 # 3];
     GibbsDP.x1 := 1; GibbsDP.x1_samp := 1; GibbsDP.x1_W1 := [1 # 2];
     GibbsDP.x0 := 1; GibbsDP.x0_samp := 1; GibbsDP.x0_W2 := [1 # 4] |}.

(** the two units with margins of [args5] alone, with the posterior
    prediction switched on *)
Definition args_pred : GibbsDP.args :=
  {| GibbsDP.n_gen := 2; GibbsDP.link := 1;
     GibbsDP.pdX := [1 # 2; 1 # 2; 9985 # 10000; 0];
     GibbsDP.n_samp := 2; GibbsDP.nu0 := 4; GibbsDP.tau0 := 1;
     GibbsDP.mu0 := Vec2 0 0; GibbsDP.pdS0 := [1; 0; 0; 1];
     GibbsDP.pinUpdate := 0; GibbsDP.burn_in := 0; GibbsDP.nth := 1;
     GibbsDP.pred := 1; GibbsDP.a0 := 1; GibbsDP.b0 := 1;
     GibbsDP.survey := 0; GibbsDP.s_samp := 0; GibbsDP.sur_W := [];
     GibbsDP.x1 := 0; GibbsDP.x1_samp := 0; GibbsDP.x1_W1 := [];
     GibbsDP.x0 := 0; GibbsDP.x0_samp := 0; GibbsDP.x0_W2 := [] |}.

(** two units with margins only: [(X, Y) = (0, 1/2)] and [(1/2, 0)] *)
Definition args2 : GibbsDP.args :=
  {| GibbsDP.n_gen := 1; GibbsDP.link := 1;
     GibbsDP.pdX := [0; 1 # 2; 1 # 2; 0];
     GibbsDP.n_samp := 2; GibbsDP.nu0 := 4; GibbsDP.tau0 := 1;
     GibbsDP.mu0 := Vec2 0 0; GibbsDP.pdS0 := [1; 0; 0; 1];
     GibbsDP.pinUpdate := 0; GibbsDP.burn_in := 0; GibbsDP.nth := 1;
     GibbsDP.pred := 0; GibbsDP.a0 := 1; GibbsDP.b0 := 1;
     GibbsDP.survey := 0; GibbsDP.s_samp := 0; GibbsDP.sur_W := [];
     GibbsDP.x1 := 0; GibbsDP.x1_samp := 0; GibbsDP.x1_W1 := [];
     GibbsDP.x0 := 0; GibbsDP.x0_samp := 0; GibbsDP.x0_W2 := [] |}.

(** output buffers of [n] cells each, filled with zeros *)
Definition store0 (n : nat) : GibbsDP.store :=
  {| GibbsDP.pdSMu0 := replicate n 0; GibbsDP.pdSMu1 := replicate n 0;
     GibbsDP.pdSSig00 := replicate n 0; GibbsDP.pdSSig01 := replicate n 0;
     GibbsDP.pdSSig11 := replicate n 0; GibbsDP.pdSW1 := replicate n 0;
     GibbsDP.pdSW2 := replicate n 0; GibbsDP.pdSWt1 := replicate n 0;
     GibbsDP.pdSWt2 := replicate n 0; GibbsDP.pdY := replicate n 0;
     GibbsDP.pdSa := replicate n 0; GibbsDP.pdSn := replicate n 0%Z;
     GibbsDP.itempA := 0; GibbsDP.itempS := 0; GibbsDP.itempC := 0 |}.

(** the states of the five units and of the two units when the main loop
    starts, and the state of the five units after [n] turns *)
Definition chain5 : GibbsDP.chain :=
  from_option fst (GibbsDP.Build_chain [] [] [] [] [] [] 0 [] [])
    (GibbsDP.init_chain (args5 0) 0%nat).

(** the state of the five units after the loop of the urn in the first
    turn, with [alpha = 1] *)
Definition chain5_swept : GibbsDP.chain :=
  from_option fst chain5 (GibbsDP.sweep (args5 0) 1 chain5 0%nat).

Definition chain2 : GibbsDP.chain :=
  from_option fst (GibbsDP.Build_chain [] [] [] [] [] [] 0 [] [])
    (GibbsDP.init_chain args2 0%nat).

Definition run5 (upd : Z) (n : nat) : option (GibbsDP.state * nat) :=
  GibbsDP.run (args5 upd) n (store0 4) 0%nat.

End Demo.
(** * Properties *)

(** ** Doubles, vectors and matrices *)

Lemma Qltb_lt (a b : Q) : Qltb a b = true <-> a < b.
Proof.
  unfold Qltb. rewrite negb_true_iff. split; intros H.
  - destruct (Qlt_le_dec a b) as [Hl|Hl]; [exact Hl|].
    apply Qle_bool_iff in Hl. congruence.
  - destruct (Qle_bool b a) eqn:E; [|reflexivity].
    apply Qle_bool_iff in E. lra.
Qed.

Lemma Qltb_ge (a b : Q) : Qltb a b = false <-> b <= a.
Proof.
  unfold Qltb. rewrite negb_false_iff. apply Qle_bool_iff.
Qed.

Lemma fmax2_spec (x y : Q) : fmax2 x y == Qmax x y.
Proof.
  unfold fmax2. destruct (Qltb x y) eqn:E.
  - apply Qltb_lt in E. symmetry. apply Q.max_r. lra.
  - apply Qltb_ge in E. symmetry. apply Q.max_l. lra.
Qed.

Lemma fmin2_spec (x y : Q) : fmin2 x y == Qmin x y.
Proof.
  unfold fmin2. destruct (Qltb x y) eqn:E.
  - apply Qltb_lt in E. symmetry. apply Q.min_l. lra.
  - apply Qltb_ge in E. symmetry. apply Q.min_r. lra.
Qed.

Lemma fmax2_cases (x y : Q) :
  (x < y /\ fmax2 x y = y) \/ (y <= x /\ fmax2 x y = x).
Proof.
  unfold fmax2. destruct (Qltb x y) eqn:E.
  - left. split; [by apply Qltb_lt|done].
  - right. split; [by apply Qltb_ge|done].
Qed.

Lemma fmin2_cases (x y : Q) :
  (x < y /\ fmin2 x y = x) \/ (y <= x /\ fmin2 x y = y).
Proof.
  unfold fmin2. destruct (Qltb x y) eqn:E.
  - left. split; [by apply Qltb_lt|done].
  - right. split; [by apply Qltb_ge|done].
Qed.

Lemma ftrunc_nonneg_bounds (x : Q) :
  0 <= x -> inject_Z (ftrunc x) <= x /\ x < inject_Z (ftrunc x) + 1.
Proof.
  destruct x as [n d]. unfold ftrunc, Qle, Qlt, inject_Z. simpl.
  intros Hn. rewrite Z.mul_1_r in Hn.
  rewrite Z.quot_div_nonneg by lia.
  pose proof (Z.mul_div_le n (Zpos d) ltac:(lia)).
  pose proof (Z.mul_succ_div_gt n (Zpos d) ltac:(lia)).
  split; lia.
Qed.

Lemma vbuild_vget (v : vec2) : vbuild (vget v) = v.
Proof. by destruct v. Qed.

Lemma mbuild_mget (m : mat2) : mbuild (mget m) = m.
Proof. by destruct m. Qed.

(** ** The bounds of a unit *)

Lemma tomo_of_minW1 (x : vec2) :
  GibbsDP.minW1 (GibbsDP.tomo_of x) = fmax2 0 ((v0 x + v1 x - 1) / v0 x).
Proof.
  unfold GibbsDP.tomo_of. by destruct (Qltb _ _).
Qed.

Lemma tomo_of_maxW1 (x : vec2) :
  GibbsDP.maxW1 (GibbsDP.tomo_of x) = fmin2 1 (v1 x / v0 x).
Proof.
  unfold GibbsDP.tomo_of. by destruct (Qltb _ _).
Qed.

(** a lower bound that [setBounds] replaces by 0, and an upper bound that
    it replaces by 1 *)
Lemma snap_low (r r' : Q) :
  r == r' ->
  let b := if Qltb r (1 # 10000) then 0 else r in
  b <= Qmax 0 r' /\ (~ (0 < r' < 1 # 10000) -> b == Qmax 0 r').
Proof.
  intros Hr. simpl. destruct (Qltb r (1 # 10000)) eqn:E.
  - apply Qltb_lt in E. split; [apply Q.le_max_l|].
    intros Hn. symmetry. apply Q.max_l. lra.
  - apply Qltb_ge in E.
    assert (Qmax 0 r' == r') by (apply Q.max_r; lra). split; intros; lra.
Qed.

Lemma snap_high (r r' : Q) :
  r == r' ->
  let b := if Qltb (9999 # 10000) r then 1 else r in
  Qmin 1 r' <= b /\ (~ (9999 # 10000 < r' < 1) -> b == Qmin 1 r').
Proof.
  intros Hr. simpl. destruct (Qltb (9999 # 10000) r) eqn:E.
  - apply Qltb_lt in E. split; [apply Q.le_min_l|].
    intros Hn. symmetry. apply Q.min_l. lra.
  - apply Qltb_ge in E.
    assert (Qmin 1 r' == r') by (apply Q.min_r; lra). split; intros; lra.
Qed.

(** a raw bound in the window of tolerance is replaced *)
Lemma snap_low_in (r r' : Q) :
  r == r' -> r' < 1 # 10000 ->
  (if Qltb r (1 # 10000) then 0 else r) == 0.
Proof.
  intros Hr Hlt. destruct (Qltb r (1 # 10000)) eqn:E; [reflexivity|].
  apply Qltb_ge in E. lra.
Qed.

Lemma snap_high_in (r r' : Q) :
  r == r' -> 9999 # 10000 < r' ->
  (if Qltb (9999 # 10000) r then 1 else r) == 1.
Proof.
  intros Hr Hlt. destruct (Qltb (9999 # 10000) r) eqn:E; [reflexivity|].
  apply Qltb_ge in E. lra.
Qed.

Section Bounds.
Variables X Y : Q.
Hypothesis HX : 0 < X < 1.
Hypothesis HY : 0 <= Y <= 1.

Lemma raw_bounds_W1 :
  (X + Y - 1) / X <= 1 /\ 0 <= Y / X /\ (X + Y - 1) / X <= Y / X.
Proof using HX HY.
  repeat split.
  - apply Qle_shift_div_r; lra.
  - apply Qle_shift_div_l; lra.
  - apply Qle_shift_div_r; [lra|].
    assert (E : Y / X * X == Y) by (field; lra). rewrite E. lra.
Qed.

Lemma raw_bounds_W2 :
  (Y - X) / (1 - X) <= 1 /\ 0 <= Y / (1 - X) /\ (Y - X) / (1 - X) <= Y / (1 - X).
Proof using HX HY.
  repeat split.
  - apply Qle_shift_div_r; lra.
  - apply Qle_shift_div_l; lra.
  - apply Qle_shift_div_r; [lra|].
    assert (E : Y / (1 - X) * (1 - X) == Y) by (field; lra). rewrite E. lra.
Qed.

Lemma W1_interval_nonempty : Qmax 0 ((X + Y - 1) / X) <= Qmin 1 (Y / X).
Proof using HX HY.
  destruct raw_bounds_W1 as (H1 & H2 & H3).
  apply Q.max_lub; apply Q.min_glb; lra.
Qed.

End Bounds.

(** C9 (as amended).  For a unit with [X] in (0,1) and [Y] strictly
    between 0 and 1, the grid construction of [cDPeco] gives exactly the
    interval [max(0, (X+Y-1)/X), min(1, Y/X)] for [W1], and it is not
    empty; a unit with [Y] equal to 0 or 1 fails the guard of that loop,
    and no bounds are computed for it.  For [Y] in [0,1], [setBounds]
    gives an interval that is not empty and contains that one: a lower
    bound [(X+Y-1)/X] below 0.0001 is replaced by 0 and an upper bound
    [Y/X] above 0.9999 by 1, so it is that interval unless [(X+Y-1)/X]
    lies strictly between 0 and 0.0001 or [Y/X] strictly between 0.9999
    and 1.  Its bounds for [W2] are the values the accounting identity
    gives at [W1 = 1] and [W1 = 0], with the same replacement. *)
Theorem feasible_interval (X Y : Q) :
  0 < X < 1 -> 0 <= Y <= 1 ->
  let g := GibbsDP.tomo_of (Vec2 X Y) in
  let B := Fintegrate.setBounds_Wbounds X Y in
  let lo1 := Qmax 0 ((X + Y - 1) / X) in
  let hi1 := Qmin 1 (Y / X) in
  let lo2 := Qmax 0 ((Y - X * 1) / (1 - X)) in
  let hi2 := Qmin 1 ((Y - X * 0) / (1 - X)) in
  ((0 < Y < 1 ->
    GibbsDP.on_tomo_line (Vec2 X Y) = true
    /\ GibbsDP.minW1 g == lo1 /\ GibbsDP.maxW1 g == hi1
    /\ GibbsDP.minW1 g <= GibbsDP.maxW1 g)
   /\ (Y == 0 \/ Y == 1 -> GibbsDP.on_tomo_line (Vec2 X Y) = false))
  /\ (m00 B <= lo1 /\ hi1 <= m01 B /\ m00 B <= m01 B
      /\ (~ (0 < (X + Y - 1) / X < 1 # 10000) -> m00 B == lo1)
      /\ (~ (9999 # 10000 < Y / X < 1) -> m01 B == hi1)
      /\ ((X + Y - 1) / X < 1 # 10000 -> m00 B == 0)
      /\ (9999 # 10000 < Y / X -> m01 B == 1))
  /\ (m10 B <= lo2 /\ hi2 <= m11 B /\ m10 B <= m11 B
      /\ (~ (0 < (Y - X * 1) / (1 - X) < 1 # 10000) -> m10 B == lo2)
      /\ (~ (9999 # 10000 < (Y - X * 0) / (1 - X) < 1) -> m11 B == hi2)
      /\ ((Y - X * 1) / (1 - X) < 1 # 10000 -> m10 B == 0)
      /\ (9999 # 10000 < (Y - X * 0) / (1 - X) -> m11 B == 1)).
Proof.
  intros HX HY g B lo1 hi1 lo2 hi2.
  pose proof (W1_interval_nonempty X Y HX HY) as Hne1.
  assert (Hne2 : lo2 <= hi2).
  { destruct (raw_bounds_W2 X Y HX HY) as (H1 & H2 & H3). unfold lo2, hi2.
    assert (E1 : (Y - X * 1) / (1 - X) == (Y - X) / (1 - X)) by (field; lra).
    assert (E2 : (Y - X * 0) / (1 - X) == Y / (1 - X)) by (field; lra).
    rewrite E1, E2. apply Q.max_lub; apply Q.min_glb; lra. }
  assert (R1 : (Y - (1 - X) * 1) / X == (X + Y - 1) / X) by (field; lra).
  assert (R2 : (Y - (1 - X) * 0) / X == Y / X) by (field; lra).
  assert (R3 : Y / (1 - X) - X * 1 / (1 - X) == (Y - X * 1) / (1 - X))
    by (field; lra).
  assert (R4 : Y / (1 - X) - X * 0 / (1 - X) == (Y - X * 0) / (1 - X))
    by (field; lra).
  split; [|split].
  - split.
    + intros HY'. split.
      * unfold GibbsDP.on_tomo_line. cbn [v1].
        destruct (Qeq_bool Y 0) eqn:E0; [apply Qeq_bool_iff in E0; lra|].
        destruct (Qeq_bool Y 1) eqn:E1; [apply Qeq_bool_iff in E1; lra|].
        reflexivity.
      * subst g. rewrite tomo_of_minW1, tomo_of_maxW1. simpl.
        rewrite fmax2_spec, fmin2_spec. fold lo1 hi1. done.
    + intros HY'. unfold GibbsDP.on_tomo_line. cbn [v1].
      destruct HY' as [E|E]; apply Qeq_bool_iff in E; rewrite E;
        [reflexivity|apply andb_false_r].
  - destruct (snap_low _ _ R1) as [L1 L2].
    destruct (snap_high _ _ R2) as [U1 U2].
    pose proof (snap_low_in _ _ R1) as L3.
    pose proof (snap_high_in _ _ R2) as U3.
    subst B. unfold Fintegrate.setBounds_Wbounds. simpl.
    fold lo1 in L1, L2. fold hi1 in U1, U2.
    repeat split; try done.
    apply (Qle_trans _ lo1); [done|]. by apply (Qle_trans _ hi1).
  - destruct (snap_low _ _ R3) as [L1 L2].
    destruct (snap_high _ _ R4) as [U1 U2].
    pose proof (snap_low_in _ _ R3) as L3.
    pose proof (snap_high_in _ _ R4) as U3.
    subst B. unfold Fintegrate.setBounds_Wbounds. simpl.
    fold lo2 in L1, L2. fold hi2 in U1, U2.
    repeat split; try done.
    apply (Qle_trans _ lo2); [done|]. by apply (Qle_trans _ hi2).
Qed.

Lemma feasible_interval_witness :
  (let X := 3 # 7 in
   let Y := 1 # 2 in
   GibbsDP.on_tomo_line (Vec2 X Y) = true
   /\ GibbsDP.minW1 (GibbsDP.tomo_of (Vec2 X Y)) == 0
   /\ GibbsDP.maxW1 (GibbsDP.tomo_of (Vec2 X Y)) == 1
   /\ m10 (Fintegrate.setBounds_Wbounds X Y) <= m11 (Fintegrate.setBounds_Wbounds X Y))
  /\ (let X := 1 # 2 in
      let Y := 500025 # 1000000 in
      m00 (Fintegrate.setBounds_Wbounds X Y) == 0
      /\ m01 (Fintegrate.setBounds_Wbounds X Y) == 1)
  /\ GibbsDP.on_tomo_line (Vec2 (1 # 2) 0) = false.
Proof.
  split; [|split].
  - intros X Y.
    assert (HX : 0 < X < 1) by (unfold X; lra).
    assert (HY : 0 <= Y <= 1) by (unfold Y; lra).
    destruct (feasible_interval X Y HX HY)
      as ((Hg & _) & _ & (_ & _ & H3 & _)).
    destruct Hg as (H0 & H1 & H2 & _); [unfold Y; lra|].
    split; [exact H0|]. split; [|split].
    + rewrite H1. reflexivity.
    + rewrite H2. reflexivity.
    + exact H3.
  - intros X Y.
    assert (HX : 0 < X < 1) by (unfold X; lra).
    assert (HY : 0 <= Y <= 1) by (unfold Y; lra).
    destruct (feasible_interval X Y HX HY)
      as (_ & (_ & _ & _ & _ & _ & H6 & H7) & _).
    split; [apply H6|apply H7]; reflexivity.
  - assert (HX : 0 < 1 # 2 < 1) by lra.
    assert (HY : 0 <= 0 <= 1) by lra.
    destruct (feasible_interval (1 # 2) 0 HX HY) as ((_ & Hs) & _).
    apply Hs. left. reflexivity.
Defined.

(** C9, as the specification has it, fails for [setBounds]: at [X = 1/2]
    and [Y = 0.500025] the lower bound [(X+Y-1)/X] is 0.00005, and
    [setBounds] stores 0. *)
Lemma setBounds_not_exact :
  let X := 1 # 2 in
  let Y := 500025 # 1000000 in
  0 < X < 1 /\ 0 <= Y <= 1
  /\ ~ (m00 (Fintegrate.setBounds_Wbounds X Y) == Qmax 0 ((X + Y - 1) / X)).
Proof.
  simpl. repeat split; try lra.
  vm_compute. discriminate.
Qed.

(** ** The integrator *)

Section IntegratorFacts.
Import Fintegrate.
Context {RM : Rmath} {EL : EcoLib} {QL : QuadLib}.

(** C3 (as amended).  [paramIntegration] always returns the estimate of
    the quadrature.  With the status [ier] zero it prints nothing of its
    own.  With a non-zero status it prints one diagnostic that carries the
    status, the tag and the margins of the unit, the bounds of [W1], the
    estimate and its error, then reads the standard input once (a wait for
    the user), and returns the estimate all the same. *)
Theorem paramIntegration_returns (f : integr_fn) (ex : Param) :
  let o := Rdqags f ex (1 # 100000) (99999 # 100000)
             (1 # 1000000000) (1 # 1000000000) 100 in
  let r := paramIntegration f ex in
  fst r = q_result o
  /\ ((q_ier o = 0)%Z -> snd r = q_events o)
  /\ ((q_ier o <> 0)%Z ->
      snd r = q_events o ++
        [IntegrationError (q_ier o) (suff (caseP ex)) (X (caseP ex))
           (Y (caseP ex)) (m00 (Wbounds (caseP ex))) (m01 (Wbounds (caseP ex)))
           (q_result o) (q_abserr o);
         ScanfHitEnter]).
Proof.
  intros o r. subst r. unfold paramIntegration. fold o.
  destruct (Z.eqb_spec (q_ier o) 0) as [E|E]; simpl.
  - split; [done|]. split; [done|]. intros Hn. by destruct Hn.
  - split; [done|]. split; [|done]. intros Hz. by destruct E.
Qed.

(** C4 (as amended).  With a tag that is none of -1, 0, ..., 7, [SuffExp]
    prints the diagnostic at every feasible node and leaves there the plain
    density times the arc length factor, which is the value of the tag -1;
    at a node that is not feasible it leaves zero and prints nothing. *)
Theorem SuffExp_unrecognized_tag (pp : Param) (t : Q) :
  (suff (caseP pp) < -1 \/ 7 < suff (caseP pp))%Z ->
  let W1 := fst (getW1starFromT t pp) in
  let W2 := fst (getW2starFromT t pp) in
  let W1p := getW1starPrimeFromT t pp in
  let W2p := getW2starPrimeFromT t pp in
  let vtemp := <[1%nat := W2]> (<[0%nat := W1]> (doubleArray (SuffExp_dim pp))) in
  SuffExp_node pp t =
    if node_feasible pp t
    then (dBVNtomo vtemp pp false (normcT (caseP pp))
          * sqrt (W1p * W1p + W2p * W2p), [ErrorSuff (suff (caseP pp))])
    else (0, []).
Proof.
  intros Hsf. unfold SuffExp_node, node_feasible. simpl.
  destruct (getW1starFromT t pp) as [w1 [|]]; simpl; [done|].
  destruct (getW2starFromT t pp) as [w2 [|]]; simpl; [done|].
  repeat (match goal with
          | |- context [(?x =? ?y)%Z] => destruct (Z.eqb_spec x y); [lia|]
          end).
  done.
Qed.

End IntegratorFacts.

Lemma SuffExp_unrecognized_tag_witness :
  Fintegrate.SuffExp_node (Demo.param 8) (1 # 2)
  = (fst (Fintegrate.SuffExp_node (Demo.param (-1)) (1 # 2)),
     [Fintegrate.ErrorSuff 8]).
Proof.
  rewrite (SuffExp_unrecognized_tag (Demo.param 8) (1 # 2)).
  - vm_compute. reflexivity.
  - simpl. lia.
Defined.

(** C3, as the specification has it, fails: with a non-zero status the
    function waits on the standard input before it returns. *)
Lemma paramIntegration_waits :
  let r := Fintegrate.paramIntegration Fintegrate.SuffExp (Demo.param 0) in
  existsb Fintegrate.waits (snd r) = true.
Proof. vm_compute. reflexivity. Qed.

(** C4, as the specification has it, fails: with the tag 8 the value at
    the node 1/2 is not zero. *)
Lemma SuffExp_unrecognized_tag_not_zero :
  (7 < Fintegrate.suff (Fintegrate.caseP (Demo.param 8)))%Z
  /\ ~ (fst (Fintegrate.SuffExp_node (Demo.param 8) (1 # 2)) == 0).
Proof.
  split; [simpl; lia|]. vm_compute. discriminate.
Qed.

(** ** Tomography lines *)

Section Grid.
Import GibbsDP.

Lemma grid_step_val : grid_step == 1 # 1000.
Proof. reflexivity. Qed.

Lemma tomo_of_n_grid_ge2 (x : vec2) : (2 <= n_grid (tomo_of x))%nat.
Proof.
  unfold tomo_of.
  set (mn := fmax2 0 _). set (mx := fmin2 1 _).
  destruct (Qltb (2 * grid_step) (mx - mn)) eqn:E; simpl; [|lia].
  apply Qltb_lt in E. rewrite grid_step_val in E.
  set (w := (mx - mn) * inject_Z (Z.of_nat n_step)).
  assert (Hw : 2 < w).
  { unfold w. change (inject_Z (Z.of_nat n_step)) with 1000. lra. }
  destruct (ftrunc_nonneg_bounds w) as [_ Hu]; [lra|].
  assert (Hz : (1 < ftrunc w)%Z).
  { apply Z.lt_nge. intros Hle.
    assert (inject_Z (ftrunc w) <= 1).
    { change 1 with (inject_Z 1). rewrite <- Zle_Qle. lia. }
    lra. }
  lia.
Qed.

Lemma tomo_of_n_grid_le (x : vec2) : (n_grid (tomo_of x) <= n_step)%nat.
Proof.
  unfold tomo_of.
  set (mn := fmax2 0 _). set (mx := fmin2 1 _).
  assert (Hmn : 0 <= mn).
  { unfold mn. destruct (fmax2_cases 0 ((v0 x + v1 x - 1) / v0 x))
      as [[H ->]|[H ->]]; lra. }
  assert (Hmx : mx <= 1).
  { unfold mx. destruct (fmin2_cases 1 (v1 x / v0 x)) as [[H ->]|[H ->]]; lra. }
  destruct (Qltb (2 * grid_step) (mx - mn)) eqn:E; simpl;
    [|unfold n_step; lia].
  apply Qltb_lt in E. rewrite grid_step_val in E.
  set (w := (mx - mn) * inject_Z (Z.of_nat n_step)).
  assert (Hw : 0 <= w <= 1000).
  { unfold w. change (inject_Z (Z.of_nat n_step)) with 1000. lra. }
  destruct (ftrunc_nonneg_bounds w) as [Hl _]; [lra|].
  assert (Hz : (ftrunc w <= 1000)%Z).
  { rewrite Zle_Qle. change (inject_Z 1000) with 1000. lra. }
  unfold n_step. lia.
Qed.

Lemma tomo_of_lengths (x : vec2) :
  length (W1g (tomo_of x)) = n_grid (tomo_of x)
  /\ length (W2g (tomo_of x)) = n_grid (tomo_of x).
Proof.
  unfold tomo_of. destruct (Qltb _ _); simpl; [|done].
  by rewrite !length_map, length_seq.
Qed.

(** every grid point has its [W2] from the accounting identity *)
Lemma tomo_of_W2g (x : vec2) (j : nat) :
  (j < n_grid (tomo_of x))%nat ->
  W2g (tomo_of x) !!! j = W2g_point x (W1g (tomo_of x) !!! j).
Proof.
  unfold tomo_of. destruct (Qltb _ _); simpl.
  - set (ng := Z.to_nat _). set (f := W1g_point _ _ _). intros Hj.
    rewrite !list_lookup_total_alt, !list_lookup_fmap.
    rewrite (lookup_seq_lt 0 ng j Hj). done.
  - intros Hj. destruct j as [|[|j]]; [done|done|lia].
Qed.


(** the search on the line stays below [ng] *)
Lemma tomo_search_lt (fuel : nat) (u : Q) (cum : list Q) (ng j : nat) :
  (j < ng)%nat -> (tomo_search fuel u cum ng j < ng)%nat.
Proof.
  revert j. induction fuel as [|fuel IH]; intros j Hj; simpl; [done|].
  destruct (Qltb (cum !!! j) u && (S j <? ng)%nat) eqn:E; [|done].
  apply andb_true_iff in E as [_ E]. apply Nat.ltb_lt in E. by apply IH.
Qed.

Lemma tomo_search_ge (fuel : nat) (u : Q) (cum : list Q) (ng j : nat) :
  (j <= tomo_search fuel u cum ng j)%nat.
Proof.
  revert j. induction fuel as [|fuel IH]; intros j; simpl; [done|].
  destruct (Qltb (cum !!! j) u && (S j <? ng)%nat); [|done].
  specialize (IH (S j)). lia.
Qed.

(** with [ng - j] turns of fuel the loop has left by its own test, at the
    first index where the test fails *)
Lemma tomo_search_exit (fuel : nat) (u : Q) (cum : list Q) (ng j : nat) :
  (ng <= fuel + j)%nat ->
  let k := tomo_search fuel u cum ng j in
  Qltb (cum !!! k) u && (S k <? ng)%nat = false
  /\ (forall m : nat, (j <= m < k)%nat ->
        Qltb (cum !!! m) u && (S m <? ng)%nat = true).
Proof.
  revert j. induction fuel as [|fuel IH]; intros j Hf; simpl.
  - split; [|intros; lia].
    apply andb_false_iff. right. apply Nat.ltb_ge. lia.
  - destruct (Qltb (cum !!! j) u && (S j <? ng)%nat) eqn:E.
    + destruct (IH (S j) ltac:(lia)) as [H1 H2]. split; [done|].
      intros m Hm. destruct (decide (m = j)) as [->|Hne]; [done|].
      apply H2. lia.
    + split; [done|]. intros; lia.
Qed.

End Grid.

(** ** Running sums and the two searches *)

Section Cumulate.
Import GibbsDP.

Lemma cumulate_length (ps : list Q) (d : Q) :
  length (fst (cumulate ps d)) = length ps.
Proof.
  revert d. induction ps as [|p ps IH]; intros d; simpl; [done|].
  specialize (IH (d + p)). destruct (cumulate ps (d + p)). simpl in *. lia.
Qed.

Lemma cumulate_total (ps : list Q) (d : Q) :
  snd (cumulate ps d) == d + Qsum ps.
Proof.
  revert d. induction ps as [|p ps IH]; intros d; simpl; [lra|].
  specialize (IH (d + p)). destruct (cumulate ps (d + p)). simpl in *. lra.
Qed.

(** the cell [k] of the running sums *)
Lemma cumulate_lookup (ps : list Q) (d : Q) (k : nat) :
  (k < length ps)%nat ->
  exists v : Q, fst (cumulate ps d) !! k = Some v
                /\ v == d + Qsum (take (S k) ps).
Proof.
  revert d k. induction ps as [|p ps IH]; intros d k Hk; simpl in *; [lia|].
  destruct (cumulate ps (d + p)) as [cum tot] eqn:E. simpl.
  destruct k as [|k].
  - exists (d + p). split; [done|]. rewrite take_0. simpl. lra.
  - destruct (IH (d + p) k ltac:(lia)) as (v & Hv & Hs).
    rewrite E in Hv. simpl in Hv. exists v. split; [done|].
    rewrite Hs. simpl. lra.
Qed.

(** the last running sum is the total *)
Lemma cumulate_last (ps : list Q) (d : Q) :
  ps <> [] ->
  fst (cumulate ps d) !! (length ps - 1)%nat = Some (snd (cumulate ps d)).
Proof.
  revert d. induction ps as [|p ps IH]; intros d Hne; [done|]. simpl.
  destruct (cumulate ps (d + p)) as [cum tot] eqn:E. simpl.
  destruct ps as [|p' ps'].
  - simpl in E. by inversion E.
  - specialize (IH (d + p) ltac:(done)). rewrite E in IH. simpl in *.
    by rewrite Nat.sub_0_r in IH.
Qed.

Lemma Qsum_pos (ps : list Q) :
  ps <> [] -> Forall (fun p => 0 < p) ps -> 0 < Qsum ps.
Proof.
  intros Hne Hp. destruct ps as [|p ps]; [done|].
  inversion Hp as [|? ? Hp1 Hp2]; subst. simpl.
  assert (0 <= Qsum ps).
  { clear -Hp2. induction Hp2; simpl; lra. }
  lra.
Qed.

Lemma standardize_length (cp : list Q * Q) :
  length (standardize cp) = length (fst cp).
Proof. unfold standardize. by rewrite length_map. Qed.

Lemma standardize_lookup (cp : list Q * Q) (k : nat) :
  standardize cp !! k = (fun c => c / snd cp) <$> (fst cp !! k).
Proof. unfold standardize. by rewrite list_lookup_fmap. Qed.

(** the search of the urn: where it stops, the test has failed for the
    first time *)
Lemma urn_search_Some (u : Q) (qq : list Q) (j0 j : nat) :
  urn_search u qq j0 = Some j ->
  (j0 <= j < j0 + length qq)%nat
  /\ (exists c : Q, qq !! (j - j0)%nat = Some c /\ ~ c < u)
  /\ (forall (m : nat) (c : Q), (m < j - j0)%nat -> qq !! m = Some c -> c < u).
Proof.
  revert j0. induction qq as [|c qq IH]; intros j0 H; simpl in *; [done|].
  destruct (Qltb c u) eqn:E.
  - apply IH in H as (H1 & (c' & H2 & H3) & H4).
    split; [lia|]. split.
    + exists c'. split; [|done].
      replace (j - j0)%nat with (S (j - S j0)) by lia. done.
    + intros m d Hm Hd. destruct m as [|m].
      * simpl in Hd. inversion Hd; subst. by apply Qltb_lt.
      * simpl in Hd. apply (H4 m); [lia|done].
  - inversion H; subst. split; [lia|]. split.
    + exists c. rewrite Nat.sub_diag. split; [done|].
      apply Qltb_ge in E. lra.
    + intros; lia.
Qed.

(** the search ends inside the array when some cell fails the test *)
Lemma urn_search_total (u : Q) (qq : list Q) (j0 k : nat) (c : Q) :
  qq !! k = Some c -> ~ c < u ->
  exists j : nat, urn_search u qq j0 = Some j.
Proof.
  revert j0 k. induction qq as [|d qq IH]; intros j0 k Hk Hc; [done|].
  simpl. destruct (Qltb d u) eqn:E; [|by eexists].
  destruct k as [|k].
  - simpl in Hk. inversion Hk; subst. apply Qltb_lt in E. done.
  - simpl in Hk. by apply (IH (S j0) k).
Qed.

End Cumulate.

(** ** The draw on a tomography line *)

Section LatentPairs.
Import GibbsDP.
Context {RM : Rmath} {RR : Rrand} {EL : EcoLib}.
Variable a : args.

(** the draw on the line always returns, with one more uniform draw read,
    and sets [W[i]] to the grid point of the index found *)
Lemma draw_W_result (c : chain) (i : nat) (r : rng) :
  let g := tomo_of (X a !!! i) in
  let j := tomo_index a g c i (fst (unif_rand r)) in
  exists c' : chain,
    draw_W a c i r = Some (c', snd (unif_rand r))
    /\ W c' = <[i := Vec2 (W1g g !!! j) (W2g g !!! j)]> (W c)
    /\ Wstar c' = Wstar c /\ mu c' = mu c /\ Sigma c' = Sigma c
    /\ InvSigma c' = InvSigma c /\ C c' = C c /\ nstar c' = nstar c.
Proof using Type.
  intros g j. unfold draw_W, bind, draw, ret.
  destruct (unif_rand r) as [u r'] eqn:E. simpl in *.
  eexists. split; [reflexivity|]. simpl. by repeat split.
Qed.

Lemma tomo_index_lt (g : tomo) (c : chain) (i : nat) (u : Q) :
  (0 < n_grid g)%nat -> (tomo_index a g c i u < n_grid g)%nat.
Proof using Type. intros Hg. unfold tomo_index. by apply tomo_search_lt. Qed.

End LatentPairs.


(** ** The two selection loops *)

Section Selection.
Import GibbsDP.
Context {RM : Rmath} {RR : Rrand} {EL : EcoLib}.
Variable a : args.

Lemma urn_q_length (al : Q) (c : chain) (i : nat) :
  length (urn_q a al c i) = t_samp a.
Proof using Type. unfold urn_q. by rewrite length_map, length_seq. Qed.

Lemma urn_q_lookup (al : Q) (c : chain) (i k : nat) :
  (k < t_samp a)%nat -> urn_q a al c i !! k = Some (urn_weight a al c i k).
Proof using Type.
  intros Hk. unfold urn_q. rewrite list_lookup_fmap.
  by rewrite (lookup_seq_lt 0 (t_samp a) k Hk).
Qed.

Lemma urn_qq_length (al : Q) (c : chain) (i : nat) :
  length (urn_qq a al c i) = t_samp a.
Proof using Type.
  unfold urn_qq. by rewrite standardize_length, cumulate_length, urn_q_length.
Qed.

Hypothesis dMVN_pos :
  forall (y m : list Q) (Si : list (list Q)) (d : nat), 0 < dMVN y m Si d false.
Hypothesis dMVT_pos :
  forall (y m : list Q) (Si : list (list Q)) (nu : Z) (d : nat),
    0 < dMVT y m Si nu d false.

Lemma urn_q_pos (al : Q) (c : chain) (i : nat) :
  0 < al -> Forall (fun p => 0 < p) (urn_q a al c i).
Proof using dMVN_pos dMVT_pos.
  intros Hal. unfold urn_q. apply Forall_fmap, Forall_forall. intros k _.
  unfold compose, urn_weight. destruct (negb (k =? i)%nat); [apply dMVN_pos|].
  apply Qmult_lt_0_compat; [done|apply dMVT_pos].
Qed.

(** the last cell of [qq] is one *)
Lemma urn_qq_last (al : Q) (c : chain) (i : nat) :
  0 < al -> (0 < t_samp a)%nat ->
  exists v : Q, urn_qq a al c i !! (t_samp a - 1)%nat = Some v /\ v == 1.
Proof using dMVN_pos dMVT_pos.
  intros Hal Ht. unfold urn_qq.
  assert (Hne : urn_q a al c i <> []).
  { intros E. pose proof (urn_q_length al c i) as Hl.
    rewrite E in Hl. simpl in Hl. lia. }
  pose proof (cumulate_last (urn_q a al c i) 0 Hne) as Hlast.
  rewrite urn_q_length in Hlast.
  set (q := urn_q a al c i) in *.
  exists (snd (cumulate q 0) / snd (cumulate q 0)). split.
  - by rewrite standardize_lookup, Hlast.
  - pose proof (cumulate_total q 0) as Htot.
    pose proof (Qsum_pos q Hne (urn_q_pos al c i Hal)) as Hpos.
    field. lra.
Qed.

(** C10.  Both selection loops of [cDPeco] leave by their own test at an
    index inside the array.  On a tomography line the index is below
    [n_grid[i]], whatever the draw.  In the urn, with positive densities, a
    positive [alpha] and a draw below one, the last cell of [qq] is one and
    the index is below [t_samp]. *)
Theorem selection_in_bounds (al : Q) (c : chain) (i k : nat) (u : Q) :
  0 < al -> u < 1 -> (k < t_samp a)%nat ->
  let g := tomo_of (X a !!! i) in
  let cum := standardize (cumulate (tomo_probs a g c i) 0) in
  let j := tomo_index a g c i u in
  ((j < n_grid g)%nat
   /\ Qltb (cum !!! j) u && (S j <? n_grid g)%nat = false)
  /\ (exists v : Q, urn_qq a al c k !! (t_samp a - 1)%nat = Some v /\ v == 1)
  /\ (exists j' : nat,
        urn_search u (urn_qq a al c k) 0 = Some j' /\ (j' < t_samp a)%nat).
Proof using dMVN_pos dMVT_pos.
  intros Hal Hu Hk g cum j. split; [|split].
  - split.
    + apply tomo_index_lt. pose proof (tomo_of_n_grid_ge2 (X a !!! i)).
      fold g in H. lia.
    + subst j. unfold tomo_index. fold cum.
      apply (tomo_search_exit (n_grid g) u cum (n_grid g) 0). lia.
  - apply urn_qq_last; [done|lia].
  - destruct (urn_qq_last al c k Hal ltac:(lia)) as (v & Hv & Hv1).
    destruct (urn_search_total u (urn_qq a al c k) 0 _ v Hv ltac:(lra))
      as [j' Hj'].
    exists j'. split; [done|].
    apply urn_search_Some in Hj' as [Hj' _].
    rewrite urn_qq_length in Hj'. lia.
Qed.

End Selection.

(** the stand-ins for the densities are positive *)
Lemma demo_dist2_nonneg (y m : list Q) : 0 <= Demo.dist2 y m.
Proof.
  revert m. induction y as [|yk y IH]; intros [|mk m];
    cbn [Demo.dist2]; try lra.
  specialize (IH m). generalize (yk - mk). intros z.
  assert (0 <= z * z) by nra. lra.
Qed.

Lemma demo_dMVN_pos (y m : list Q) (Si : list (list Q)) (d : nat) :
  0 < dMVN y m Si d false.
Proof.
  cbn [dMVN Demo.ecolib]. rewrite Qred_correct.
  pose proof (demo_dist2_nonneg y m). apply Qlt_shift_div_l; lra.
Qed.

Lemma demo_dMVT_pos (y m : list Q) (Si : list (list Q)) (nu : Z) (d : nat) :
  0 < dMVT y m Si nu d false.
Proof.
  cbn [dMVT Demo.ecolib]. rewrite Qred_correct.
  pose proof (demo_dist2_nonneg y m). apply Qlt_shift_div_l; lra.
Qed.

Lemma selection_in_bounds_witness :
  (GibbsDP.tomo_index (Demo.args5 0)
     (GibbsDP.tomo_of (GibbsDP.X (Demo.args5 0) !!! 0%nat)) Demo.chain5 0 (3 # 4)
   < 3)%nat
  /\ exists j' : nat,
       GibbsDP.urn_search (3 # 4) (GibbsDP.urn_qq (Demo.args5 0) 1 Demo.chain5 4) 0
       = Some j' /\ (j' < 5)%nat.
Proof.
  destruct (selection_in_bounds (Demo.args5 0) demo_dMVN_pos demo_dMVT_pos
              1 Demo.chain5 0 4 (3 # 4)) as ((H1 & _) & _ & H2).
  - lra.
  - lra.
  - vm_compute. lia.
  - split; [exact H1|exact H2].
Defined.

(** ** Loops and steps of the sampler *)

Section Loops.
Import GibbsDP.
Context {RM : Rmath} {RR : Rrand} {EL : EcoLib}.

Lemma for_loop_S {St : Type} (n : nat) (body : nat -> St -> St) (s : St) :
  for_loop (S n) body s = body n (for_loop n body s).
Proof. unfold for_loop. by rewrite seq_S, fold_left_app. Qed.

(** what holds before a loop and is kept by every turn holds after it *)
Lemma for_loop_inv {St : Type} (P : St -> Prop) (n : nat)
    (body : nat -> St -> St) (s : St) :
  P s -> (forall (i : nat) (s' : St), (i < n)%nat -> P s' -> P (body i s')) ->
  P (for_loop n body s).
Proof.
  intros H0 Hstep. induction n as [|n IH]; [done|].
  rewrite for_loop_S. apply Hstep; [lia|]. apply IH. intros i s' Hi.
  apply Hstep. lia.
Qed.

Lemma for_loopM_S {St : Type} (n : nat) (body : nat -> St -> M St) (s : St) :
  for_loopM (S n) body s = bind (for_loopM n body s) (body n).
Proof. unfold for_loopM. by rewrite seq_S, fold_left_app. Qed.

Lemma bind_Some {A B : Type} (m : M A) (k : A -> M B) (r r' : rng) (y : B) :
  bind m k r = Some (y, r') ->
  exists (x : A) (r1 : rng), m r = Some (x, r1) /\ k x r1 = Some (y, r').
Proof.
  unfold bind. destruct (m r) as [[x r1]|]; [|done]. intros H. by exists x, r1.
Qed.

Lemma ret_Some {A : Type} (x y : A) (r r' : rng) :
  ret x r = Some (y, r') -> y = x /\ r' = r.
Proof. unfold ret. intros H. by inversion H. Qed.

Lemma draw_Some {A : Type} (f : rng -> A * rng) (y : A) (r r' : rng) :
  draw f r = Some (y, r') -> y = fst (f r) /\ r' = snd (f r).
Proof. unfold draw. intros H. inversion H as [E]. by rewrite E. Qed.

(** the same for a loop with draws, when it returns *)
Lemma for_loopM_inv {St : Type} (P : St -> Prop) (n : nat)
    (body : nat -> St -> M St) (s s' : St) (r r' : rng) :
  P s ->
  (forall (i : nat) (s1 s2 : St) (r1 r2 : rng),
      (i < n)%nat -> P s1 -> body i s1 r1 = Some (s2, r2) -> P s2) ->
  for_loopM n body s r = Some (s', r') -> P s'.
Proof.
  intros H0 Hstep. revert s' r'. induction n as [|n IH]; intros s' r' Hrun.
  - apply ret_Some in Hrun as [-> _]. done.
  - rewrite for_loopM_S in Hrun.
    apply bind_Some in Hrun as (s1 & r1 & Hrun1 & Hrun2).
    apply (Hstep n s1 s' r1 r'); [lia| |done].
    apply (IH ltac:(intros i ? ? ? ? Hi; apply Hstep; lia) s1 r1 Hrun1).
Qed.

(** a loop whose turns all return does return *)
Lemma for_loopM_total {St : Type} (P : St -> Prop) (n : nat)
    (body : nat -> St -> M St) (s : St) (r : rng) :
  P s ->
  (forall (i : nat) (s1 : St) (r1 : rng),
      (i < n)%nat -> P s1 ->
      exists (s2 : St) (r2 : rng), body i s1 r1 = Some (s2, r2) /\ P s2) ->
  exists (s' : St) (r' : rng), for_loopM n body s r = Some (s', r') /\ P s'.
Proof.
  intros H0 Hstep. induction n as [|n IH].
  - by exists s, r.
  - destruct IH as (s1 & r1 & Hrun & HP).
    { intros i s1 r1 Hi. apply Hstep. lia. }
    destruct (Hstep n s1 r1 ltac:(lia) HP) as (s2 & r2 & Hb & HP2).
    exists s2, r2. split; [|done].
    rewrite for_loopM_S. unfold bind. by rewrite Hrun.
Qed.

(** the same with a statement that depends on the number of turns done *)
Lemma for_loopM_inv_idx {St : Type} (P : nat -> St -> Prop) (n : nat)
    (body : nat -> St -> M St) (s s' : St) (r r' : rng) :
  P 0%nat s ->
  (forall (i : nat) (s1 s2 : St) (r1 r2 : rng),
      (i < n)%nat -> P i s1 -> body i s1 r1 = Some (s2, r2) -> P (S i) s2) ->
  for_loopM n body s r = Some (s', r') -> P n s'.
Proof.
  intros H0 Hstep. revert s' r'. induction n as [|n IH]; intros s' r' Hrun.
  - apply ret_Some in Hrun as [-> _]. done.
  - rewrite for_loopM_S in Hrun.
    apply bind_Some in Hrun as (s1 & r1 & Hrun1 & Hrun2).
    apply (Hstep n s1 s' r1 r'); [lia| |done].
    apply (IH ltac:(intros i ? ? ? ? Hi; apply Hstep; lia) s1 r1 Hrun1).
Qed.

End Loops.

(** ** Homogeneous areas *)

Section HomogeneousAreas.
Import GibbsDP.
Context {RM : Rmath} {RR : Rrand} {EL : EcoLib}.
Variable a : args.

(** one turn of the loop for the areas with [X = 0]: the draw goes to the
    cell [Wstar[n_samp+i][0]] and no other cell of [Wstar] changes; [W] of
    the area is computed from [Wstar[n_samp+x1_samp+i][0]] *)
Lemma update_x0_unit_cells (i : nat) (c : chain) (r : rng) :
  exists (c' : chain) (d : Q),
    update_x0_unit a i c r = Some (c', snd (norm_rand r))
    /\ Wstar c' = set_v0 (Wstar c) (n_samp a + i) d
    /\ W c' = set_v0 (W c) (n_samp a + x1_samp a + i)
                (exp (v0 (Wstar c' !!! (n_samp a + x1_samp a + i)%nat))
                 / (1 + exp (v0 (Wstar c' !!! (n_samp a + x1_samp a + i)%nat)))).
Proof using Type.
  unfold update_x0_unit, bind, draw, ret.
  destruct (norm_rand r) as [z r'] eqn:E. simpl.
  eexists _, _. split; [reflexivity|]. simpl. by split.
Qed.

(** with an area of the other kind before it, the slot of the area with
    [X = 0] keeps its [Wstar] *)
Lemma update_x0_unit_own_slot (i : nat) (c : chain) (r : rng) :
  (0 < x1_samp a)%nat ->
  forall (c' : chain) (r' : rng),
    update_x0_unit a i c r = Some (c', r') ->
    Wstar c' !! (n_samp a + x1_samp a + i)%nat
    = Wstar c !! (n_samp a + x1_samp a + i)%nat.
Proof using Type.
  intros Hx c' r' Hrun.
  destruct (update_x0_unit_cells i c r) as (c1 & d & Hrun1 & HWs & _).
  rewrite Hrun1 in Hrun. inversion Hrun; subst.
  rewrite HWs. unfold set_v0. apply list_lookup_insert_ne. lia.
Qed.

End HomogeneousAreas.

(** C6 fails on the code.  With one area of each kind after two units
    ([n_samp = 2], [x1_samp = 1], [x0_samp = 1]), the update of the area with
    [X = 0], whose slot is 3, leaves [Wstar[3][0]] as it was, overwrites
    [Wstar[2][0]], which belongs to the area with [X = 1], and computes
    [W[3][0]] from the old [Wstar[3][0]]. *)
Theorem update_x0_writes_x1_slot :
  let c := Demo.chain5 in
  exists (c' : GibbsDP.chain) (r' : nat),
    GibbsDP.update_x0 (RR := Demo.rrand) (Demo.args5 0) c 0%nat = Some (c', r')
    /\ GibbsDP.Wstar c' !! 3%nat = GibbsDP.Wstar c !! 3%nat
    /\ ~ v0 (GibbsDP.Wstar c' !!! 2%nat) == v0 (GibbsDP.Wstar c !!! 2%nat)
    /\ v0 (GibbsDP.Wstar c' !!! 2%nat) == 1 # 8
    /\ v0 (GibbsDP.W c' !!! 3%nat)
       = exp (v0 (GibbsDP.Wstar c !!! 3%nat))
         / (1 + exp (v0 (GibbsDP.Wstar c !!! 3%nat))).
Proof.
  intros c. eexists _, _. split; [vm_compute; reflexivity|].
  split; [vm_compute; reflexivity|].
  split; [vm_compute; discriminate|].
  split; vm_compute; reflexivity.
Qed.

(** ** Units that are not sampled *)

Section Frames.
Import GibbsDP.
Context {RM : Rmath} {RR : Rrand} {EL : EcoLib}.
Variable a : args.

Lemma set_v0_lookup_ne (l : list vec2) (i k : nat) (x : Q) :
  i <> k -> set_v0 l k x !! i = l !! i.
Proof using Type. intros H. unfold set_v0. by apply list_lookup_insert_ne. Qed.

Lemma set_v1_lookup_ne (l : list vec2) (i k : nat) (x : Q) :
  i <> k -> set_v1 l k x !! i = l !! i.
Proof using Type. intros H. unfold set_v1. by apply list_lookup_insert_ne. Qed.

Lemma set_vk_lookup_ne (l : list vec2) (i k j : nat) (x : Q) :
  i <> k -> set_vk l k j x !! i = l !! i.
Proof using Type.
  intros H. destruct j; simpl; [by apply set_v0_lookup_ne|by apply set_v1_lookup_ne].
Qed.

(** lines 199 to 205 give every unit with margins its first [W] *)
Lemma init_data_lookup (ws : list vec2 * list vec2) (i : nat) :
  (i < n_samp a)%nat -> (i < length (fst ws))%nat ->
  fst (init_data a ws) !! i = Some (init_W_unit (X a !!! i)).
Proof using Type.
  unfold init_data. generalize (n_samp a) as n.
  induction n as [|n IH]; intros Hi Hl; [lia|].
  rewrite for_loop_S.
  assert (Hlen : forall m : nat,
    length (fst (for_loop m
      (fun i '(w, wstar) =>
         (<[i := init_W_unit (X a !!! i)]> w, <[i := Vec2 0 0]> wstar)) ws))
    = length (fst ws)).
  { intros m. apply (for_loop_inv (fun s => length (fst s) = length (fst ws)));
      [done|]. intros k [w wstar] _ Hw. simpl in *. by rewrite length_insert. }
  specialize (Hlen n).
  destruct (for_loop n _ ws) as [w wstar] eqn:E. simpl in *.
  destruct (decide (i = n)) as [->|Hne].
  - apply list_lookup_insert_eq. lia.
  - rewrite list_lookup_insert_ne by done. apply IH; [lia|done].
Qed.

(** the areas and the survey units are stored after the units with
    margins *)
Lemma init_W_lookup (i : nat) :
  (i < n_samp a)%nat -> (i < length (doubleMatrix2 (t_samp a)))%nat ->
  fst (init_W a) !! i = Some (init_W_unit (X a !!! i)).
Proof using Type.
  intros Hi Hl. unfold init_W.
  set (P := fun ws : list vec2 * list vec2 =>
              fst ws !! i = Some (init_W_unit (X a !!! i))).
  assert (H0 : P (init_data a (doubleMatrix2 (t_samp a), doubleMatrix2 (t_samp a))))
    by (by apply init_data_lookup).
  assert (H1 : forall ws, P ws -> P (init_x1 a ws)).
  { intros ws Hws. unfold init_x1. destruct (x1 a =? 1)%Z; [|done].
    apply for_loop_inv; [done|]. intros k [w wstar] _ Hw. unfold P in *.
    simpl in *. rewrite set_v0_lookup_ne by lia. done. }
  assert (H2 : forall ws, P ws -> P (init_x0 a ws)).
  { intros ws Hws. unfold init_x0. destruct (x0 a =? 1)%Z; [|done].
    apply for_loop_inv; [done|]. intros k [w wstar] _ Hw. unfold P in *.
    simpl in *. rewrite set_v1_lookup_ne by lia. done. }
  assert (H3 : forall ws, P ws -> P (init_survey a ws)).
  { intros ws Hws. unfold init_survey. destruct (survey a =? 1)%Z; [|done].
    apply for_loop_inv; [done|]. intros j ws' _ Hws'.
    apply for_loop_inv; [done|]. intros k [w wstar] _ Hw. unfold P in *.
    simpl in *. rewrite set_vk_lookup_ne by lia. done. }
  by apply H3, H2, H1.
Qed.

(** **** What each step of a turn does to [W] *)

Lemma update_W_unit_W (j : nat) (c c' : chain) (r r' : rng) :
  update_W_unit a j c r = Some (c', r') ->
  if on_tomo_line (X a !!! j)
  then r' = snd (unif_rand r) /\ forall i : nat, i <> j -> W c' !! i = W c !! i
  else r' = r /\ W c' = W c.
Proof using Type.
  unfold update_W_unit. intros Hrun.
  apply bind_Some in Hrun as (c1 & r1 & H1 & H2).
  apply ret_Some in H2 as [-> ->]. simpl.
  destruct (on_tomo_line (X a !!! j)).
  - destruct (draw_W_result a c j r) as (c2 & Hd & HW & _).
    rewrite Hd in H1. inversion H1; subst. split; [done|].
    intros i Hi. rewrite HW. by apply list_lookup_insert_ne.
  - apply ret_Some in H1 as [-> ->]. done.
Qed.

Lemma update_W_frame (i : nat) (c c' : chain) (r r' : rng) :
  on_tomo_line (X a !!! i) = false ->
  update_W a c r = Some (c', r') -> W c' !! i = W c !! i.
Proof using Type.
  intros Hoff Hrun. unfold update_W in Hrun.
  apply (for_loopM_inv (fun s => W s !! i = W c !! i) _ _ _ _ _ _ eq_refl)
    in Hrun; [done|].
  intros j s1 s2 r1 r2 _ Hs1 Hstep. apply update_W_unit_W in Hstep.
  destruct (on_tomo_line (X a !!! j)) eqn:E.
  - destruct Hstep as [_ Hstep]. rewrite Hstep; [done|]. intros ->. congruence.
  - destruct Hstep as [_ ->]. done.
Qed.

Lemma update_x1_frame (i : nat) (c c' : chain) (r r' : rng) :
  (i < n_samp a)%nat ->
  update_x1 a c r = Some (c', r') -> W c' !! i = W c !! i.
Proof using Type.
  intros Hi Hrun. unfold update_x1 in Hrun.
  destruct (x1 a =? 1)%Z; [|by apply ret_Some in Hrun as [-> _]].
  apply (for_loopM_inv (fun s => W s !! i = W c !! i) _ _ _ _ _ _ eq_refl)
    in Hrun; [done|].
  intros j s1 s2 r1 r2 _ Hs1 Hstep. unfold update_x1_unit in Hstep.
  apply bind_Some in Hstep as (z & r3 & _ & Hstep).
  apply ret_Some in Hstep as [-> _]. simpl.
  rewrite set_v1_lookup_ne by lia. done.
Qed.

Lemma update_x0_frame (i : nat) (c c' : chain) (r r' : rng) :
  (i < n_samp a)%nat ->
  update_x0 a c r = Some (c', r') -> W c' !! i = W c !! i.
Proof using Type.
  intros Hi Hrun. unfold update_x0 in Hrun.
  destruct (x0 a =? 1)%Z; [|by apply ret_Some in Hrun as [-> _]].
  apply (for_loopM_inv (fun s => W s !! i = W c !! i) _ _ _ _ _ _ eq_refl)
    in Hrun; [done|].
  intros j s1 s2 r1 r2 _ Hs1 Hstep.
  destruct (update_x0_unit_cells a j s1 r1) as (c1 & d & Hrun1 & _ & HW).
  rewrite Hrun1 in Hstep. inversion Hstep; subst.
  rewrite HW, set_v0_lookup_ne by lia. done.
Qed.

Lemma sweep_unit_W (al : Q) (j : nat) (c c' : chain) (r r' : rng) :
  sweep_unit a al j c r = Some (c', r') -> W c' = W c /\ Wstar c' = Wstar c.
Proof using Type.
  unfold sweep_unit. intros Hrun.
  apply bind_Some in Hrun as (u & r1 & _ & Hrun).
  destruct (urn_search u _ 0) as [k|]; [|done].
  apply bind_Some in Hrun as (c1 & r2 & H1 & H2).
  apply ret_Some in H2 as [-> _]. simpl.
  destruct (k =? j)%nat.
  - unfold urn_new in H1.
    apply bind_Some in H1 as (IS & r3 & _ & H1).
    apply bind_Some in H1 as (m & r4 & _ & H1).
    apply ret_Some in H1 as [-> _]. done.
  - apply ret_Some in H1 as [-> _]. done.
Qed.

Lemma sweep_W (al : Q) (c c' : chain) (r r' : rng) :
  sweep a al c r = Some (c', r') -> W c' = W c /\ Wstar c' = Wstar c.
Proof using Type.
  intros Hrun. unfold sweep in Hrun.
  apply (for_loopM_inv (fun s => W s = W c /\ Wstar s = Wstar c)
           _ _ _ _ _ _ (conj eq_refl eq_refl)) in Hrun; [done|].
  intros j s1 s2 r1 r2 _ [Hs1 Hs1'] Hstep.
  apply sweep_unit_W in Hstep as [-> ->]. done.
Qed.

Lemma remix_assign_W (th : theta) (label : list nat) (c : chain) :
  W (remix_assign th label c) = W c
  /\ Wstar (remix_assign th label c) = Wstar c
  /\ nstar (remix_assign th label c) = nstar c.
Proof using Type.
  revert c. induction label as [|ix label IH]; intros c; [done|].
  simpl. destruct (IH
    {| W := W c; Wstar := Wstar c;
       mu := <[ix := vbuild (vget (mu_mix th))]> (mu c);
       Sigma := <[ix := mbuild (mget (Sigma_mix th))]> (Sigma c);
       InvSigma := <[ix := mbuild (mget (InvSigma_mix th))]> (InvSigma c);
       C := <[ix := nstar c]> (C c); nstar := nstar c;
       sortC := sortC c; prob_grid := prob_grid c |}) as (H1 & H2 & H3).
  unfold remix_assign in *. by rewrite H1, H2, H3.
Qed.

Lemma remix_loop_W (fuel : nat) (cells : list (nat * nat)) (c c' : chain)
    (drawn drawn' : list theta) (r r' : rng) :
  remix_loop a fuel cells c drawn r = Some ((c', drawn'), r') ->
  W c' = W c /\ Wstar c' = Wstar c.
Proof using Type.
  revert cells c drawn r. induction fuel as [|fuel IH];
    intros cells c drawn r Hrun.
  - simpl in Hrun. by apply ret_Some in Hrun as [[= -> ->] _].
  - simpl in Hrun. destruct cells as [|[j ix0] cells'].
    + by apply ret_Some in Hrun as [[= -> ->] _].
    + destruct (remix_block j ((j, ix0) :: cells')) as [label rest].
      apply bind_Some in Hrun as (th & r1 & _ & Hrun).
      apply IH in Hrun as [-> ->]. simpl.
      by destruct (remix_assign_W th label c) as (-> & -> & _).
Qed.

Lemma remix_W (c c' : chain) (r r' : rng) :
  remix a c r = Some (c', r') -> W c' = W c /\ Wstar c' = Wstar c.
Proof using Type.
  unfold remix, remix_trace. intros Hrun.
  apply bind_Some in Hrun as ([c1 drawn] & r1 & Hrun & Hret).
  apply ret_Some in Hret as [-> _]. simpl.
  by apply remix_loop_W in Hrun as [-> ->].
Qed.

(** a unit off its line keeps its [W] over a whole turn of the main loop *)
Lemma main_loop_body_frame (i ml : nat) (s s' : state) (r r' : rng) :
  (i < n_samp a)%nat -> on_tomo_line (X a !!! i) = false ->
  main_loop_body a ml s r = Some (s', r') ->
  W (ch s') !! i = W (ch s) !! i.
Proof using Type.
  intros Hi Hoff Hrun. unfold main_loop_body in Hrun.
  apply bind_Some in Hrun as (c1 & r1 & H1 & Hrun).
  apply bind_Some in Hrun as (c2 & r2 & H2 & Hrun).
  apply bind_Some in Hrun as (c3 & r3 & H3 & Hrun).
  apply bind_Some in Hrun as (c4 & r4 & H4 & Hrun).
  apply bind_Some in Hrun as (c5 & r5 & H5 & Hrun).
  apply bind_Some in Hrun as (al & r6 & H6 & Hrun).
  apply bind_Some in Hrun as (o & r7 & H7 & Hrun).
  apply ret_Some in Hrun as [-> _]. simpl.
  apply remix_W in H5 as [-> _]. apply sweep_W in H4 as [-> _].
  rewrite (update_x0_frame i _ _ _ _ Hi H3).
  rewrite (update_x1_frame i _ _ _ _ Hi H2).
  by apply (update_W_frame i _ _ _ _ Hoff H1).
Qed.

End Frames.

Section NotSampled.
Import GibbsDP.
Context {RM : Rmath} {RR : Rrand} {EL : EcoLib}.
Variable a : args.

Lemma init_chain_W (c : chain) (r r' : rng) :
  init_chain a r = Some (c, r') -> W c = fst (init_W a).
Proof using Type.
  unfold init_chain. intros Hrun.
  apply bind_Some in Hrun as (ths & r1 & _ & Hrun).
  by apply ret_Some in Hrun as [-> _].
Qed.

(** C5 (as amended).  A unit whose margin [Y] (the second column of the
    data, [X[i][1]]) is zero has both [W1] and [W2] set to 0.000001 before
    the main loop; its turn of the loop over the units never draws on a
    tomography line (the random stream and [W] are left as they were); and
    its [W] is still 0.000001 after any number of turns of the main
    loop. *)
Theorem zero_Y_unit_not_sampled (i : nat) :
  (forall n : nat, length (doubleMatrix2 n) = n) ->
  (i < n_samp a)%nat ->
  v1 (X a !!! i) == 0 ->
  fst (init_W a) !! i = Some (Vec2 (1 # 1000000) (1 # 1000000))
  /\ (forall (c : chain) (r : rng),
        exists c' : chain, update_W_unit a i c r = Some (c', r) /\ W c' = W c)
  /\ (forall (n : nat) (o : store) (r r' : rng) (s : state),
        run a n o r = Some (s, r') ->
        W (ch s) !! i = Some (Vec2 (1 # 1000000) (1 # 1000000))).
Proof using Type.
  intros Halloc Hi HY.
  assert (Hq : Qeq_bool (v1 (X a !!! i)) 0 = true) by (by apply Qeq_bool_iff).
  assert (Hoff : on_tomo_line (X a !!! i) = false).
  { unfold on_tomo_line. by rewrite Hq. }
  assert (Hinit : fst (init_W a) !! i = Some (Vec2 (1 # 1000000) (1 # 1000000))).
  { rewrite init_W_lookup; [|done|].
    - unfold init_W_unit. by rewrite Hq.
    - rewrite Halloc. unfold t_samp. lia. }
  split; [done|]. split.
  - intros c r. unfold update_W_unit, bind, ret. rewrite Hoff.
    eexists. split; [reflexivity|done].
  - intros n o r r' s Hrun. unfold run in Hrun.
    apply bind_Some in Hrun as (s0 & r0 & Hs0 & Hrun).
    unfold init_state in Hs0.
    apply bind_Some in Hs0 as (c0 & r1 & Hc0 & Hs0).
    apply ret_Some in Hs0 as [-> _]. apply init_chain_W in Hc0.
    apply (for_loopM_inv
             (fun s => W (ch s) !! i = Some (Vec2 (1 # 1000000) (1 # 1000000))))
      in Hrun; [done| |].
    + simpl. by rewrite Hc0.
    + intros ml s1 s2 r2 r3 _ Hs1 Hstep.
      by rewrite (main_loop_body_frame a i ml s1 s2 r2 r3 Hi Hoff Hstep).
Qed.

End NotSampled.

Lemma zero_Y_unit_not_sampled_witness :
  fst (GibbsDP.init_W (Demo.args5 0)) !! 1%nat
  = Some (Vec2 (1 # 1000000) (1 # 1000000))
  /\ exists c' : GibbsDP.chain,
       GibbsDP.update_W_unit (RR := Demo.rrand) (Demo.args5 0) 1 Demo.chain5 0%nat
       = Some (c', 0%nat)
       /\ GibbsDP.W c' = GibbsDP.W Demo.chain5.
Proof.
  destruct (zero_Y_unit_not_sampled (RR := Demo.rrand) (Demo.args5 0) 1)
    as (H1 & H2 & _).
  - intros n. apply length_replicate.
  - vm_compute. lia.
  - vm_compute. reflexivity.
  - split; [exact H1|]. exact (H2 Demo.chain5 0%nat).
Defined.

(** C5, as the specification has it, fails: for the unit with the margins
    [X = 0] and [Y = 1/2], [W1] starts at 0 and the turn of the unit reads
    a uniform draw for its tomography line.  (The bounds of this unit divide
    by [X = 0]; nothing stated here depends on their values.) *)
Lemma zero_X_unit_sampled :
  let a := Demo.args2 in
  v0 (GibbsDP.X a !!! 0%nat) == 0
  /\ ~ v0 (fst (GibbsDP.init_W a) !!! 0%nat) == 1 # 1000000
  /\ GibbsDP.on_tomo_line (GibbsDP.X a !!! 0%nat) = true
  /\ exists c' : GibbsDP.chain,
       GibbsDP.update_W_unit (RR := Demo.rrand) a 0 Demo.chain2 0%nat
       = Some (c', 1%nat).
Proof.
  split; [reflexivity|]. split; [vm_compute; discriminate|].
  split; [reflexivity|]. eexists. vm_compute. reflexivity.
Qed.

(** ** The turn of a unit in the clustering sweep *)

Section Urn.
Import GibbsDP.
Context {RM : Rmath} {RR : Rrand} {EL : EcoLib}.
Variable a : args.

(** the cell [k] of [qq] is the sum of the weights up to [k] over the sum
    of all the weights *)
Lemma urn_qq_lookup (al : Q) (c : chain) (i k : nat) :
  (k < t_samp a)%nat ->
  exists v : Q, urn_qq a al c i !! k = Some v
    /\ v == Qsum (take (S k) (urn_q a al c i)) / Qsum (urn_q a al c i).
Proof using Type.
  intros Hk. unfold urn_qq.
  destruct (cumulate_lookup (urn_q a al c i) 0 k) as (v & Hv & Hs).
  { by rewrite urn_q_length. }
  exists (v / snd (cumulate (urn_q a al c i) 0)). split.
  - by rewrite standardize_lookup, Hv.
  - rewrite Hs, cumulate_total. by rewrite !Qplus_0_l.
Qed.

(** what the turn of unit [i] does once the search has found [j] *)
Lemma sweep_unit_found (al : Q) (i : nat) (c c' : chain) (r r' : rng) :
  sweep_unit a al i c r = Some (c', r') ->
  exists j : nat,
    urn_search (fst (unif_rand r)) (urn_qq a al c i) 0 = Some j
    /\ (j = i -> C c' = <[i := nstar c]> (C c) /\ nstar c' = S (nstar c))
    /\ (j <> i ->
        C c' = <[i := C c !!! j]> (C c) /\ nstar c' = nstar c
        /\ mu c' = <[i := mu c !!! j]> (mu c)
        /\ Sigma c' = <[i := Sigma c !!! j]> (Sigma c)
        /\ InvSigma c' = <[i := InvSigma c !!! j]> (InvSigma c)).
Proof using Type.
  unfold sweep_unit. intros Hrun.
  apply bind_Some in Hrun as (u & r1 & Hu & Hrun).
  apply draw_Some in Hu as [-> ->].
  destruct (urn_search _ _ 0) as [j|] eqn:Ej; [|done].
  exists j. split; [done|].
  apply bind_Some in Hrun as (c1 & r2 & H1 & H2).
  apply ret_Some in H2 as [-> _]. simpl.
  destruct (Nat.eqb_spec j i) as [->|Hne].
  - split; [|done]. intros _. unfold urn_new in H1.
    apply bind_Some in H1 as (IS & r3 & _ & H1).
    apply bind_Some in H1 as (m & r4 & _ & H1).
    apply ret_Some in H1 as [-> _]. done.
  - split; [done|]. intros _. apply ret_Some in H1 as [-> _]. simpl.
    by rewrite vbuild_vget, !mbuild_mget.
Qed.

(** C2 (as amended).  In the turn of unit [i] of the clustering sweep the
    weight of every unit [k] other than [i] is [dMVN(Wstar_i; mu_k,
    InvSigma_k)], and the cell [i] itself holds the weight of a new value,
    [alpha * dMVT(Wstar_i; mu0, S_bvt, nu0-1)], with [S_bvt] the inverse of
    [tau0 (nu0-1) S0 / (1+tau0)].  The weights are summed in the order of
    the indices and divided by their total, and [j] is the first index whose
    cumulated weight is not below the uniform draw.  The new value is taken
    when [j = i], so its branch sits at position [i] of the cumulated
    order, not at the end: unit [i] then gets the fresh label [nstar];
    otherwise it copies the label and the parameter of unit [j]. *)
Theorem urn_weights_and_draw (al : Q) (c : chain) (i : nat) :
  (i < t_samp a)%nat ->
  length (C c) = t_samp a -> length (mu c) = t_samp a ->
  length (Sigma c) = t_samp a -> length (InvSigma c) = t_samp a ->
  let q := urn_q a al c i in
  let qq := urn_qq a al c i in
  (length q = t_samp a
   /\ (forall k : nat, (k < t_samp a)%nat -> k <> i ->
         q !! k = Some (dMVN (vl (Wstar c !!! i)) (vl (mu c !!! k))
                          (ml (InvSigma c !!! k)) 2 false))
   /\ q !! i = Some (al * dMVT (vl (Wstar c !!! i)) (vl (mu0 a))
                       (ml (dinv (mbuild (fun j k =>
                          tau0 a * inject_Z (nu0 a - 1) * mget (S0 a) j k
                          / (1 + tau0 a)))))
                       (nu0 a - 1) 2 false))
  /\ (forall k : nat, (k < t_samp a)%nat ->
        exists v : Q, qq !! k = Some v
                      /\ v == Qsum (take (S k) q) / Qsum q)
  /\ (forall (r r' : rng) (c' : chain),
        sweep_unit a al i c r = Some (c', r') ->
        let u := fst (unif_rand r) in
        exists j : nat,
          (j < t_samp a)%nat
          /\ (exists v : Q, qq !! j = Some v /\ ~ v < u)
          /\ (forall (m : nat) (v : Q), (m < j)%nat -> qq !! m = Some v -> v < u)
          /\ (j = i -> C c' !! i = Some (nstar c) /\ nstar c' = S (nstar c))
          /\ (j <> i -> C c' !! i = C c !! j /\ nstar c' = nstar c
                        /\ theta_of c' i = theta_of c j)).
Proof using Type.
  intros Hi HC Hmu HS HIS q qq. split; [|split].
  - split; [apply urn_q_length|]. split.
    + intros k Hk Hne. unfold q. rewrite urn_q_lookup by done.
      unfold urn_weight. destruct (Nat.eqb_spec k i); [done|]. done.
    + unfold q. rewrite urn_q_lookup by done.
      unfold urn_weight. by rewrite Nat.eqb_refl.
  - intros k Hk. by apply urn_qq_lookup.
  - intros r r' c' Hrun u.
    destruct (sweep_unit_found al i c c' r r' Hrun) as (j & Hj & Hnew & Hold).
    exists j. fold qq u in Hj.
    apply urn_search_Some in Hj as (Hjl & Hstop & Hbefore).
    unfold qq in Hjl. rewrite urn_qq_length in Hjl.
    rewrite Nat.sub_0_r in Hstop, Hbefore.
    split; [lia|]. split; [done|]. split; [done|]. split.
    + intros E. destruct (Hnew E) as [-> ->]. split; [|done].
      apply list_lookup_insert_eq. lia.
    + intros E. destruct (Hold E) as (Hc & Hn & Hm & Hs & His).
      split; [|split; [done|]].
      * rewrite Hc, list_lookup_insert_eq by lia.
        symmetry. apply list_lookup_lookup_total_lt. lia.
      * unfold theta_of. rewrite Hm, Hs, His.
        by rewrite !list_lookup_total_insert_eq by lia.
Qed.

End Urn.

Lemma urn_weights_and_draw_witness :
  GibbsDP.urn_q (Demo.args5 0) 1 Demo.chain5 0 !! 1%nat
  = Some (dMVN (vl (GibbsDP.Wstar Demo.chain5 !!! 0%nat))
            (vl (GibbsDP.mu Demo.chain5 !!! 1%nat))
            (ml (GibbsDP.InvSigma Demo.chain5 !!! 1%nat)) 2 false)
  /\ exists v : Q, GibbsDP.urn_qq (Demo.args5 0) 1 Demo.chain5 0 !! 4%nat = Some v
       /\ v == Qsum (take 5 (GibbsDP.urn_q (Demo.args5 0) 1 Demo.chain5 0))
               / Qsum (GibbsDP.urn_q (Demo.args5 0) 1 Demo.chain5 0).
Proof.
  destruct (urn_weights_and_draw (RR := Demo.rrand) (Demo.args5 0) 1
              Demo.chain5 0) as ((_ & H1 & _) & H2 & _).
  - vm_compute. lia.
  - reflexivity.
  - reflexivity.
  - reflexivity.
  - reflexivity.
  - split.
    + apply (H1 1%nat); [vm_compute; lia|done].
    + apply (H2 4%nat). vm_compute. lia.
Defined.

(** C2, as the specification has it, fails: in the turn of unit 0 of five
    units the weight of a new value is the first cell of the array, not the
    last, so the array is not the one with the new value last, and a small
    draw selects the new value. *)
Lemma urn_new_value_not_last :
  let a := Demo.args5 0 in
  let c := Demo.chain5 in
  let q := GibbsDP.urn_q a 1 c 0 in
  let new := 1 * dMVT (vl (GibbsDP.Wstar c !!! 0%nat)) (vl (GibbsDP.mu0 a))
                  (ml (GibbsDP.S_bvt a)) (GibbsDP.nu0 a - 1) 2 false in
  q !!! 0%nat == new
  /\ ~ q !!! 4%nat == new
  /\ ~ q !!! 0%nat == GibbsDP.urn_q_new_last a 1 c 0 !!! 0%nat
  /\ GibbsDP.urn_search (1 # 100) (GibbsDP.urn_qq a 1 c 0) 0 = Some 0%nat.
Proof.
  split; [vm_compute; reflexivity|].
  split; [vm_compute; discriminate|].
  split; [vm_compute; discriminate|].
  vm_compute. reflexivity.
Qed.

(** ** The remixing step *)

Section Remix.
Import GibbsDP.
Context {RM : Rmath} {RR : Rrand} {EL : EcoLib}.
Variable a : args.

Lemma theta_eta (th : theta) :
  {| mu_mix := vbuild (vget (mu_mix th));
     Sigma_mix := mbuild (mget (Sigma_mix th));
     InvSigma_mix := mbuild (mget (InvSigma_mix th)) |} = th.
Proof using Type. destruct th. by rewrite vbuild_vget, !mbuild_mget. Qed.

(** a block is a prefix of the cells; it is not empty when the first cell
    has the label of the block *)
Lemma remix_block_split (j : nat) (cells : list (nat * nat)) :
  let '(label, rest) := remix_block j cells in
  snd <$> cells = label ++ (snd <$> rest)
  /\ length cells = (length label + length rest)%nat.
Proof using Type.
  induction cells as [|[cj ix] cells IH]; simpl; [done|].
  destruct (cj =? j)%nat; [|done].
  destruct (remix_block j cells) as [label rest]. simpl.
  destruct IH as [IH1 IH2]. split; [f_equal; exact IH1|lia].
Qed.

Lemma remix_block_head (j ix : nat) (cells : list (nat * nat)) :
  exists label : list nat,
    fst (remix_block j ((j, ix) :: cells)) = ix :: label.
Proof using Type.
  simpl. rewrite Nat.eqb_refl.
  destruct (remix_block j cells) as [label rest]. by exists label.
Qed.

(** the units of a block take its label and its value; the others keep
    theirs *)
Lemma remix_assign_spec (t : nat) (th : theta) (label : list nat) (c : chain) :
  sized t c -> (forall ix : nat, ix ∈ label -> (ix < t)%nat) ->
  let c1 := remix_assign th label c in
  sized t c1 /\ nstar c1 = nstar c
  /\ (forall ix : nat, ix ∈ label ->
        C c1 !! ix = Some (nstar c) /\ theta_of c1 ix = th)
  /\ (forall ix : nat, ix ∉ label ->
        C c1 !! ix = C c !! ix /\ theta_of c1 ix = theta_of c ix).
Proof using Type.
  revert c. induction label as [|ix0 label IH]; intros c Hsz Hlt.
  - simpl. split; [done|]. split; [done|]. split; [|done].
    intros ix Hin. by apply elem_of_nil in Hin.
  - destruct Hsz as (Hm & Hs & His & Hc).
    set (c0 := {| W := W c; Wstar := Wstar c;
       mu := <[ix0 := vbuild (vget (mu_mix th))]> (mu c);
       Sigma := <[ix0 := mbuild (mget (Sigma_mix th))]> (Sigma c);
       InvSigma := <[ix0 := mbuild (mget (InvSigma_mix th))]> (InvSigma c);
       C := <[ix0 := nstar c]> (C c); nstar := nstar c;
       sortC := sortC c; prob_grid := prob_grid c |}).
    assert (Hsz0 : sized t c0).
    { unfold sized, c0. simpl. by rewrite !length_insert. }
    assert (Hix0 : (ix0 < t)%nat) by (apply Hlt; left).
    destruct (IH c0 Hsz0) as (Hsz1 & Hn1 & Hin1 & Hout1).
    { intros ix Hin. apply Hlt. by right. }
    change (remix_assign th (ix0 :: label) c) with (remix_assign th label c0).
    simpl. split; [done|]. split; [done|]. split.
    + intros ix Hin. destruct (decide (ix ∈ label)) as [Hl|Hl].
      * by apply Hin1.
      * apply elem_of_cons in Hin as [->|Hin]; [|done].
        destruct (Hout1 ix0 Hl) as [-> ->]. unfold c0, theta_of. simpl.
        rewrite list_lookup_insert_eq by lia.
        rewrite !list_lookup_total_insert_eq by lia.
        split; [done|]. apply theta_eta.
    + intros ix Hout. apply not_elem_of_cons in Hout as [Hne Hout].
      destruct (Hout1 ix Hout) as [-> ->]. unfold c0, theta_of. simpl.
      rewrite list_lookup_insert_ne by done.
      by rewrite !list_lookup_total_insert_ne by done.
Qed.

Lemma remix_draw_total (Wstarmix : list vec2) (r : rng) :
  exists (th : theta) (r' : rng), remix_draw a Wstarmix r = Some (th, r').
Proof using Type.
  unfold remix_draw, bind, draw, ret.
  destruct (rWish _ _ r) as [IS r1]. destruct (rMVN _ _ r1) as [m r2].
  by eexists _, _.
Qed.

Lemma remix_assign_sortC (th : theta) (label : list nat) (c : chain) :
  sortC (remix_assign th label c) = sortC c.
Proof using Type.
  revert c. induction label as [|ix label IH]; intros c; [done|].
  change (remix_assign th (ix :: label) c)
    with (remix_assign th label
            {| W := W c; Wstar := Wstar c;
               mu := <[ix := vbuild (vget (mu_mix th))]> (mu c);
               Sigma := <[ix := mbuild (mget (Sigma_mix th))]> (Sigma c);
               InvSigma := <[ix := mbuild (mget (InvSigma_mix th))]> (InvSigma c);
               C := <[ix := nstar c]> (C c); nstar := nstar c;
               sortC := sortC c; prob_grid := prob_grid c |}).
  by rewrite IH.
Qed.

Lemma remix_loop_sortC (fuel : nat) (cells : list (nat * nat)) (c c' : chain)
    (drawn drawn' : list theta) (r r' : rng) :
  remix_loop a fuel cells c drawn r = Some ((c', drawn'), r') ->
  sortC c' = sortC c.
Proof using Type.
  revert cells c drawn r. induction fuel as [|fuel IH];
    intros cells c drawn r Hrun.
  - simpl in Hrun. by apply ret_Some in Hrun as [[= -> ->] _].
  - simpl in Hrun. destruct cells as [|[j ix0] cells'].
    + by apply ret_Some in Hrun as [[= -> ->] _].
    + destruct (remix_block j ((j, ix0) :: cells')) as [label rest].
      apply bind_Some in Hrun as (th & r1 & _ & Hrun).
      apply IH in Hrun as ->. simpl. apply remix_assign_sortC.
Qed.

Lemma remix_loop_spec (t fuel : nat) (cells : list (nat * nat)) (c : chain)
    (drawn : list theta) (r : rng) (done : list nat) :
  (length cells <= fuel)%nat ->
  NoDup (done ++ (snd <$> cells)) ->
  (forall ix : nat, ix ∈ snd <$> cells -> (ix < t)%nat) ->
  sized t c -> remixed done c drawn ->
  exists (c' : chain) (drawn' : list theta) (r' : rng),
    remix_loop a fuel cells c drawn r = Some ((c', drawn'), r')
    /\ sized t c' /\ remixed (done ++ (snd <$> cells)) c' drawn'.
Proof using Type.
  revert cells c drawn r done.
  induction fuel as [|fuel IH]; intros cells c drawn r done Hf Hnd Hlt Hsz Hinv.
  - destruct cells; [|simpl in Hf; lia]. simpl.
    exists c, drawn, r. rewrite app_nil_r. done.
  - destruct cells as [|[j ix0] cells'].
    { simpl. exists c, drawn, r. rewrite app_nil_r. done. }
    cbn [remix_loop].
    pose proof (remix_block_split j ((j, ix0) :: cells')) as Hsplit.
    destruct (remix_block_head j ix0 cells') as [label' Hhead].
    destruct (remix_block j ((j, ix0) :: cells')) as [label rest] eqn:Eb.
    simpl in Hhead. subst label. destruct Hsplit as [Hsnd Hlen].
    set (label := ix0 :: label') in *.
    destruct (remix_draw_total (map (fun ix => Wstar c !!! ix) label) r)
      as (th & r1 & Hdraw).
    unfold bind at 1. rewrite Hdraw.
    rewrite Hsnd in Hnd, Hlt.
    assert (Hlab : forall ix : nat, ix ∈ label -> (ix < t)%nat).
    { intros ix Hin. apply Hlt. apply elem_of_app. by left. }
    destruct (remix_assign_spec t th label c Hsz Hlab)
      as (Hsz1 & Hn1 & Hin1 & Hout1).
    destruct Hinv as (Hns & Hdone & Hused).
    set (c2 := set_nstar (remix_assign th label c)
                 (S (nstar (remix_assign th label c)))).
    assert (Hdisj : forall ix : nat, ix ∈ done -> ix ∉ label).
    { intros ix Hd Hl. apply NoDup_app in Hnd as (_ & Hnd & _).
      apply (Hnd ix Hd). apply elem_of_app. by left. }
    destruct (IH rest c2 (drawn ++ [th]) r1 (done ++ label))
      as (c' & drawn' & r' & Hrun & Hsz' & Hinv').
    + unfold label in Hlen. simpl in Hlen, Hf. lia.
    + by rewrite <- app_assoc.
    + intros ix Hin. apply Hlt. apply elem_of_app. by right.
    + done.
    + assert (Hc2n : nstar c2 = S (nstar c)) by (unfold c2; by rewrite <- Hn1).
      assert (Hc2C : C c2 = C (remix_assign th label c)) by done.
      assert (Hc2t : forall ix : nat,
                 theta_of c2 ix = theta_of (remix_assign th label c) ix) by done.
      clearbody c2. unfold remixed. rewrite Hc2C. split; [|split].
      * rewrite Hc2n, Hns, length_app. simpl. lia.
      * intros ix Hin. rewrite Hc2t.
        apply elem_of_app in Hin as [Hin|Hin].
        -- destruct (Hout1 ix (Hdisj ix Hin)) as [-> ->].
           destruct (Hdone ix Hin) as (k & Hk & Hd). exists k. split; [done|].
           apply lookup_app_l_Some. done.
        -- destruct (Hin1 ix Hin) as [-> ->]. exists (nstar c). split; [done|].
           rewrite Hns. apply list_lookup_middle. done.
      * intros k Hk. rewrite length_app in Hk. simpl in Hk.
        destruct (decide (k = length drawn)) as [->|Hne].
        -- exists ix0. split; [apply elem_of_app; right; left|].
           destruct (Hin1 ix0 ltac:(left)) as [-> _]. by rewrite Hns.
        -- destruct (Hused k ltac:(lia)) as (ix & Hin & HC).
           exists ix. split; [apply elem_of_app; by left|].
           by destruct (Hout1 ix (Hdisj ix Hin)) as [-> _].
    + exists c', drawn', r'. split; [done|]. split; [done|].
      by rewrite Hsnd, app_assoc.
Qed.

Hypothesis qsort_perm :
  forall iv I : list nat, length iv = length I ->
    zip (fst (R_qsort_int_I iv I)) (snd (R_qsort_int_I iv I)) ≡ₚ zip iv I.

Lemma remix_cells_perm (c : chain) :
  length (sortC c) = t_samp a ->
  snd <$> remix_cells a c ≡ₚ seq 0 (t_samp a).
Proof using qsort_perm.
  intros Hl. unfold remix_cells.
  pose proof (qsort_perm (sortC c) (seq 0 (t_samp a))) as Hp.
  destruct (R_qsort_int_I (sortC c) (seq 0 (t_samp a))) as [sc ic].
  simpl in Hp. rewrite Hp by (by rewrite length_seq).
  rewrite snd_zip; [done|]. rewrite length_seq. lia.
Qed.

(** the steps of a turn before the remixing keep the sizes of the arrays *)
Lemma update_W_sized (t : nat) (c c' : chain) (r r' : rng) :
  sized t c /\ length (sortC c) = t ->
  update_W a c r = Some (c', r') -> sized t c' /\ length (sortC c') = t.
Proof using Type.
  intros Hsz Hrun. unfold update_W in Hrun.
  apply (for_loopM_inv (fun s => sized t s /\ length (sortC s) = t)) in Hrun;
    [done|done|].
  intros j s1 s2 r1 r2 _ Hs1 Hstep. unfold update_W_unit in Hstep.
  apply bind_Some in Hstep as (c1 & r3 & H1 & H2).
  apply ret_Some in H2 as [-> _].
  destruct (on_tomo_line (X a !!! j)).
  - unfold draw_W in H1. apply bind_Some in H1 as (u & r4 & _ & H1).
    apply ret_Some in H1 as [-> _]. done.
  - apply ret_Some in H1 as [-> _]. done.
Qed.

Lemma update_x1_sized (t : nat) (c c' : chain) (r r' : rng) :
  sized t c /\ length (sortC c) = t ->
  update_x1 a c r = Some (c', r') -> sized t c' /\ length (sortC c') = t.
Proof using Type.
  intros Hsz Hrun. unfold update_x1 in Hrun.
  destruct (x1 a =? 1)%Z; [|by apply ret_Some in Hrun as [-> _]].
  apply (for_loopM_inv (fun s => sized t s /\ length (sortC s) = t)) in Hrun;
    [done|done|].
  intros j s1 s2 r1 r2 _ Hs1 Hstep. unfold update_x1_unit in Hstep.
  apply bind_Some in Hstep as (z & r3 & _ & Hstep).
  apply ret_Some in Hstep as [-> _]. done.
Qed.

Lemma update_x0_sized (t : nat) (c c' : chain) (r r' : rng) :
  sized t c /\ length (sortC c) = t ->
  update_x0 a c r = Some (c', r') -> sized t c' /\ length (sortC c') = t.
Proof using Type.
  intros Hsz Hrun. unfold update_x0 in Hrun.
  destruct (x0 a =? 1)%Z; [|by apply ret_Some in Hrun as [-> _]].
  apply (for_loopM_inv (fun s => sized t s /\ length (sortC s) = t)) in Hrun;
    [done|done|].
  intros j s1 s2 r1 r2 _ Hs1 Hstep. unfold update_x0_unit in Hstep.
  apply bind_Some in Hstep as (z & r3 & _ & Hstep).
  apply ret_Some in Hstep as [-> _]. done.
Qed.

Lemma sweep_sized (t : nat) (al : Q) (c c' : chain) (r r' : rng) :
  sized t c /\ length (sortC c) = t ->
  sweep a al c r = Some (c', r') -> sized t c' /\ length (sortC c') = t.
Proof using Type.
  intros Hsz Hrun. unfold sweep in Hrun.
  apply (for_loopM_inv (fun s => sized t s /\ length (sortC s) = t)) in Hrun;
    [done|done|].
  intros j s1 s2 r1 r2 _ [(Hm & Hs & His & Hc) Hso] Hstep.
  unfold sweep_unit in Hstep.
  apply bind_Some in Hstep as (u & r3 & _ & Hstep).
  destruct (urn_search u _ 0) as [k|]; [|done].
  apply bind_Some in Hstep as (c1 & r4 & H1 & H2).
  apply ret_Some in H2 as [-> _]. unfold sized. simpl.
  destruct (k =? j)%nat.
  - unfold urn_new in H1.
    apply bind_Some in H1 as (IS & r5 & _ & H1).
    apply bind_Some in H1 as (m & r6 & _ & H1).
    apply ret_Some in H1 as [-> _]. simpl. by rewrite !length_insert.
  - apply ret_Some in H1 as [-> _]. simpl. by rewrite !length_insert.
Qed.

Lemma init_thetas_length (n : nat) (ths : list theta) (r r' : rng) :
  init_thetas a n r = Some (ths, r') -> length ths = n.
Proof using Type.
  revert ths r r'. induction n as [|n IH]; intros ths r r' Hrun; simpl in Hrun.
  - by apply ret_Some in Hrun as [-> _].
  - apply bind_Some in Hrun as (th & r1 & _ & Hrun).
    apply bind_Some in Hrun as (ths' & r2 & Hths & Hrun).
    apply ret_Some in Hrun as [-> _]. simpl. by rewrite (IH _ _ _ Hths).
Qed.

Lemma init_chain_sized (c : chain) (r r' : rng) :
  (forall n : nat, length (intArray n) = n) ->
  init_chain a r = Some (c, r') ->
  sized (t_samp a) c /\ length (sortC c) = t_samp a.
Proof using Type.
  intros Halloc Hrun. unfold init_chain in Hrun.
  apply bind_Some in Hrun as (ths & r1 & Hths & Hrun).
  apply ret_Some in Hrun as [-> _]. apply init_thetas_length in Hths.
  unfold sized. simpl. by rewrite !length_map, length_seq, Hths, Halloc.
Qed.

(** the content of C7 for one pass *)
Lemma remix_trace_spec (c : chain) (r : rng) :
  sized (t_samp a) c ->
  length (sortC c) = t_samp a ->
  exists (c' : chain) (drawn : list theta) (r' : rng),
    remix_trace a c r = Some ((c', drawn), r')
    /\ sized (t_samp a) c' /\ length (sortC c') = t_samp a
    /\ contiguous (t_samp a) c' drawn.
Proof using qsort_perm.
  intros Hsz Hl. pose proof (remix_cells_perm c Hl) as Hperm.
  unfold remix_trace.
  set (cells := remix_cells a c) in *.
  assert (Hlen : length cells = t_samp a).
  { apply Permutation_length in Hperm.
    by rewrite length_fmap, length_seq in Hperm. }
  destruct (remix_loop_spec (t_samp a) (t_samp a) cells
              (set_nstar (set_sortC_all c (fst <$> cells)) 0) [] r [])
    as (c' & drawn & r' & Hrun & Hsz' & Hns & Hunits & Hused).
  - lia.
  - rewrite app_nil_l, Hperm. apply NoDup_seq.
  - intros ix Hin. rewrite Hperm in Hin. apply elem_of_seq in Hin. lia.
  - done.
  - unfold remixed. simpl. split; [done|]. split.
    + intros ix Hin. by apply elem_of_nil in Hin.
    + intros k Hk. lia.
  - exists c', drawn, r'. split; [done|]. split; [done|]. split.
    { apply remix_loop_sortC in Hrun. rewrite Hrun. simpl.
      by rewrite length_fmap. }
    rewrite app_nil_l in Hunits, Hused. split; [done|]. split.
    + intros i Hi. destruct (Hunits i) as (k & Hk & Hd).
      { rewrite Hperm. apply elem_of_seq. lia. }
      exists k. split; [done|]. split; [|done].
      rewrite Hns. by apply lookup_lt_Some in Hd.
    + intros k Hk. destruct (Hused k ltac:(lia)) as (ix & Hin & HC).
      exists ix. split; [|done].
      rewrite Hperm in Hin. apply elem_of_seq in Hin. lia.
Qed.

(** C7.  The remixing step returns; afterwards the labels of the units are
    below [nstar], every label below [nstar] is the label of some unit, and
    the [mu], [Sigma] and [InvSigma] of every unit are the ones drawn in this
    pass for its label.  The arrays of [cDPeco] have the sizes this takes,
    so the same holds of the state after every turn of the main loop. *)
Theorem remix_labels_contiguous :
  (forall (c : chain) (r : rng),
     sized (t_samp a) c ->
     length (sortC c) = t_samp a ->
     exists (c' : chain) (drawn : list theta) (r' : rng),
       remix_trace a c r = Some ((c', drawn), r')
       /\ remix a c r = Some (c', r')
       /\ nstar c' = length drawn
       /\ (forall i : nat, (i < t_samp a)%nat ->
             exists k : nat, C c' !! i = Some k /\ (k < nstar c')%nat
                             /\ drawn !! k = Some (theta_of c' i))
       /\ (forall k : nat, (k < nstar c')%nat ->
             exists i : nat, (i < t_samp a)%nat /\ C c' !! i = Some k))
  /\ ((forall n : nat, length (intArray n) = n) ->
      forall (n : nat) (o : store) (r r' : rng) (s : state),
        run a (S n) o r = Some (s, r') ->
        exists drawn : list theta, contiguous (t_samp a) (ch s) drawn).
Proof using qsort_perm.
  split.
  - intros c r Hsz Hl.
    destruct (remix_trace_spec c r Hsz Hl)
      as (c' & drawn & r' & Hrun & _ & _ & Hn & Hu & Hk).
    exists c', drawn, r'. split; [done|]. split; [|done].
    unfold remix, bind. by rewrite Hrun.
  - intros Halloc n o r r' s Hrun. unfold run in Hrun.
    apply bind_Some in Hrun as (s0 & r0 & Hs0 & Hrun).
    unfold init_state in Hs0.
    apply bind_Some in Hs0 as (c0 & r1 & Hc0 & Hs0).
    apply ret_Some in Hs0 as [-> _].
    apply (init_chain_sized _ _ _ Halloc) in Hc0.
    rewrite for_loopM_S in Hrun.
    apply bind_Some in Hrun as (s1 & r2 & Hloop & Hstep).
    assert (Hs1 : sized (t_samp a) (ch s1) /\ length (sortC (ch s1)) = t_samp a).
    { apply (for_loopM_inv (fun s => sized (t_samp a) (ch s)
                                     /\ length (sortC (ch s)) = t_samp a))
        in Hloop; [done|done|].
      intros ml s2 s3 r3 r4 _ Hs2 Hb. unfold main_loop_body in Hb.
      apply bind_Some in Hb as (c1 & q1 & H1 & Hb).
      apply bind_Some in Hb as (c2 & q2 & H2 & Hb).
      apply bind_Some in Hb as (c3 & q3 & H3 & Hb).
      apply bind_Some in Hb as (c4 & q4 & H4 & Hb).
      apply bind_Some in Hb as (c5 & q5 & H5 & Hb).
      apply bind_Some in Hb as (al & q6 & _ & Hb).
      apply bind_Some in Hb as (o1 & q7 & _ & Hb).
      apply ret_Some in Hb as [-> _]. simpl.
      apply (update_W_sized _ _ _ _ _ Hs2) in H1.
      apply (update_x1_sized _ _ _ _ _ H1) in H2.
      apply (update_x0_sized _ _ _ _ _ H2) in H3.
      apply (sweep_sized _ _ _ _ _ _ H3) in H4 as [H4 H4'].
      destruct (remix_trace_spec c4 q4 H4 H4')
        as (c' & drawn & q' & Hr & Hsz' & Hso' & _).
      unfold remix, bind in H5. rewrite Hr in H5.
      apply ret_Some in H5 as [-> _]. done. }
    unfold main_loop_body in Hstep.
    apply bind_Some in Hstep as (c1 & q1 & H1 & Hstep).
    apply bind_Some in Hstep as (c2 & q2 & H2 & Hstep).
    apply bind_Some in Hstep as (c3 & q3 & H3 & Hstep).
    apply bind_Some in Hstep as (c4 & q4 & H4 & Hstep).
    apply bind_Some in Hstep as (c5 & q5 & H5 & Hstep).
    apply bind_Some in Hstep as (al & q6 & _ & Hstep).
    apply bind_Some in Hstep as (o1 & q7 & _ & Hstep).
    apply ret_Some in Hstep as [-> _]. simpl.
    apply (update_W_sized _ _ _ _ _ Hs1) in H1.
    apply (update_x1_sized _ _ _ _ _ H1) in H2.
    apply (update_x0_sized _ _ _ _ _ H2) in H3.
    apply (sweep_sized _ _ _ _ _ _ H3) in H4 as [H4 H4'].
    destruct (remix_trace_spec c4 q4 H4 H4')
      as (c' & drawn & q' & Hr & _ & _ & Hcont).
    unfold remix, bind in H5. rewrite Hr in H5.
    apply ret_Some in H5 as [-> _]. by exists drawn.
Qed.

End Remix.

(** the stand-in for the sort moves the cells without losing one *)
Lemma demo_insert_cell_perm (c : nat * nat) (cells : list (nat * nat)) :
  Demo.insert_cell c cells ≡ₚ c :: cells.
Proof.
  induction cells as [|d cells IH]; simpl; [done|].
  destruct (fst c <? fst d)%nat; [done|]. rewrite IH. apply Permutation_swap.
Qed.

Lemma demo_sort_cells_perm (cells : list (nat * nat)) :
  Demo.sort_cells cells ≡ₚ cells.
Proof.
  unfold Demo.sort_cells.
  assert (H : forall acc : list (nat * nat),
    fold_left (fun acc c => Demo.insert_cell c acc) cells acc ≡ₚ cells ++ acc).
  { induction cells as [|c cells IH]; intros acc; simpl; [done|].
    rewrite IH, demo_insert_cell_perm. by rewrite Permutation_middle. }
  by rewrite H, app_nil_r.
Qed.

Lemma demo_qsort_perm (iv I : list nat) :
  length iv = length I ->
  zip (fst (R_qsort_int_I iv I)) (snd (R_qsort_int_I iv I)) ≡ₚ zip iv I.
Proof.
  intros _. cbn [R_qsort_int_I Demo.ecolib fst snd].
  rewrite zip_fst_snd. apply demo_sort_cells_perm.
Qed.

(** ** The concentration parameter and its storage *)

Section NoAlphaUpdate.
Import GibbsDP.
Context {RM : Rmath} {RR : Rrand} {EL : EcoLib}.
Variable a : args.
Hypothesis Hoff : pinUpdate a = 0%Z.

Lemma update_alpha_off (al : Q) (ns : nat) (r : rng) :
  update_alpha a al ns r = Some (al, r).
Proof using Hoff. unfold update_alpha. by rewrite Hoff. Qed.

Lemma store_unit_frame (c : chain) (i : nat) (o o' : store) (r r' : rng) :
  store_unit a c i o r = Some (o', r') -> same_alpha_store o o'.
Proof using Type.
  unfold store_unit. intros Hrun.
  apply bind_Some in Hrun as (o1 & r1 & H1 & Hrun).
  apply ret_Some in Hrun as [-> _]. unfold same_alpha_store. simpl.
  unfold store_pred in H1. destruct (negb (pred a =? 0)%Z).
  - apply bind_Some in H1 as (vtemp & r2 & _ & H1).
    destruct (if (link a =? 1)%Z then _ else _) as [wt1 wt2].
    apply ret_Some in H1 as [-> _]. done.
  - apply ret_Some in H1 as [-> _]. done.
Qed.

Lemma store_draws_frame (ml : nat) (al : Q) (c : chain) (o o' : store)
    (r r' : rng) :
  store_draws a ml al c o r = Some (o', r') -> same_alpha_store o o'.
Proof using Hoff.
  unfold store_draws. intros Hrun.
  destruct (burn_in a <=? Z.of_nat ml)%Z;
    [|by apply ret_Some in Hrun as [-> _]].
  destruct (itempC (set_itempC o (itempC o + 1)) =? nth a)%Z;
    [|by apply ret_Some in Hrun as [-> _]].
  apply bind_Some in Hrun as (o1 & r1 & H1 & Hrun).
  apply ret_Some in Hrun as [-> _].
  unfold store_alpha in H1. rewrite Hoff in H1. simpl in H1.
  apply (for_loopM_inv (fun s => same_alpha_store o s)) in H1; [done|done|].
  intros i s1 s2 r2 r3 _ (E1 & E2 & E3) Hstep.
  apply store_unit_frame in Hstep as (F1 & F2 & F3).
  unfold same_alpha_store. by rewrite F1, F2, F3.
Qed.

(** C1 (as amended).  With the update of [alpha] switched off, [alpha]
    stays at its first value 1 in every turn of the main loop and [nstar]
    is still the count a remixing step has computed in that turn; [alpha]
    is not stored: the buffer [pdSa] of the caller is returned as it was
    given. *)
Theorem alpha_update_off (n : nat) (o : store) (r r' : rng) (s : state) :
  run a n o r = Some (s, r') ->
  alpha s = 1
  /\ pdSa (out s) = pdSa o
  /\ ((0 < n)%nat ->
      exists (c : chain) (r1 r2 : rng), remix a c r1 = Some (ch s, r2)).
Proof using Hoff.
  unfold run. intros Hrun.
  apply bind_Some in Hrun as (s0 & r0 & Hs0 & Hrun).
  unfold init_state in Hs0.
  apply bind_Some in Hs0 as (c0 & r1 & _ & Hs0).
  apply ret_Some in Hs0 as [-> _].
  assert (Hremix : (0 < n)%nat ->
            exists (c : chain) (r1 r2 : rng), remix a c r1 = Some (ch s, r2)).
  { intros Hn. destruct n as [|n]; [lia|].
    rewrite for_loopM_S in Hrun.
    apply bind_Some in Hrun as (s1 & q0 & _ & Hstep).
    unfold main_loop_body in Hstep.
    apply bind_Some in Hstep as (c1 & q1 & _ & Hstep).
    apply bind_Some in Hstep as (c2 & q2 & _ & Hstep).
    apply bind_Some in Hstep as (c3 & q3 & _ & Hstep).
    apply bind_Some in Hstep as (c4 & q4 & _ & Hstep).
    apply bind_Some in Hstep as (c5 & q5 & H5 & Hstep).
    apply bind_Some in Hstep as (al & q6 & _ & Hstep).
    apply bind_Some in Hstep as (o1 & q7 & _ & Hstep).
    apply ret_Some in Hstep as [-> _]. by exists c4, q4, q5. }
  apply (for_loopM_inv
           (fun s => alpha s = 1 /\ pdSa (out s) = pdSa o
                     /\ pdSn (out s) = pdSn o /\ itempA (out s) = 0%nat))
    in Hrun; [by destruct Hrun as (? & ? & _ & _)|done|].
  intros ml s1 s2 r2 r3 _ (Ha & E1 & E2 & E3) Hstep.
  unfold main_loop_body in Hstep.
  apply bind_Some in Hstep as (c1 & q1 & _ & Hstep).
  apply bind_Some in Hstep as (c2 & q2 & _ & Hstep).
  apply bind_Some in Hstep as (c3 & q3 & _ & Hstep).
  apply bind_Some in Hstep as (c4 & q4 & _ & Hstep).
  apply bind_Some in Hstep as (c5 & q5 & _ & Hstep).
  apply bind_Some in Hstep as (al & q6 & Hal & Hstep).
  apply bind_Some in Hstep as (o1 & q7 & Ho & Hstep).
  apply ret_Some in Hstep as [-> _]. simpl.
  rewrite update_alpha_off in Hal. inversion Hal; subst.
  apply store_draws_frame in Ho as (F1 & F2 & F3).
  by rewrite F1, F2, F3.
Qed.

End NoAlphaUpdate.

Lemma alpha_update_off_witness :
  exists (s : GibbsDP.state) (r' : nat),
    GibbsDP.run (RR := Demo.rrand) (Demo.args5 0) 1 (Demo.store0 4) 0%nat
    = Some (s, r')
    /\ GibbsDP.alpha s = 1
    /\ GibbsDP.pdSa (GibbsDP.out s) = GibbsDP.pdSa (Demo.store0 4).
Proof.
  assert (H : exists (s : GibbsDP.state) (r' : nat),
             GibbsDP.run (RR := Demo.rrand) (Demo.args5 0) 1 (Demo.store0 4)
               0%nat = Some (s, r')).
  { vm_compute. eexists _, _. reflexivity. }
  destruct H as (s & r' & E). exists s, r'. split; [exact E|].
  destruct (alpha_update_off (RR := Demo.rrand) (Demo.args5 0) eq_refl
              1 (Demo.store0 4) 0%nat r' s E) as (H1 & H2 & _).
  split; [exact H1|exact H2].
Defined.

(** C1, as the specification has it, fails: after one stored turn with the
    update switched off, two draws of [W] are stored, but the first cell of
    [pdSa] still holds the zero of the caller, not the value 1 of
    [alpha]. *)
Lemma alpha_update_off_not_stored :
  GibbsDP.pinUpdate (Demo.args5 0) = 0%Z
  /\ match Demo.run5 0 1 with
     | Some (s, _) =>
         GibbsDP.itempS (GibbsDP.out s) = 2%nat
         /\ GibbsDP.alpha s == 1
         /\ ~ GibbsDP.pdSa (GibbsDP.out s) !!! 0%nat == 1
     | None => False
     end.
Proof.
  split; [reflexivity|]. vm_compute.
  split; [reflexivity|]. split; [reflexivity|].
  discriminate.
Qed.

(** ** More on tomography lines *)

Section GridInside.
Import GibbsDP.

Lemma lookup_total_map_seq (f : nat -> Q) (n j : nat) :
  (j < n)%nat -> map f (seq 0 n) !!! j = f j.
Proof.
  intros Hj. rewrite list_lookup_total_alt, list_lookup_fmap.
  by rewrite (lookup_seq_lt 0 n j Hj).
Qed.

(** with margins strictly inside the unit interval the interval of [W1]
    has a positive width and lies in the unit interval *)
Lemma tomo_bounds_strict (x : vec2) :
  0 < v0 x < 1 -> 0 < v1 x < 1 ->
  let mn := fmax2 0 ((v0 x + v1 x - 1) / v0 x) in
  let mx := fmin2 1 (v1 x / v0 x) in
  0 <= mn /\ mn < mx /\ mx <= 1
  /\ (v0 x + v1 x - 1) / v0 x <= mn /\ mx <= v1 x / v0 x.
Proof.
  intros HX HY mn mx.
  assert (H1 : (v0 x + v1 x - 1) / v0 x < 1) by (apply Qlt_shift_div_r; lra).
  assert (H2 : 0 < v1 x / v0 x) by (apply Qlt_shift_div_l; lra).
  assert (H3 : (v0 x + v1 x - 1) / v0 x < v1 x / v0 x).
  { apply Qlt_shift_div_r; [lra|].
    assert (E : v1 x / v0 x * v0 x == v1 x) by (field; lra). rewrite E. lra. }
  unfold mn, mx.
  destruct (fmax2_cases 0 ((v0 x + v1 x - 1) / v0 x)) as [[? ->]|[? ->]];
    destruct (fmin2_cases 1 (v1 x / v0 x)) as [[? ->]|[? ->]];
    repeat split; lra.
Qed.

(** a point of the line strictly between the raw bounds has its [W2]
    strictly between 0 and 1 *)
Lemma W2g_point_inside (x : vec2) (w : Q) :
  0 < v0 x < 1 ->
  (v0 x + v1 x - 1) / v0 x < w -> w < v1 x / v0 x ->
  0 < W2g_point x w < 1.
Proof.
  intros HX Hl Hu. unfold W2g_point.
  assert (E1 : (v0 x + v1 x - 1) / v0 x * v0 x == v0 x + v1 x - 1)
    by (field; lra).
  assert (E2 : v1 x / v0 x * v0 x == v1 x) by (field; lra).
  assert (F1 : (v0 x + v1 x - 1) / v0 x * v0 x < w * v0 x)
    by (apply Qmult_lt_r; lra).
  assert (F2 : w * v0 x < v1 x / v0 x * v0 x) by (apply Qmult_lt_r; lra).
  split.
  - apply Qlt_shift_div_l; lra.
  - apply Qlt_shift_div_r; lra.
Qed.

(** X1.  For a unit with both margins strictly between 0 and 1, every
    grid point of its tomography line lies strictly inside the interval
    of [W1], and both its coordinates are strictly between 0 and 1, so
    that the links are defined at every grid point. *)
Theorem tomo_grid_inside (x : vec2) (j : nat) :
  0 < v0 x < 1 -> 0 < v1 x < 1 ->
  (j < n_grid (tomo_of x))%nat ->
  let g := tomo_of x in
  minW1 g < W1g g !!! j < maxW1 g
  /\ 0 < W1g g !!! j < 1
  /\ 0 < W2g g !!! j < 1.
Proof.
  intros HX HY Hj g.
  destruct (tomo_bounds_strict x HX HY) as (Hmn & Hw & Hmx & Hlo & Hhi).
  assert (Hin : minW1 g < W1g g !!! j < maxW1 g).
  { subst g. revert Hj. unfold tomo_of.
    set (mn := fmax2 0 _) in *. set (mx := fmin2 1 _) in *.
    destruct (Qltb (2 * grid_step) (mx - mn)) eqn:E; simpl.
    - apply Qltb_lt in E. rewrite grid_step_val in E.
      set (wv := (mx - mn) * inject_Z (Z.of_nat n_step)).
      assert (Hwv : wv == (mx - mn) * 1000) by reflexivity.
      destruct (ftrunc_nonneg_bounds wv) as [Hfl Hfu]; [lra|].
      assert (Hz : (0 <= ftrunc wv)%Z).
      { apply Z.le_ngt. intros Hneg.
        assert (inject_Z (ftrunc wv) <= -1).
        { change (-1) with (inject_Z (-1)). rewrite <- Zle_Qle. lia. }
        lra. }
      set (ng := Z.to_nat (ftrunc wv)). intros Hj.
      assert (HN : inject_Z (Z.of_nat ng) == inject_Z (ftrunc wv)).
      { unfold ng. by rewrite Z2Nat.id. }
      assert (HJ : 0 <= inject_Z (Z.of_nat j)
                   /\ inject_Z (Z.of_nat j) + 1 <= inject_Z (Z.of_nat ng)).
      { split.
        - change 0 with (inject_Z 0). rewrite <- Zle_Qle. lia.
        - change 1 with (inject_Z 1). rewrite <- inject_Z_plus, <- Zle_Qle. lia. }
      rewrite (lookup_total_map_seq _ ng j Hj). unfold W1g_point.
      change grid_step with (1 # 1000).
      set (rs := mx - mn - inject_Z (Z.of_nat ng) * (1 # 1000)).
      assert (Ers : mx - mn == inject_Z (Z.of_nat ng) * (1 # 1000) + rs)
        by (unfold rs; ring).
      clearbody rs.
      assert (Hrs : 0 <= rs < 1 # 1000) by (split; lra).
      set (w0 := mn + (inject_Z (Z.of_nat j) + 1) * (1 # 1000)
                 - ((1 # 1000) + rs) / 2).
      assert (Ew0 : w0 == mn + (inject_Z (Z.of_nat j) + 1) * (1 # 1000)
                         - ((1 # 1000) + rs) * (1 # 2)) by (unfold w0; field).
      clearbody w0.
      set (h := rs / 2).
      assert (Eh : h == rs * (1 # 2)) by (unfold h; field).
      clearbody h.
      assert (Hw0 : mn < w0 /\ w0 + h < mx) by (split; lra).
      destruct (Qltb (w0 - mn) h) eqn:E1.
      + destruct (Qltb (mx - (w0 + h)) h) eqn:E2.
        * apply Qltb_lt in E2. lra.
        * lra.
      + destruct (Qltb (mx - w0) h) eqn:E2.
        * apply Qltb_lt in E2. lra.
        * lra.
    - intros Hj.
      assert (E3 : (mx - mn) / 3 == (mx - mn) * (1 # 3)) by field.
      assert (E4 : 2 * (mx - mn) / 3 == (mx - mn) * (2 # 3)) by field.
      destruct j as [|[|j]]; [| |lia];
        cbn [lookup_total list_lookup_total].
      + set (d := (mx - mn) / 3) in *. clearbody d. split; lra.
      + set (d := 2 * (mx - mn) / 3) in *. clearbody d. split; lra. }
  assert (Emn : minW1 g = fmax2 0 ((v0 x + v1 x - 1) / v0 x))
    by apply tomo_of_minW1.
  assert (Emx : maxW1 g = fmin2 1 (v1 x / v0 x)) by apply tomo_of_maxW1.
  rewrite Emn, Emx in Hin. split; [by rewrite Emn, Emx|]. split; [lra|].
  unfold g in *. rewrite (tomo_of_W2g x j Hj).
  apply W2g_point_inside; [done|lra|lra].
Qed.

End GridInside.

Lemma tomo_grid_inside_witness :
  0 < GibbsDP.W1g (GibbsDP.tomo_of (Vec2 (1 # 2) (9985 # 10000))) !!! 2%nat < 1
  /\ 0 < GibbsDP.W2g (GibbsDP.tomo_of (Vec2 (1 # 2) (9985 # 10000))) !!! 2%nat < 1.
Proof.
  destruct (tomo_grid_inside (Vec2 (1 # 2) (9985 # 10000)) 2) as (_ & H1 & H2).
  - simpl. lra.
  - simpl. lra.
  - vm_compute. lia.
  - split; [exact H1|exact H2].
Defined.

(** ** The cumulated weights of a line *)

Section Cdf.
Import GibbsDP.

Lemma cumulate_gt (ps : list Q) (d : Q) (k : nat) (v : Q) :
  Forall (fun p => 0 < p) ps ->
  fst (cumulate ps d) !! k = Some v -> d < v.
Proof.
  intros Hp. revert d k. induction Hp as [|p ps Hp0 Hp IH]; intros d k Hk;
    simpl in Hk; [done|].
  destruct (cumulate ps (d + p)) as [cum tot] eqn:E. simpl in Hk.
  destruct k as [|k].
  - inversion Hk; subst. lra.
  - simpl in Hk. specialize (IH (d + p) k). rewrite E in IH.
    specialize (IH Hk). lra.
Qed.

Lemma cumulate_mono (ps : list Q) (d : Q) (j k : nat) (vj vk : Q) :
  Forall (fun p => 0 < p) ps -> (j <= k)%nat ->
  fst (cumulate ps d) !! j = Some vj ->
  fst (cumulate ps d) !! k = Some vk -> vj <= vk.
Proof.
  intros Hp. revert d j k. induction Hp as [|p ps Hp0 Hp IH];
    intros d j k Hjk Hj Hk; simpl in Hj, Hk; [done|].
  pose proof (cumulate_gt ps (d + p)) as Hgt.
  destruct (cumulate ps (d + p)) as [cum tot] eqn:E. simpl in *.
  destruct j as [|j]; destruct k as [|k]; simpl in *.
  - inversion Hj; inversion Hk; subst. lra.
  - inversion Hj; subst. specialize (Hgt k vk Hp Hk). lra.
  - lia.
  - specialize (IH (d + p) j k). rewrite E in IH. apply IH; [lia|done|done].
Qed.

Lemma Qdiv_le_compat (x y t : Q) : 0 < t -> x <= y -> x / t <= y / t.
Proof.
  intros Ht Hxy. unfold Qdiv. apply Qmult_le_compat_r; [done|].
  apply Qlt_le_weak, Qinv_lt_0_compat, Ht.
Qed.

Lemma Qdiv_lt_0 (x t : Q) : 0 < t -> 0 < x -> 0 < x / t.
Proof. intros Ht Hx. apply Qlt_shift_div_l; lra. Qed.

(** the cumulated and standardized weights of positive weights: they
    increase, they are positive and the last one is one *)
Lemma standardize_cdf (ps : list Q) :
  ps <> [] -> Forall (fun p => 0 < p) ps ->
  let cum := standardize (cumulate ps 0) in
  length cum = length ps
  /\ (forall j k : nat, (j <= k < length ps)%nat ->
        0 < cum !!! j /\ cum !!! j <= cum !!! k)
  /\ cum !!! (length ps - 1)%nat == 1.
Proof.
  intros Hne Hp cum.
  assert (Hlen : length cum = length ps).
  { unfold cum. by rewrite standardize_length, cumulate_length. }
  assert (Htot : 0 < snd (cumulate ps 0)).
  { rewrite cumulate_total. pose proof (Qsum_pos ps Hne Hp). lra. }
  assert (Hlk : forall k : nat, (k < length ps)%nat ->
            exists v : Q, fst (cumulate ps 0) !! k = Some v
                          /\ cum !!! k = v / snd (cumulate ps 0)).
  { intros k Hk. destruct (cumulate_lookup ps 0 k Hk) as (v & Hv & _).
    exists v. split; [done|]. unfold cum.
    by rewrite list_lookup_total_alt, standardize_lookup, Hv. }
  split; [done|]. split.
  - intros j k [Hjk Hk].
    destruct (Hlk j ltac:(lia)) as (vj & Hvj & ->).
    destruct (Hlk k Hk) as (vk & Hvk & ->). split.
    + apply Qdiv_lt_0; [done|]. by apply (cumulate_gt ps 0 j).
    + apply Qdiv_le_compat; [done|]. by apply (cumulate_mono ps 0 j k).
  - assert (Hl : (length ps - 1 < length ps)%nat).
    { destruct ps; [done|simpl; lia]. }
    destruct (Hlk _ Hl) as (v & Hv & ->).
    rewrite (cumulate_last ps 0 Hne) in Hv. inversion Hv; subst. field. lra.
Qed.

End Cdf.

Section TomoCdf.
Import GibbsDP.
Context {RM : Rmath} {RR : Rrand} {EL : EcoLib}.
Variable a : args.
Hypothesis exp_pos : forall x : Q, 0 < exp x.

Lemma tomo_probs_length (g : tomo) (c : chain) (i : nat) :
  length (tomo_probs a g c i) = n_grid g.
Proof using Type. unfold tomo_probs. by rewrite length_map, length_seq. Qed.

Lemma tomo_probs_pos (g : tomo) (c : chain) (i : nat) :
  Forall (fun p => 0 < p) (tomo_probs a g c i).
Proof using exp_pos.
  unfold tomo_probs. apply Forall_fmap, Forall_forall. intros j _.
  apply exp_pos.
Qed.

(** the last cell of the cumulated weights is one *)
Lemma tomo_cum_last (g : tomo) (c : chain) (i : nat) :
  (0 < n_grid g)%nat ->
  standardize (cumulate (tomo_probs a g c i) 0) !!! (n_grid g - 1)%nat == 1.
Proof using exp_pos.
  intros Hg.
  assert (Hne : tomo_probs a g c i <> []).
  { intros E. pose proof (tomo_probs_length g c i) as Hl.
    rewrite E in Hl. simpl in Hl. lia. }
  pose proof (standardize_cdf _ Hne (tomo_probs_pos g c i)) as H.
  rewrite tomo_probs_length in H. by destruct H as (_ & _ & H).
Qed.

(** X2.  On the line of a unit the cumulated and standardized weights of
    the grid points ([prob_grid_cum] after line 369) are positive, do not
    decrease with the index, and end at one. *)
Theorem tomo_cum_is_cdf (g : tomo) (c : chain) (i : nat) :
  (0 < n_grid g)%nat ->
  let cum := standardize (cumulate (tomo_probs a g c i) 0) in
  length cum = n_grid g
  /\ (forall j k : nat, (j <= k < n_grid g)%nat ->
        0 < cum !!! j /\ cum !!! j <= cum !!! k)
  /\ cum !!! (n_grid g - 1)%nat == 1.
Proof using exp_pos.
  intros Hg cum.
  assert (Hne : tomo_probs a g c i <> []).
  { intros E. pose proof (tomo_probs_length g c i) as Hl.
    rewrite E in Hl. simpl in Hl. lia. }
  pose proof (standardize_cdf _ Hne (tomo_probs_pos g c i)) as H.
  rewrite tomo_probs_length in H. exact H.
Qed.

(** X3.  The draw on a line is the inverse of that distribution function:
    for a uniform draw [u] not above one, the index found is the first
    whose cumulated weight is not below [u]. *)
Theorem tomo_index_inverse_cdf (g : tomo) (c : chain) (i : nat) (u : Q) :
  (0 < n_grid g)%nat -> u <= 1 ->
  let cum := standardize (cumulate (tomo_probs a g c i) 0) in
  let j := tomo_index a g c i u in
  (j < n_grid g)%nat
  /\ u <= cum !!! j
  /\ (forall m : nat, (m < j)%nat -> cum !!! m < u).
Proof using exp_pos.
  intros Hg Hu cum j.
  assert (Hj : (j < n_grid g)%nat) by (by apply tomo_index_lt).
  destruct (tomo_search_exit (n_grid g) u cum (n_grid g) 0 ltac:(lia))
    as [Hstop Hbefore].
  change (tomo_search (n_grid g) u cum (n_grid g) 0) with j in Hstop, Hbefore.
  pose proof (tomo_cum_last g c i Hg) as Hlast.
  fold cum in Hlast.
  split; [done|]. split.
  - apply andb_false_iff in Hstop as [Hstop|Hstop].
    + by apply Qltb_ge in Hstop.
    + apply Nat.ltb_ge in Hstop.
      replace j with (n_grid g - 1)%nat by lia. lra.
  - intros m Hm. specialize (Hbefore m ltac:(lia)).
    apply andb_true_iff in Hbefore as [Hbefore _]. by apply Qltb_lt.
Qed.

End TomoCdf.

(** ** The run never reads past its arrays *)

Section Totality.
Import GibbsDP.
Context {RM : Rmath} {RR : Rrand} {EL : EcoLib}.
Variable a : args.

Lemma update_W_total (c : chain) (r : rng) :
  exists (c' : chain) (r' : rng), update_W a c r = Some (c', r').
Proof using Type.
  destruct (for_loopM_total (fun _ => True) (n_samp a) (update_W_unit a) c r I)
    as (c' & r' & H & _); [|by exists c', r'].
  intros i s1 r1 _ _. unfold update_W_unit, bind.
  destruct (on_tomo_line (X a !!! i)).
  - destruct (draw_W_result a s1 i r1) as (c2 & -> & _). by eexists _, _.
  - by eexists _, _.
Qed.

Lemma update_x1_total (c : chain) (r : rng) :
  exists (c' : chain) (r' : rng), update_x1 a c r = Some (c', r').
Proof using Type.
  unfold update_x1. destruct (x1 a =? 1)%Z; [|by eexists _, _].
  destruct (for_loopM_total (fun _ => True) (x1_samp a) (update_x1_unit a) c r I)
    as (c' & r' & H & _); [|by exists c', r'].
  intros i s1 r1 _ _. unfold update_x1_unit, bind, draw, ret.
  destruct (norm_rand r1). by eexists _, _.
Qed.

Lemma update_x0_total (c : chain) (r : rng) :
  exists (c' : chain) (r' : rng), update_x0 a c r = Some (c', r').
Proof using Type.
  unfold update_x0. destruct (x0 a =? 1)%Z; [|by eexists _, _].
  destruct (for_loopM_total (fun _ => True) (x0_samp a) (update_x0_unit a) c r I)
    as (c' & r' & H & _); [|by exists c', r'].
  intros i s1 r1 _ _.
  destruct (update_x0_unit_cells a i s1 r1) as (c2 & d & -> & _).
  by eexists _, _.
Qed.

Lemma remix_loop_total (fuel : nat) (cells : list (nat * nat)) (c : chain)
    (drawn : list theta) (r : rng) :
  exists (c' : chain) (drawn' : list theta) (r' : rng),
    remix_loop a fuel cells c drawn r = Some ((c', drawn'), r').
Proof using Type.
  revert cells c drawn r. induction fuel as [|fuel IH]; intros cells c drawn r.
  - simpl. by eexists _, _, _.
  - destruct cells as [|[j ix] cells']; [simpl; by eexists _, _, _|].
    cbn [remix_loop].
    destruct (remix_block j ((j, ix) :: cells')) as [label rest].
    destruct (remix_draw_total a (map (fun ix => Wstar c !!! ix) label) r)
      as (th & r1 & Hd).
    unfold bind at 1. rewrite Hd. apply IH.
Qed.

Lemma remix_total (c : chain) (r : rng) :
  exists (c' : chain) (r' : rng), remix a c r = Some (c', r').
Proof using Type.
  unfold remix, remix_trace, bind.
  destruct (remix_loop_total (t_samp a) (remix_cells a c)
              (set_nstar (set_sortC_all c (fst <$> remix_cells a c)) 0) [] r)
    as (c' & drawn & r' & ->).
  by eexists _, _.
Qed.

Lemma store_draws_total (ml : nat) (al : Q) (c : chain) (o : store) (r : rng) :
  exists (o' : store) (r' : rng), store_draws a ml al c o r = Some (o', r').
Proof using Type.
  unfold store_draws. destruct (burn_in a <=? Z.of_nat ml)%Z; [|by eexists _, _].
  destruct (_ =? nth a)%Z; [|by eexists _, _].
  destruct (for_loopM_total (fun _ => True) (n_samp a) (store_unit a c)
              (store_alpha a al (nstar c) (set_itempC o (itempC o + 1))) r I)
    as (o1 & r1 & H & _).
  - intros i s1 r1 _ _. unfold store_unit, store_pred, bind, draw, ret.
    destruct (negb (pred a =? 0)%Z).
    + destruct (rMVN _ _ r1) as [vtemp r2].
      destruct (if (link a =? 1)%Z then _ else _) as [wt1 wt2].
      by eexists _, _.
    + by eexists _, _.
  - unfold bind. rewrite H. by eexists _, _.
Qed.

Lemma init_thetas_total (n : nat) (r : rng) :
  exists (ths : list theta) (r' : rng), init_thetas a n r = Some (ths, r').
Proof using Type.
  revert r. induction n as [|n IH]; intros r; simpl; [by eexists _, _|].
  unfold bind at 1. unfold init_theta, bind, draw, ret.
  destruct (rWish _ _ r) as [IS r1]. destruct (rMVN _ _ r1) as [m r2].
  destruct (IH r2) as (ths & r3 & ->). by eexists _, _.
Qed.

Hypothesis dMVN_pos :
  forall (y m : list Q) (Si : list (list Q)) (d : nat), 0 < dMVN y m Si d false.
Hypothesis dMVT_pos :
  forall (y m : list Q) (Si : list (list Q)) (nu : Z) (d : nat),
    0 < dMVT y m Si nu d false.
Hypothesis unif_lt_1 : forall r : rng, fst (unif_rand r) < 1.
Hypothesis rgamma_pos : forall (sh sc : Q) (r : rng), 0 < fst (rgamma sh sc r).

Lemma sweep_total (al : Q) (c : chain) (r : rng) :
  0 < al ->
  exists (c' : chain) (r' : rng), sweep a al c r = Some (c', r').
Proof using dMVN_pos dMVT_pos unif_lt_1.
  intros Hal.
  destruct (for_loopM_total (fun _ => True) (t_samp a) (sweep_unit a al) c r I)
    as (c' & r' & H & _); [|by exists c', r'].
  intros i s1 r1 Hi _. unfold sweep_unit, bind at 1, draw.
  destruct (unif_rand r1) as [u r2] eqn:Eu.
  pose proof (unif_lt_1 r1) as Hu. rewrite Eu in Hu. simpl in Hu.
  destruct (urn_qq_last a dMVN_pos dMVT_pos al s1 i Hal ltac:(lia))
    as (v & Hv & Hv1).
  destruct (urn_search_total u (urn_qq a al s1 i) 0 _ v Hv ltac:(lra))
    as [j ->].
  unfold bind, ret. destruct (j =? i)%nat.
  - unfold urn_new, bind, draw, ret.
    destruct (rWish _ _ r2) as [IS r3]. destruct (rMVN _ _ r3) as [m r4].
    by eexists _, _.
  - by eexists _, _.
Qed.

Lemma update_alpha_pos (al : Q) (ns : nat) (r : rng) :
  0 < al ->
  exists (al' : Q) (r' : rng),
    update_alpha a al ns r = Some (al', r') /\ 0 < al'.
Proof using rgamma_pos.
  intros Hal. unfold update_alpha.
  destruct (negb (pinUpdate a =? 0)%Z); [|by eexists _, _].
  unfold bind, draw.
  destruct (rbeta _ _ r) as [be r1]. destruct (unif_rand r1) as [u r2].
  destruct (Qltb u _).
  - pose proof (rgamma_pos (a0 a + inject_Z (Z.of_nat ns))
                  (1 / (b0 a - log be)) r2) as Hg.
    destruct (rgamma _ _ r2) as [g r3]. by exists g, r3.
  - pose proof (rgamma_pos (a0 a + inject_Z (Z.of_nat ns) - 1)
                  (1 / (b0 a - log be)) r2) as Hg.
    destruct (rgamma _ _ r2) as [g r3]. by exists g, r3.
Qed.

(** the sampler returns *)
Lemma run_total (n : nat) (o : store) (r : rng) :
  exists (s : state) (r' : rng), run a n o r = Some (s, r').
Proof using dMVN_pos dMVT_pos unif_lt_1 rgamma_pos.
  assert (H : exists (s : state) (r' : rng),
            run a n o r = Some (s, r') /\ 0 < alpha s).
  { unfold run, init_state, init_chain.
    destruct (init_thetas_total (t_samp a) r) as (ths & r0 & Hths).
    unfold bind at 1 2 3. rewrite Hths. unfold ret at 2 1.
    apply (for_loopM_total (fun s => 0 < alpha s)); [simpl; lra|].
    intros ml s1 r1 _ Hal. unfold main_loop_body.
    destruct (update_W_total (ch s1) r1) as (c1 & q1 & H1).
    destruct (update_x1_total c1 q1) as (c2 & q2 & H2).
    destruct (update_x0_total c2 q2) as (c3 & q3 & H3).
    destruct (sweep_total (alpha s1) c3 q3 Hal) as (c4 & q4 & H4).
    destruct (remix_total c4 q4) as (c5 & q5 & H5).
    destruct (update_alpha_pos (alpha s1) (nstar c5) q5 Hal)
      as (al & q6 & H6 & Hal').
    destruct (store_draws_total ml al c5 (out s1) q6) as (o1 & q7 & H7).
    exists {| ch := c5; alpha := al; out := o1 |}, q7. split; [|done].
    unfold bind. by rewrite H1, H2, H3, H4, H5, H6, H7. }
  destruct H as (s & r' & H & _). by exists s, r'.
Qed.

(** X4.  With positive densities, uniform draws below one and positive
    gamma draws, the sampler returns after any number of turns of the main
    loop: the search of the urn, the only loop without a bound, never
    leaves the array [qq].  Moreover [alpha] is positive after every
    turn. *)
Theorem run_returns (n : nat) (o : store) (r : rng) :
  exists (s : state) (r' : rng), run a n o r = Some (s, r') /\ 0 < alpha s.
Proof using dMVN_pos dMVT_pos unif_lt_1 rgamma_pos.
  unfold run, init_state, init_chain.
  destruct (init_thetas_total (t_samp a) r) as (ths & r0 & Hths).
  unfold bind at 1 2 3. rewrite Hths. unfold ret at 2 1.
  apply (for_loopM_total (fun s => 0 < alpha s)); [simpl; lra|].
  intros ml s1 r1 _ Hal. unfold main_loop_body.
  destruct (update_W_total (ch s1) r1) as (c1 & q1 & H1).
  destruct (update_x1_total c1 q1) as (c2 & q2 & H2).
  destruct (update_x0_total c2 q2) as (c3 & q3 & H3).
  destruct (sweep_total (alpha s1) c3 q3 Hal) as (c4 & q4 & H4).
  destruct (remix_total c4 q4) as (c5 & q5 & H5).
  destruct (update_alpha_pos (alpha s1) (nstar c5) q5 Hal)
    as (al & q6 & H6 & Hal').
  destruct (store_draws_total ml al c5 (out s1) q6) as (o1 & q7 & H7).
  exists {| ch := c5; alpha := al; out := o1 |}, q7. split; [|done].
  unfold bind. by rewrite H1, H2, H3, H4, H5, H6, H7.
Qed.

End Totality.

(** ** The number of clusters *)

Section ClusterCount.
Import GibbsDP.
Context {RM : Rmath} {RR : Rrand} {EL : EcoLib}.
Variable a : args.

(** every block of the remixing adds one to [nstar] and takes at least one
    cell *)
Lemma remix_loop_nstar (fuel : nat) (cells : list (nat * nat)) (c c' : chain)
    (drawn drawn' : list theta) (r r' : rng) :
  remix_loop a fuel cells c drawn r = Some ((c', drawn'), r') ->
  (nstar c' <= nstar c + length cells)%nat.
Proof using Type.
  revert cells c drawn r. induction fuel as [|fuel IH];
    intros cells c drawn r Hrun.
  - simpl in Hrun. apply ret_Some in Hrun as [[= -> ->] _]. lia.
  - simpl in Hrun. destruct cells as [|[j ix0] cells'].
    + apply ret_Some in Hrun as [[= -> ->] _]. lia.
    + pose proof (remix_block_split j ((j, ix0) :: cells')) as Hsplit.
      destruct (remix_block_head j ix0 cells') as [label' Hhead].
      destruct (remix_block j ((j, ix0) :: cells')) as [label rest] eqn:Eb.
      simpl in Hhead. subst label. destruct Hsplit as [_ Hlen].
      apply bind_Some in Hrun as (th & r1 & _ & Hrun).
      apply IH in Hrun. unfold set_nstar in Hrun. cbn [nstar] in Hrun.
      destruct (remix_assign_W th (ix0 :: label') c) as (_ & _ & Hn).
      rewrite Hn in Hrun. simpl in Hlen. simpl. lia.
Qed.

Hypothesis qsort_perm :
  forall iv I : list nat, length iv = length I ->
    zip (fst (R_qsort_int_I iv I)) (snd (R_qsort_int_I iv I)) ≡ₚ zip iv I.

(** the state a turn of the main loop hands to the remixing step has
    arrays of [t_samp] cells, and the state after the turn is the one the
    remixing step returns *)
Lemma run_before_remix (n : nat) (o : store) (r r' : rng) (s : state) :
  (forall k : nat, length (intArray k) = k) ->
  run a (S n) o r = Some (s, r') ->
  exists (c : chain) (r1 r2 : rng),
    sized (t_samp a) c /\ length (sortC c) = t_samp a
    /\ remix a c r1 = Some (ch s, r2).
Proof using qsort_perm.
  intros Halloc Hrun. unfold run in Hrun.
  apply bind_Some in Hrun as (s0 & r0 & Hs0 & Hrun).
  unfold init_state in Hs0.
  apply bind_Some in Hs0 as (c0 & q0 & Hc0 & Hs0).
  apply ret_Some in Hs0 as [-> _].
  apply (init_chain_sized _ _ _ _ Halloc) in Hc0.
  rewrite for_loopM_S in Hrun.
  apply bind_Some in Hrun as (s1 & q1 & Hloop & Hstep).
  assert (Hs1 : sized (t_samp a) (ch s1) /\ length (sortC (ch s1)) = t_samp a).
  { apply (for_loopM_inv (fun s => sized (t_samp a) (ch s)
                                   /\ length (sortC (ch s)) = t_samp a))
      in Hloop; [done|done|].
    intros ml s2 s3 r3 r4 _ Hs2 Hb. unfold main_loop_body in Hb.
    apply bind_Some in Hb as (c1 & p1 & H1 & Hb).
    apply bind_Some in Hb as (c2 & p2 & H2 & Hb).
    apply bind_Some in Hb as (c3 & p3 & H3 & Hb).
    apply bind_Some in Hb as (c4 & p4 & H4 & Hb).
    apply bind_Some in Hb as (c5 & p5 & H5 & Hb).
    apply bind_Some in Hb as (al & p6 & _ & Hb).
    apply bind_Some in Hb as (o1 & p7 & _ & Hb).
    apply ret_Some in Hb as [-> _]. simpl.
    apply (update_W_sized _ _ _ _ _ _ Hs2) in H1.
    apply (update_x1_sized _ _ _ _ _ _ H1) in H2.
    apply (update_x0_sized _ _ _ _ _ _ H2) in H3.
    apply (sweep_sized _ _ _ _ _ _ _ H3) in H4 as [H4 H4'].
    destruct (remix_trace_spec a qsort_perm c4 p4 H4 H4')
      as (c' & drawn & q' & Hr & Hsz' & Hso' & _).
    unfold remix, bind in H5. rewrite Hr in H5.
    apply ret_Some in H5 as [-> _]. done. }
  unfold main_loop_body in Hstep.
  apply bind_Some in Hstep as (c1 & p1 & H1 & Hstep).
  apply bind_Some in Hstep as (c2 & p2 & H2 & Hstep).
  apply bind_Some in Hstep as (c3 & p3 & H3 & Hstep).
  apply bind_Some in Hstep as (c4 & p4 & H4 & Hstep).
  apply bind_Some in Hstep as (c5 & p5 & H5 & Hstep).
  apply bind_Some in Hstep as (al & p6 & _ & Hstep).
  apply bind_Some in Hstep as (o1 & p7 & _ & Hstep).
  apply ret_Some in Hstep as [-> _]. simpl.
  apply (update_W_sized _ _ _ _ _ _ Hs1) in H1.
  apply (update_x1_sized _ _ _ _ _ _ H1) in H2.
  apply (update_x0_sized _ _ _ _ _ _ H2) in H3.
  apply (sweep_sized _ _ _ _ _ _ _ H3) in H4 as [H4 H4'].
  by exists c4, p4, p5.
Qed.

(** X5.  After every turn of the main loop [nstar], the number of
    distinct values, is at least one and at most [t_samp], for a sample
    that is not empty. *)
Theorem nstar_range (n : nat) (o : store) (r r' : rng) (s : state) :
  (forall k : nat, length (intArray k) = k) ->
  (0 < t_samp a)%nat ->
  run a (S n) o r = Some (s, r') ->
  (1 <= nstar (ch s) <= t_samp a)%nat.
Proof using qsort_perm.
  intros Halloc Ht Hrun.
  destruct (run_before_remix n o r r' s Halloc Hrun)
    as (c & r1 & r2 & Hsz & Hl & Hremix).
  destruct (remix_trace_spec a qsort_perm c r1 Hsz Hl)
    as (c' & drawn & q' & Hr & _ & _ & Hn & Hunits & _).
  unfold remix, bind in Hremix. rewrite Hr in Hremix.
  apply ret_Some in Hremix as [E _]. simpl in E. rewrite E. split.
  - destruct (Hunits 0%nat Ht) as (k & _ & Hk & _). lia.
  - unfold remix_trace in Hr. apply remix_loop_nstar in Hr. simpl in Hr.
    assert (Hlen : length (remix_cells a c) = t_samp a).
    { pose proof (remix_cells_perm a qsort_perm c Hl) as Hperm.
      apply Permutation_length in Hperm.
      by rewrite length_fmap, length_seq in Hperm. }
    lia.
Qed.

End ClusterCount.

(** ** The remixing step keeps the clusters *)

Section Partition.
Import GibbsDP.
Context {RM : Rmath} {RR : Rrand} {EL : EcoLib}.
Variable a : args.

(** the cells of a block are the leading cells with the label of the
    block *)
Lemma remix_block_cells (j : nat) (cells : list (nat * nat)) :
  exists blk : list (nat * nat),
    cells = blk ++ snd (remix_block j cells)
    /\ fst (remix_block j cells) = snd <$> blk
    /\ (forall cell : nat * nat, cell ∈ blk -> fst cell = j)
    /\ (forall (cell : nat * nat) (rest' : list (nat * nat)),
          snd (remix_block j cells) = cell :: rest' -> fst cell <> j).
Proof using Type.
  induction cells as [|[cj ix] cells IH]; simpl.
  - exists []. repeat split; try done. intros cell Hin. by apply elem_of_nil in Hin.
  - destruct (Nat.eqb_spec cj j) as [->|Hne].
    + destruct IH as (blk & Hc & Hl & Hk & Hr).
      destruct (remix_block j cells) as [label rest]. simpl in *.
      exists ((j, ix) :: blk). split; [by rewrite Hc at 1|].
      split; [by rewrite Hl|]. split; [|done].
      intros cell Hin. apply elem_of_cons in Hin as [->|Hin]; [done|by apply Hk].
    + exists []. simpl. split; [done|]. split; [done|]. split.
      * intros cell Hin. by apply elem_of_nil in Hin.
      * intros cell rest' [= <- <-]. done.
Qed.

Lemma remix_loop_ordered (key : nat -> nat) (t fuel : nat)
    (cells : list (nat * nat)) (c c' : chain) (drawn drawn' : list theta)
    (r r' : rng) (done : list nat) :
  (length cells <= fuel)%nat ->
  NoDup (done ++ (snd <$> cells)) ->
  (forall ix : nat, ix ∈ snd <$> cells -> (ix < t)%nat) ->
  sized t c ->
  StronglySorted le (fst <$> cells) ->
  (forall cell : nat * nat, cell ∈ cells -> fst cell = key (snd cell)) ->
  (forall (ix : nat) (cell : nat * nat),
      ix ∈ done -> cell ∈ cells -> (key ix < fst cell)%nat) ->
  ordered key done c ->
  remix_loop a fuel cells c drawn r = Some ((c', drawn'), r') ->
  ordered key (done ++ (snd <$> cells)) c'.
Proof using Type.
  revert cells c drawn r done.
  induction fuel as [|fuel IH];
    intros cells c drawn r done Hf Hnd Hlt Hsz Hsort Hkey Hsep Hord Hrun.
  - destruct cells; [|simpl in Hf; lia]. simpl in Hrun.
    apply ret_Some in Hrun as [[= -> ->] _]. by rewrite app_nil_r.
  - destruct cells as [|[j ix0] cells'].
    { simpl in Hrun. apply ret_Some in Hrun as [[= -> ->] _].
      by rewrite app_nil_r. }
    cbn [remix_loop] in Hrun.
    pose proof (remix_block_split j ((j, ix0) :: cells')) as Hsplit.
    destruct (remix_block_head j ix0 cells') as [label' Hhead].
    destruct (remix_block_cells j ((j, ix0) :: cells'))
      as (blk & Hcells & Hlab & Hblk & Hrest).
    destruct (remix_block j ((j, ix0) :: cells')) as [label rest] eqn:Eb.
    simpl in Hhead, Hcells, Hlab, Hrest. destruct Hsplit as [Hsnd Hlen].
    apply bind_Some in Hrun as (th & r1 & _ & Hrun).
    rewrite Hsnd in Hnd, Hlt.
    assert (Hlabt : forall ix : nat, ix ∈ label -> (ix < t)%nat).
    { intros ix Hin. apply Hlt. apply elem_of_app. by left. }
    destruct (remix_assign_spec t th label c Hsz Hlabt)
      as (Hsz1 & Hn1 & Hin1 & Hout1).
    assert (Hdisj : forall ix : nat, ix ∈ done -> ix ∉ label).
    { intros ix Hd Hl. apply NoDup_app in Hnd as (_ & Hnd & _).
      apply (Hnd ix Hd). apply elem_of_app. by left. }
    assert (Hlabkey : forall ix : nat, ix ∈ label -> key ix = j).
    { intros ix Hin. rewrite Hlab in Hin.
      apply list_elem_of_fmap in Hin as (cell & -> & Hcell).
      rewrite <- (Hkey cell); [by apply Hblk|].
      rewrite Hcells. apply elem_of_app. by left. }
    assert (Hj0 : (j, ix0) ∈ blk).
    { destruct blk as [|b blk'].
      - simpl in Hlab. rewrite Hhead in Hlab. done.
      - simpl in Hcells. inversion Hcells; subst. left. }
    rewrite Hcells, fmap_app in Hsort.
    assert (Hrestgt : forall cell : nat * nat, cell ∈ rest -> (j < fst cell)%nat).
    { intros cell Hin.
      assert (Hge : forall d : nat * nat, d ∈ rest -> (j <= fst d)%nat).
      { intros d Hd.
        apply (StronglySorted_app_1_elem_of le _ _ j (fst d) Hsort).
        - apply list_elem_of_fmap. by exists (j, ix0).
        - apply list_elem_of_fmap. by exists d. }
      destruct rest as [|hd rest']; [by apply elem_of_nil in Hin|].
      assert (Hhd : (j < fst hd)%nat).
      { specialize (Hrest hd rest' eq_refl). specialize (Hge hd ltac:(left)).
        lia. }
      apply elem_of_cons in Hin as [->|Hin]; [done|].
      apply StronglySorted_app_1_r in Hsort.
      rewrite fmap_cons in Hsort.
      apply StronglySorted_cons in Hsort as [Hall _].
      rewrite Forall_forall in Hall.
      specialize (Hall (fst cell)).
      assert (fst cell ∈ fst <$> rest').
      { apply list_elem_of_fmap. by exists cell. }
      specialize (Hall H). lia. }
    set (c2 := set_nstar (remix_assign th label c)
                 (S (nstar (remix_assign th label c)))) in *.
    assert (Hc2n : nstar c2 = S (nstar c)) by (unfold c2; by rewrite <- Hn1).
    assert (Hc2C : C c2 = C (remix_assign th label c)) by done.
    assert (Hsz2 : sized t c2) by done.
    clearbody c2.
    rewrite Hsnd, app_assoc.
    apply (IH rest c2 (drawn ++ [th]) r1 (done ++ label)); try done.
    + simpl in Hlen, Hf. rewrite Hhead in Hlen. simpl in Hlen. lia.
    + by rewrite <- app_assoc.
    + intros ix Hin. apply Hlt. apply elem_of_app. by right.
    + by apply StronglySorted_app_1_r in Hsort.
    + intros cell Hin. apply Hkey. rewrite Hcells. apply elem_of_app. by right.
    + intros ix cell Hin Hcell. apply elem_of_app in Hin as [Hin|Hin].
      * apply Hsep; [done|]. rewrite Hcells. apply elem_of_app. by right.
      * rewrite (Hlabkey ix Hin). by apply Hrestgt.
    + destruct Hord as [Hlabs Hpairs]. split.
      * intros ix Hin. rewrite Hc2C, Hc2n.
        apply elem_of_app in Hin as [Hin|Hin].
        -- destruct (Hout1 ix (Hdisj ix Hin)) as [-> _].
           destruct (Hlabs ix Hin) as (l & Hl & Hlt'). exists l. split; [done|lia].
        -- destruct (Hin1 ix Hin) as [-> _]. exists (nstar c). split; [done|lia].
      * intros ix1 ix2 l1 l2 H1 H2. rewrite Hc2C.
        apply elem_of_app in H1 as [H1|H1]; apply elem_of_app in H2 as [H2|H2].
        -- destruct (Hout1 ix1 (Hdisj ix1 H1)) as [-> _].
           destruct (Hout1 ix2 (Hdisj ix2 H2)) as [-> _].
           by apply Hpairs.
        -- destruct (Hout1 ix1 (Hdisj ix1 H1)) as [-> _].
           destruct (Hin1 ix2 H2) as [-> _]. intros Hl1 [= <-].
           destruct (Hlabs ix1 H1) as (l & Hl & Hlt').
           rewrite Hl in Hl1. inversion Hl1; subst.
           pose proof (Hsep ix1 (j, ix0) H1 ltac:(left)) as Hk. simpl in Hk.
           rewrite (Hlabkey ix2 H2). split; [done|lia].
        -- destruct (Hin1 ix1 H1) as [-> _].
           destruct (Hout1 ix2 (Hdisj ix2 H2)) as [-> _]. intros [= <-] Hl2.
           pose proof (Hsep ix2 (j, ix0) H2 ltac:(left)) as Hk. simpl in Hk.
           rewrite (Hlabkey ix1 H1). split; lia.
        -- destruct (Hin1 ix1 H1) as [-> _]. destruct (Hin1 ix2 H2) as [-> _].
           intros [= <-] [= <-].
           rewrite (Hlabkey ix1 H1), (Hlabkey ix2 H2). split; [lia|done].
Qed.

(** the turn of unit [j] in the urn leaves [sortC[j] = C[j]] and changes
    no other cell of the two arrays *)
Lemma sweep_unit_sortC (t : nat) (al : Q) (j : nat) (c c' : chain) (r r' : rng) :
  sized t c -> length (sortC c) = t -> (j < t)%nat ->
  sweep_unit a al j c r = Some (c', r') ->
  (sized t c' /\ length (sortC c') = t)
  /\ sortC c' !! j = C c' !! j
  /\ (forall i : nat, i <> j ->
        sortC c' !! i = sortC c !! i /\ C c' !! i = C c !! i).
Proof using Type.
  intros (Hm & Hs & His & Hc) Hso Hj Hstep. unfold sweep_unit in Hstep.
  apply bind_Some in Hstep as (u & r3 & _ & Hstep).
  destruct (urn_search u _ 0) as [k|]; [|done].
  apply bind_Some in Hstep as (c1 & r4 & H1 & H2).
  apply ret_Some in H2 as [-> _].
  assert (HC : (exists v : nat, C c1 = <[j := v]> (C c))
               /\ sortC c1 = sortC c /\ sized t c1).
  { destruct (k =? j)%nat.
    - unfold urn_new in H1.
      apply bind_Some in H1 as (IS & r5 & _ & H1).
      apply bind_Some in H1 as (m & r6 & _ & H1).
      apply ret_Some in H1 as [-> _]. unfold sized. simpl.
      rewrite !length_insert. split; [by eexists|done].
    - apply ret_Some in H1 as [-> _]. unfold sized. simpl.
      rewrite !length_insert. split; [by eexists|done]. }
  destruct HC as ([v HC] & HS & Hsz1). unfold set_sortC, sized. cbn [sortC C mu Sigma InvSigma].
  rewrite HS, HC. rewrite !length_insert. split.
  { destruct Hsz1 as (? & ? & ? & Hc1). rewrite HC, length_insert in Hc1. done. }
  split.
  - rewrite list_lookup_insert_eq by lia.
    rewrite list_lookup_total_insert_eq by lia.
    by rewrite list_lookup_insert_eq by lia.
  - intros i Hne. by rewrite !list_lookup_insert_ne.
Qed.

(** after the urn every cell of [sortC] holds the label of its unit *)
Lemma sweep_sortC (al : Q) (c c' : chain) (r r' : rng) :
  sized (t_samp a) c -> length (sortC c) = t_samp a ->
  sweep a al c r = Some (c', r') ->
  forall i : nat, (i < t_samp a)%nat -> sortC c' !! i = C c' !! i.
Proof using Type.
  intros Hsz Hso Hrun. unfold sweep in Hrun.
  apply (for_loopM_inv_idx
           (fun k s => (sized (t_samp a) s /\ length (sortC s) = t_samp a)
                       /\ forall i : nat, (i < k)%nat -> sortC s !! i = C s !! i))
    in Hrun.
  - by destruct Hrun as [_ H].
  - split; [done|]. intros i Hi. lia.
  - intros j s1 s2 r1 r2 Hj [[Hsz1 Hso1] Heq] Hstep.
    destruct (sweep_unit_sortC _ _ _ _ _ _ _ Hsz1 Hso1 Hj Hstep)
      as (Hsz2 & Hjj & Hother).
    split; [done|]. intros i Hi.
    destruct (decide (i = j)) as [->|Hne]; [done|].
    destruct (Hother i Hne) as [-> ->]. apply Heq. lia.
Qed.

Lemma Forall_fst_zip {A B : Type} (P : A -> Prop) (l : list A) (k : list B) :
  Forall P l -> Forall P (fst <$> zip l k).
Proof using Type.
  intros H. revert k. induction H as [|x l Hx _ IH]; intros [|y k]; simpl;
    try constructor; auto.
Qed.

Lemma StronglySorted_fst_zip {B : Type} (l : list nat) (k : list B) :
  StronglySorted le l -> StronglySorted le (fst <$> zip l k).
Proof using Type.
  intros H. revert k. induction H as [|x l _ IH Hx]; intros [|y k]; simpl;
    try constructor; auto. by apply Forall_fst_zip.
Qed.

Hypothesis qsort_perm :
  forall iv I : list nat, length iv = length I ->
    zip (fst (R_qsort_int_I iv I)) (snd (R_qsort_int_I iv I)) ≡ₚ zip iv I.
Hypothesis qsort_sorted :
  forall iv I : list nat, length iv = length I ->
    StronglySorted le (fst (R_qsort_int_I iv I)).

(** the cells the remixing works on: sorted by label, and every cell
    holds a unit with the label [sortC] has for it *)
Lemma remix_cells_sorted (c : chain) :
  length (sortC c) = t_samp a ->
  StronglySorted le (fst <$> remix_cells a c)
  /\ (forall cell : nat * nat, cell ∈ remix_cells a c ->
        sortC c !! snd cell = Some (fst cell)).
Proof using qsort_perm qsort_sorted.
  intros Hl. unfold remix_cells.
  pose proof (qsort_perm (sortC c) (seq 0 (t_samp a))) as Hp.
  pose proof (qsort_sorted (sortC c) (seq 0 (t_samp a))) as Hs.
  destruct (R_qsort_int_I (sortC c) (seq 0 (t_samp a))) as [sc ic].
  simpl in Hp, Hs. split.
  - apply StronglySorted_fst_zip, Hs. by rewrite length_seq.
  - intros cell Hin. rewrite Hp in Hin by (by rewrite length_seq).
    apply elem_of_lookup_zip_with_1 in Hin as (i & x & y & -> & Hx & Hy).
    apply lookup_seq in Hy as [-> _]. done.
Qed.

(** X6.  The remixing step renames the clusters and keeps them: two units
    have the same label after it exactly when the urn left them the same
    label, and the new labels are in the order of the old ones. *)
Theorem remix_keeps_clusters (al : Q) (c c1 c2 : chain) (r r1 r2 : rng)
    (i1 i2 : nat) :
  sized (t_samp a) c -> length (sortC c) = t_samp a ->
  sweep a al c r = Some (c1, r1) ->
  remix a c1 r1 = Some (c2, r2) ->
  (i1 < t_samp a)%nat -> (i2 < t_samp a)%nat ->
  ((C c1 !!! i1 < C c1 !!! i2)%nat -> (C c2 !!! i1 < C c2 !!! i2)%nat)
  /\ (C c1 !!! i1 = C c1 !!! i2 <-> C c2 !!! i1 = C c2 !!! i2).
Proof using qsort_perm qsort_sorted.
  intros Hsz Hso Hsweep Hremix Hi1 Hi2.
  pose proof (sweep_sortC al c c1 r r1 Hsz Hso Hsweep) as Heq.
  destruct (sweep_sized a _ al c c1 r r1 (conj Hsz Hso) Hsweep) as [Hsz1 Hso1].
  destruct (remix_cells_sorted c1 Hso1) as [Hsorted Hcells].
  pose proof (remix_cells_perm a qsort_perm c1 Hso1) as Hperm.
  unfold remix in Hremix.
  apply bind_Some in Hremix as ([c' drawn] & q & Htrace & Hret).
  apply ret_Some in Hret as [E _]. simpl in E. subst c'.
  unfold remix_trace in Htrace.
  set (cells := remix_cells a c1) in *.
  assert (Hlen : length cells = t_samp a).
  { apply Permutation_length in Hperm.
    by rewrite length_fmap, length_seq in Hperm. }
  assert (Hkey : forall i : nat, (i < t_samp a)%nat ->
            C c1 !! i = Some (C c1 !!! i) /\ sortC c1 !! i = Some (C c1 !!! i)).
  { intros i Hi. rewrite (Heq i Hi).
    destruct Hsz1 as (_ & _ & _ & HC).
    split; apply list_lookup_lookup_total_lt; lia. }
  apply (remix_loop_ordered (fun ix => C c1 !!! ix) (t_samp a) _ _ _ _ _ _ _ _ [])
    in Htrace.
  - simpl in Htrace. destruct Htrace as [Hlabs Hpairs].
    assert (Hin : forall i : nat, (i < t_samp a)%nat -> i ∈ snd <$> cells).
    { intros i Hi. rewrite Hperm. apply elem_of_seq. lia. }
    destruct (Hlabs i1 (Hin i1 Hi1)) as (l1 & Hl1 & _).
    destruct (Hlabs i2 (Hin i2 Hi2)) as (l2 & Hl2 & _).
    rewrite (list_lookup_total_correct _ _ _ Hl1).
    rewrite (list_lookup_total_correct _ _ _ Hl2).
    destruct (Hpairs i1 i2 l1 l2 (Hin i1 Hi1) (Hin i2 Hi2) Hl1 Hl2) as [Hlt12 He12].
    destruct (Hpairs i2 i1 l2 l1 (Hin i2 Hi2) (Hin i1 Hi1) Hl2 Hl1) as [Hlt21 _].
    split; [done|]. split; [done|]. intros E.
    destruct (Nat.lt_trichotomy (C c1 !!! i1) (C c1 !!! i2)) as [H|[H|H]];
      [apply Hlt12 in H; lia|done|apply Hlt21 in H; lia].
  - lia.
  - simpl. rewrite Hperm. apply NoDup_seq.
  - intros ix Hix. rewrite Hperm in Hix. apply elem_of_seq in Hix. lia.
  - done.
  - done.
  - intros cell Hin. pose proof (Hcells cell Hin) as Hc.
    assert (Hlt : (snd cell < t_samp a)%nat).
    { apply lookup_lt_Some in Hc. lia. }
    destruct (Hkey (snd cell) Hlt) as [_ Hk]. rewrite Hk in Hc. by inversion Hc.
  - intros ix cell Hix. by apply elem_of_nil in Hix.
  - split.
    + intros ix Hix. by apply elem_of_nil in Hix.
    + intros ix1 ix2 l1 l2 Hix. by apply elem_of_nil in Hix.
Qed.

End Partition.

(** ** The stand-ins meet the assumptions on the routines *)

Lemma demo_exp_pos (x : Q) : 0 < exp x.
Proof.
  cbn [exp Demo.rmath]. unfold Demo.exp_q. rewrite Qred_correct.
  destruct (Qltb x 0) eqn:E.
  - apply Qltb_lt in E. apply Qlt_shift_div_l; lra.
  - apply Qltb_ge in E. lra.
Qed.

Lemma demo_unif_q_range (r : nat) : 0 < Demo.unif_q r < 1.
Proof.
  unfold Demo.unif_q.
  destruct (r mod 4)%nat as [|[|[|n]]]; split; reflexivity.
Qed.

Lemma demo_unif_lt_1 (r : nat) : fst (unif_rand (Rrand := Demo.rrand) r) < 1.
Proof. apply demo_unif_q_range. Qed.

Lemma demo_rgamma_pos (sh sc : Q) (r : nat) :
  0 < fst (rgamma (Rrand := Demo.rrand) sh sc r).
Proof.
  cbn [rgamma Demo.rrand fst]. rewrite Qred_correct.
  pose proof (Qabs_nonneg (sh * sc)). lra.
Qed.

Lemma demo_insert_cell_sorted (c : nat * nat) (cells : list (nat * nat)) :
  StronglySorted le (fst <$> cells) ->
  StronglySorted le (fst <$> Demo.insert_cell c cells).
Proof.
  induction cells as [|d cells IH]; simpl; intros Hs.
  - repeat constructor.
  - apply StronglySorted_cons in Hs as [Hall Hs].
    destruct (Nat.ltb_spec (fst c) (fst d)) as [Hlt|Hge].
    + rewrite fmap_cons. apply StronglySorted_cons. split.
      * constructor; [lia|]. eapply Forall_impl; [exact Hall|].
        intros x Hx. simpl in Hx. lia.
      * apply StronglySorted_cons. done.
    + rewrite fmap_cons. apply StronglySorted_cons. split; [|by apply IH].
      rewrite (demo_insert_cell_perm c cells). constructor; [done|done].
Qed.

Lemma demo_sort_cells_sorted (cells : list (nat * nat)) :
  StronglySorted le (fst <$> Demo.sort_cells cells).
Proof.
  unfold Demo.sort_cells.
  assert (H : forall acc : list (nat * nat),
    StronglySorted le (fst <$> acc) ->
    StronglySorted le
      (fst <$> fold_left (fun acc c => Demo.insert_cell c acc) cells acc)).
  { induction cells as [|c cells IH]; intros acc Hacc; simpl; [done|].
    apply IH. by apply demo_insert_cell_sorted. }
  apply H. constructor.
Qed.

Lemma demo_qsort_sorted (iv I : list nat) :
  length iv = length I ->
  StronglySorted le (fst (R_qsort_int_I iv I)).
Proof. intros _. cbn [R_qsort_int_I Demo.ecolib fst]. apply demo_sort_cells_sorted. Qed.

Lemma demo_intArray_length (k : nat) : length (intArray k) = k.
Proof. apply length_replicate. Qed.

(** ** The properties above on the five units *)

Lemma tomo_cum_is_cdf_witness :
  let g := GibbsDP.tomo_of (GibbsDP.X (Demo.args5 0) !!! 0%nat) in
  let cum := GibbsDP.standardize
               (GibbsDP.cumulate (GibbsDP.tomo_probs (Demo.args5 0) g Demo.chain5 0) 0) in
  (0 < GibbsDP.n_grid g)%nat
  /\ length cum = GibbsDP.n_grid g
  /\ (forall j k : nat, (j <= k < GibbsDP.n_grid g)%nat ->
        0 < cum !!! j /\ cum !!! j <= cum !!! k)
  /\ cum !!! (GibbsDP.n_grid g - 1)%nat == 1.
Proof.
  intros g cum.
  assert (Hg : (0 < GibbsDP.n_grid g)%nat) by (vm_compute; lia).
  split; [exact Hg|].
  exact (tomo_cum_is_cdf (Demo.args5 0) demo_exp_pos g Demo.chain5 0 Hg).
Defined.

Lemma tomo_index_inverse_cdf_witness :
  let g := GibbsDP.tomo_of (GibbsDP.X (Demo.args5 0) !!! 0%nat) in
  let cum := GibbsDP.standardize
               (GibbsDP.cumulate (GibbsDP.tomo_probs (Demo.args5 0) g Demo.chain5 0) 0) in
  let j := GibbsDP.tomo_index (Demo.args5 0) g Demo.chain5 0 (3 # 4) in
  (0 < GibbsDP.n_grid g)%nat /\ (3 # 4) <= 1
  /\ (j < GibbsDP.n_grid g)%nat
  /\ (3 # 4) <= cum !!! j
  /\ (forall m : nat, (m < j)%nat -> cum !!! m < 3 # 4).
Proof.
  intros g cum j.
  assert (Hg : (0 < GibbsDP.n_grid g)%nat) by (vm_compute; lia).
  assert (Hu : (3 # 4) <= 1) by lra.
  split; [exact Hg|]. split; [exact Hu|].
  exact (tomo_index_inverse_cdf (Demo.args5 0) demo_exp_pos g Demo.chain5 0
           (3 # 4) Hg Hu).
Defined.

Lemma run_returns_witness :
  exists (s : GibbsDP.state) (r' : nat),
    GibbsDP.run (RR := Demo.rrand) (Demo.args5 1) 2 (Demo.store0 4) 0%nat
    = Some (s, r')
    /\ 0 < GibbsDP.alpha s.
Proof.
  exact (run_returns (RR := Demo.rrand) (Demo.args5 1) demo_dMVN_pos
           demo_dMVT_pos demo_unif_lt_1 demo_rgamma_pos 2 (Demo.store0 4) 0%nat).
Defined.

Lemma nstar_range_witness :
  exists (s : GibbsDP.state) (r' : nat),
    GibbsDP.run (RR := Demo.rrand) (Demo.args5 1) 1 (Demo.store0 4) 0%nat
    = Some (s, r')
    /\ (1 <= GibbsDP.nstar (GibbsDP.ch s) <= 5)%nat.
Proof.
  destruct (run_total (RR := Demo.rrand) (Demo.args5 1) demo_dMVN_pos
              demo_dMVT_pos demo_unif_lt_1 demo_rgamma_pos 1 (Demo.store0 4) 0%nat)
    as (s & r' & Hrun).
  exists s, r'. split; [exact Hrun|].
  apply (nstar_range (RR := Demo.rrand) (Demo.args5 1) demo_qsort_perm 0
           (Demo.store0 4) 0%nat r' s demo_intArray_length).
  - vm_compute. lia.
  - exact Hrun.
Defined.

Lemma remix_keeps_clusters_witness :
  exists (c1 c2 : GibbsDP.chain) (r1 r2 : nat),
    GibbsDP.sweep (RR := Demo.rrand) (Demo.args5 0) 1 Demo.chain5 0%nat
    = Some (c1, r1)
    /\ GibbsDP.remix (RR := Demo.rrand) (Demo.args5 0) c1 r1 = Some (c2, r2)
    /\ ((GibbsDP.C c1 !!! 0%nat < GibbsDP.C c1 !!! 3%nat)%nat ->
        (GibbsDP.C c2 !!! 0%nat < GibbsDP.C c2 !!! 3%nat)%nat)
    /\ (GibbsDP.C c1 !!! 0%nat = GibbsDP.C c1 !!! 3%nat
        <-> GibbsDP.C c2 !!! 0%nat = GibbsDP.C c2 !!! 3%nat).
Proof.
  destruct (sweep_total (RR := Demo.rrand) (Demo.args5 0) demo_dMVN_pos
              demo_dMVT_pos demo_unif_lt_1 1 Demo.chain5 0%nat)
    as (c1 & r1 & Hsweep); [lra|].
  destruct (remix_total (RR := Demo.rrand) (Demo.args5 0) c1 r1)
    as (c2 & r2 & Hremix).
  exists c1, c2, r1, r2. split; [exact Hsweep|]. split; [exact Hremix|].
  apply (remix_keeps_clusters (RR := Demo.rrand) (Demo.args5 0)
           demo_qsort_perm demo_qsort_sorted 1 Demo.chain5 c1 c2 0%nat r1 r2
           0 3).
  - vm_compute. repeat split.
  - vm_compute. reflexivity.
  - exact Hsweep.
  - exact Hremix.
  - vm_compute. lia.
  - vm_compute. lia.
Defined.

(** ** The path of the integrator *)

Section IntegratorPath.
Import Fintegrate.
Context {RM : Rmath} {EL : EcoLib} {QL : QuadLib}.

(** the bounds [setBounds] stores, for margins in range *)
Lemma setBounds_range (x y : Q) :
  0 < x < 1 -> 0 < y < 1 ->
  let B := setBounds_Wbounds x y in
  (0 <= m00 B /\ m00 B < m01 B /\ m01 B <= 1)
  /\ (0 <= m10 B /\ m10 B < m11 B /\ m11 B <= 1).
Proof.
  intros Hx Hy. unfold setBounds_Wbounds. cbn [m00 m01 m10 m11].
  assert (R1 : (y - (1 - x) * 1) / x == (x + y - 1) / x) by (field; lra).
  assert (R2 : (y - (1 - x) * 0) / x == y / x) by (field; lra).
  assert (R3 : y / (1 - x) - x * 1 / (1 - x) == (y - x) / (1 - x))
    by (field; lra).
  assert (R4 : y / (1 - x) - x * 0 / (1 - x) == y / (1 - x)) by (field; lra).
  assert (A1 : (x + y - 1) / x < 1) by (apply Qlt_shift_div_r; lra).
  assert (A2 : 0 < y / x) by (apply Qlt_shift_div_l; lra).
  assert (A3 : (x + y - 1) / x < y / x).
  { apply Qlt_shift_div_r; [lra|].
    assert (E : y / x * x == y) by (field; lra). rewrite E. lra. }
  assert (A4 : (y - x) / (1 - x) < 1) by (apply Qlt_shift_div_r; lra).
  assert (A5 : 0 < y / (1 - x)) by (apply Qlt_shift_div_l; lra).
  assert (A6 : (y - x) / (1 - x) < y / (1 - x)).
  { apply Qlt_shift_div_r; [lra|].
    assert (E : y / (1 - x) * (1 - x) == y) by (field; lra). rewrite E. lra. }
  set (r1 := (y - (1 - x) * 1) / x) in *.
  set (r2 := (y - (1 - x) * 0) / x) in *.
  set (r3 := y / (1 - x) - x * 1 / (1 - x)) in *.
  set (r4 := y / (1 - x) - x * 0 / (1 - x)) in *.
  clearbody r1 r2 r3 r4.
  split.
  - destruct (Qltb (9999 # 10000) r2) eqn:E2; destruct (Qltb r1 (1 # 10000)) eqn:E1;
      try apply Qltb_lt in E1; try apply Qltb_lt in E2;
      try apply Qltb_ge in E1; try apply Qltb_ge in E2;
      repeat split; lra.
  - destruct (Qltb (9999 # 10000) r4) eqn:E2; destruct (Qltb r3 (1 # 10000)) eqn:E1;
      try apply Qltb_lt in E1; try apply Qltb_lt in E2;
      try apply Qltb_ge in E1; try apply Qltb_ge in E2;
      repeat split; lra.
Qed.

(** a point strictly between two bounds of the unit interval *)
Lemma between_bounds (lo hi t : Q) :
  0 <= lo -> lo < hi -> hi <= 1 -> 0 < t < 1 ->
  0 < (hi - lo) * t + lo < 1 /\ 0 < (lo - hi) * t + hi < 1.
Proof.
  intros Hlo Hlh Hhi Ht.
  assert (H1 : 0 < (hi - lo) * t) by (apply Qmult_lt_0_compat; lra).
  assert (H2 : 0 < (hi - lo) * (1 - t)) by (apply Qmult_lt_0_compat; lra).
  assert (E : (hi - lo) * (1 - t) == (hi - lo) - (hi - lo) * t) by ring.
  assert (E' : (lo - hi) * t == - ((hi - lo) * t)) by ring.
  rewrite E in H2. rewrite E'.
  set (p := (hi - lo) * t) in *. clearbody p. repeat split; lra.
Qed.

Lemma Qeq_bool_false (x y : Q) : ~ x == y -> Qeq_bool x y = false.
Proof.
  intros H. destruct (Qeq_bool x y) eqn:E; [|done].
  by apply Qeq_bool_iff in E.
Qed.

(** X7.  For a unit with both margins strictly between 0 and 1, every
    node strictly between 0 and 1 is feasible with the bounds of
    [setBounds]: neither [getW1starFromT] nor [getW2starFromT] sets
    [imposs], and the two proportions on the path are strictly between 0
    and 1. *)
Theorem interior_nodes_feasible (param : Param) (t : Q) :
  0 < X (caseP param) < 1 -> 0 < Y (caseP param) < 1 -> 0 < t < 1 ->
  let pp := setBounds param in
  let B := Wbounds (caseP pp) in
  let W1 := (m01 B - m00 B) * t + m00 B in
  let W2 := (m10 B - m11 B) * t + m11 B in
  0 < W1 < 1 /\ 0 < W2 < 1
  /\ getW1starFromT t pp = (log (W1 / (1 - W1)), false)
  /\ getW2starFromT t pp = (log (W2 / (1 - W2)), false)
  /\ node_feasible pp t = true.
Proof.
  intros Hx Hy Ht pp B W1 W2.
  destruct (setBounds_range _ _ Hx Hy) as [(a1 & a2 & a3) (b1 & b2 & b3)].
  fold B in a1, a2, a3, b1, b2, b3.
  destruct (between_bounds _ _ t a1 a2 a3 Ht) as [HW1 _].
  destruct (between_bounds _ _ t b1 b2 b3 Ht) as [_ HW2].
  fold W1 in HW1. fold W2 in HW2.
  assert (N : forall w : Q, 0 < w < 1 -> ~ w == 1 /\ ~ w == 0).
  { intros w Hw. split; intros E; lra. }
  assert (E1 : getW1starFromT t pp = (log (W1 / (1 - W1)), false)).
  { unfold getW1starFromT. fold B. fold W1. destruct (N W1 HW1) as [N1 N0].
    by rewrite (Qeq_bool_false W1 1 N1), (Qeq_bool_false W1 0 N0). }
  assert (E2 : getW2starFromT t pp = (log (W2 / (1 - W2)), false)).
  { unfold getW2starFromT. fold B. fold W2. destruct (N W2 HW2) as [N1 N0].
    by rewrite (Qeq_bool_false W2 1 N1), (Qeq_bool_false W2 0 N0). }
  split; [done|]. split; [done|]. split; [done|]. split; [done|].
  unfold node_feasible. by rewrite E1, E2.
Qed.

(** the four bounds when no raw bound lies in a window of tolerance *)
Lemma setBounds_exact (x y : Q) :
  0 < x < 1 -> 0 <= y <= 1 ->
  ~ (0 < (x + y - 1) / x < 1 # 10000) ->
  ~ (9999 # 10000 < y / x < 1) ->
  ~ (0 < (y - x) / (1 - x) < 1 # 10000) ->
  ~ (9999 # 10000 < y / (1 - x) < 1) ->
  let B := setBounds_Wbounds x y in
  m00 B == Qmax 0 ((x + y - 1) / x) /\ m01 B == Qmin 1 (y / x)
  /\ m10 B == Qmax 0 ((y - x) / (1 - x)) /\ m11 B == Qmin 1 (y / (1 - x)).
Proof.
  intros Hx Hy N1 N2 N3 N4. unfold setBounds_Wbounds. cbn [m00 m01 m10 m11].
  assert (R1 : (y - (1 - x) * 1) / x == (x + y - 1) / x) by (field; lra).
  assert (R2 : (y - (1 - x) * 0) / x == y / x) by (field; lra).
  assert (R3 : y / (1 - x) - x * 1 / (1 - x) == (y - x) / (1 - x))
    by (field; lra).
  assert (R4 : y / (1 - x) - x * 0 / (1 - x) == y / (1 - x)) by (field; lra).
  destruct (snap_low _ _ R1) as [_ L1]. destruct (snap_high _ _ R2) as [_ U1].
  destruct (snap_low _ _ R3) as [_ L2]. destruct (snap_high _ _ R4) as [_ U2].
  split; [by apply L1|]. split; [by apply U1|]. split; [by apply L2|by apply U2].
Qed.

(** the path through the four exact bounds lies on the line of the unit *)
Lemma exact_bounds_on_line (x y t : Q) :
  0 < x < 1 ->
  let lo1 := Qmax 0 ((x + y - 1) / x) in
  let hi1 := Qmin 1 (y / x) in
  let lo2 := Qmax 0 ((y - x) / (1 - x)) in
  let hi2 := Qmin 1 (y / (1 - x)) in
  x * ((hi1 - lo1) * t + lo1) + (1 - x) * ((lo2 - hi2) * t + hi2) == y.
Proof.
  intros Hx lo1 hi1 lo2 hi2.
  assert (Elo1 : (x + y - 1 <= 0 /\ lo1 == 0)
                 \/ (0 <= x + y - 1 /\ lo1 == (x + y - 1) / x)).
  { destruct (Qlt_le_dec 0 (x + y - 1)) as [H|H].
    - right. split; [lra|]. apply Q.max_r. apply Qle_shift_div_l; lra.
    - left. split; [done|]. apply Q.max_l. apply Qle_shift_div_r; lra. }
  assert (Ehi2 : (x + y - 1 <= 0 /\ hi2 == y / (1 - x))
                 \/ (0 <= x + y - 1 /\ hi2 == 1)).
  { destruct (Qlt_le_dec 0 (x + y - 1)) as [H|H].
    - right. split; [lra|]. apply Q.min_l. apply Qle_shift_div_l; lra.
    - left. split; [done|]. apply Q.min_r. apply Qle_shift_div_r; lra. }
  assert (Ehi1 : (y <= x /\ hi1 == y / x) \/ (x <= y /\ hi1 == 1)).
  { destruct (Qlt_le_dec x y) as [H|H].
    - right. split; [lra|]. apply Q.min_l. apply Qle_shift_div_l; lra.
    - left. split; [done|]. apply Q.min_r. apply Qle_shift_div_r; lra. }
  assert (Elo2 : (y <= x /\ lo2 == 0) \/ (x <= y /\ lo2 == (y - x) / (1 - x))).
  { destruct (Qlt_le_dec x y) as [H|H].
    - right. split; [lra|]. apply Q.max_r. apply Qle_shift_div_l; lra.
    - left. split; [done|]. apply Q.max_l. apply Qle_shift_div_r; lra. }
  clearbody lo1 hi1 lo2 hi2.
  destruct Elo1 as [[A1 ->]|[A1 ->]]; destruct Ehi2 as [[A2 ->]|[A2 ->]];
    destruct Ehi1 as [[A3 ->]|[A3 ->]]; destruct Elo2 as [[A4 ->]|[A4 ->]];
    try (field; lra).
  all: try (assert (E : y == 1 - x) by lra; rewrite E; field; lra).
  all: try (assert (E : y == x) by lra; rewrite E; field; lra).
  all: assert (Ey : y == 1 # 2) by lra; assert (Ex : x == 1 # 2) by lra;
    rewrite Ey, Ex; field.
Qed.

(** X8.  When no raw bound of the unit lies in a window of tolerance of
    [setBounds], the path of the integrator stays on the line of the unit:
    at a feasible node [getW1starFromT] and [getW2starFromT] return the
    logits of two proportions [W1] and [W2] with [X*W1 + (1-X)*W2 = Y]. *)
Theorem integration_path_on_line (param : Param) (t : Q) :
  let x := X (caseP param) in
  let y := Y (caseP param) in
  0 < x < 1 -> 0 <= y <= 1 ->
  ~ (0 < (x + y - 1) / x < 1 # 10000) ->
  ~ (9999 # 10000 < y / x < 1) ->
  ~ (0 < (y - x) / (1 - x) < 1 # 10000) ->
  ~ (9999 # 10000 < y / (1 - x) < 1) ->
  node_feasible (setBounds param) t = true ->
  exists W1 W2 : Q,
    x * W1 + (1 - x) * W2 == y
    /\ getW1starFromT t (setBounds param) = (log (W1 / (1 - W1)), false)
    /\ getW2starFromT t (setBounds param) = (log (W2 / (1 - W2)), false).
Proof.
  intros x y Hx Hy N1 N2 N3 N4 Hf.
  destruct (setBounds_exact x y Hx Hy N1 N2 N3 N4) as (E1 & E2 & E3 & E4).
  set (B := setBounds_Wbounds x y) in *.
  exists ((m01 B - m00 B) * t + m00 B), ((m10 B - m11 B) * t + m11 B).
  split.
  - rewrite E1, E2, E3, E4. by apply exact_bounds_on_line.
  - unfold node_feasible in Hf. apply andb_true_iff in Hf as [Hf1 Hf2].
    unfold getW1starFromT, getW2starFromT in *.
    change (Wbounds (caseP (setBounds param))) with B in *.
    destruct (Qeq_bool _ 1 || Qeq_bool _ 0); [done|].
    destruct (Qeq_bool _ 1 || Qeq_bool _ 0); [done|]. done.
Qed.

(** X9.  A unit with [Y = 0] has no feasible node: the bounds of
    [setBounds] for [W1] are both zero, so [getW1starFromT] sets [imposs]
    at every node, and the two integrands leave zero at every node and
    print nothing, whatever the tag. *)
Theorem zero_Y_unit_integrands (M_PI : Q) (param : Param) (ts : list Q) :
  0 < X (caseP param) < 1 -> Y (caseP param) == 0 ->
  let pp := setBounds param in
  (forall t : Q, node_feasible pp t = false)
  /\ SuffExp ts pp = (map (fun _ => 0) ts, [])
  /\ NormConstT M_PI ts pp = (map (fun _ => 0) ts, []).
Proof.
  intros Hx Hy pp.
  assert (Himp : forall t : Q, snd (getW1starFromT t pp) = true).
  { intros t. unfold getW1starFromT, pp, setBounds, setBounds_Wbounds.
    cbn [caseP Wbounds m00 m01].
    set (x := X (caseP param)) in *. set (y := Y (caseP param)) in *.
    assert (R1 : (y - (1 - x) * 1) / x < 1 # 10000).
    { apply Qlt_shift_div_r; lra. }
    assert (R2 : (y - (1 - x) * 0) / x == 0).
    { rewrite Hy. field. lra. }
    apply Qltb_lt in R1. rewrite R1.
    assert (R3 : Qltb (9999 # 10000) ((y - (1 - x) * 0) / x) = false).
    { apply Qltb_ge. rewrite R2. lra. }
    rewrite R3.
    assert (E : Qeq_bool ((((y - (1 - x) * 0) / x) - 0) * t + 0) 0 = true).
    { apply Qeq_bool_iff. rewrite R2. ring. }
    rewrite E, orb_true_r. done. }
  split; [|split].
  - intros t. unfold node_feasible. by rewrite Himp.
  - induction ts as [|t ts IH]; [done|]. cbn [SuffExp].
    rewrite IH. unfold SuffExp_node. specialize (Himp t).
    destruct (getW1starFromT t pp) as [w1 i1]. simpl in Himp. by subst i1.
  - unfold NormConstT. f_equal. apply map_ext. intros t.
    unfold NormConstT_node. specialize (Himp t).
    destruct (getW1starFromT t pp) as [w1 i1]. simpl in Himp. by subst i1.
Qed.

End IntegratorPath.

(** ** The pairs on a line and the two integrands *)

Section IntegratorValues.
Import Fintegrate.
Context {RM : Rmath} {EL : EcoLib} {QL : QuadLib}.

(** X10.  [getW2starFromW1star] and [getW1starFromW2star] solve the
    accounting identity [Y = X*W1 + (1-X)*W2] for the other proportion,
    the given logit being mapped to 1 when it is above 30; the second
    solves it as [getW1FromW2] does.  When the solution is strictly
    between 0 and 1 they return its logit; otherwise they set [imposs] and
    return the solution itself, which is not a logit. *)
Theorem other_proportion_from_identity (x y ws : Q) :
  0 < x < 1 ->
  let w := if Qltb 30 ws then 1 else 1 / (1 + exp (- (1) * ws)) in
  (exists W2 : Q,
     x * w + (1 - x) * W2 == y
     /\ getW2starFromW1star x y ws =
          (if Qle_bool 1 W2 || Qle_bool W2 0 then (W2, true)
           else (log (W2 / (1 - W2)), false))
     /\ (snd (getW2starFromW1star x y ws) = false <-> 0 < W2 < 1))
  /\ (let W1 := getW1FromW2 x y w in
      x * W1 + (1 - x) * w == y
      /\ getW1starFromW2star x y ws =
           (if Qle_bool 1 W1 || Qle_bool W1 0 then (W1, true)
            else (log (W1 / (1 - W1)), false))
      /\ (snd (getW1starFromW2star x y ws) = false <-> 0 < W1 < 1)).
Proof.
  intros Hx w.
  assert (Hflag : forall v : Q,
            snd (if Qle_bool 1 v || Qle_bool v 0 then (v, true)
                 else (log (v / (1 - v)), false)) = false <-> 0 < v < 1).
  { intros v. destruct (Qle_bool 1 v) eqn:E1; destruct (Qle_bool v 0) eqn:E0;
      simpl; split; try done; intros H;
      try (apply Qle_bool_iff in E1; lra);
      try (apply Qle_bool_iff in E0; lra).
    split.
    - destruct (Qlt_le_dec 0 v) as [Hv|Hv]; [done|].
      apply Qle_bool_iff in Hv. congruence.
    - destruct (Qlt_le_dec v 1) as [Hv|Hv]; [done|].
      apply Qle_bool_iff in Hv. congruence. }
  split.
  - exists (y / (1 - x) - x * w / (1 - x)). split; [field; lra|].
    split; [done|]. apply Hflag.
  - intros W1. split; [unfold W1, getW1FromW2; field; lra|].
    split; [done|]. apply Hflag.
Qed.

(** [SuffExp] leaves one value for every node *)
Lemma SuffExp_length (ts : list Q) (pp : Param) :
  length (fst (SuffExp ts pp)) = length ts.
Proof.
  induction ts as [|t ts IH]; [done|]. cbn [SuffExp].
  destruct (SuffExp_node pp t) as [v ev]. destruct (SuffExp ts pp) as [vs evs].
  simpl in *. by rewrite IH.
Qed.

(** the events of [SuffExp] are those of its nodes *)
Lemma SuffExp_events (ts : list Q) (pp : Param) (e : event) :
  e ∈ snd (SuffExp ts pp) -> exists t : Q, t ∈ ts /\ e ∈ snd (SuffExp_node pp t).
Proof.
  induction ts as [|t ts IH]; cbn [SuffExp].
  - intros H. by apply elem_of_nil in H.
  - destruct (SuffExp_node pp t) as [v ev] eqn:En.
    destruct (SuffExp ts pp) as [vs evs]. simpl in *.
    intros H. apply elem_of_app in H as [H|H].
    + exists t. rewrite En. split; [left|done].
    + destruct (IH H) as (t' & Ht' & He). exists t'. split; [by right|done].
Qed.

Lemma SuffExp_node_quiet (pp : Param) (t : Q) :
  (-1 <= suff (caseP pp) <= 7)%Z -> snd (SuffExp_node pp t) = [].
Proof.
  intros Hsf. unfold SuffExp_node.
  destruct (getW1starFromT t pp) as [w1 [|]]; [done|].
  destruct (getW2starFromT t pp) as [w2 [|]]; [done|].
  repeat (match goal with
          | |- context [(?x =? ?y)%Z] => destruct (Z.eqb_spec x y); [done|]
          end).
  lia.
Qed.

Lemma SuffExp_lookup (ts : list Q) (pp : Param) (i : nat) (t : Q) :
  ts !! i = Some t -> fst (SuffExp ts pp) !! i = Some (fst (SuffExp_node pp t)).
Proof.
  revert i. induction ts as [|t0 ts IH]; intros i Hi; [done|].
  cbn [SuffExp]. destruct (SuffExp_node pp t0) as [v ev] eqn:En.
  destruct (SuffExp ts pp) as [vs evs] eqn:Es. simpl in *.
  destruct i as [|i]; simpl in *.
  - inversion Hi; subst. by rewrite En.
  - by apply IH.
Qed.

(** X11.  With one of the tags -1, 0, ..., 7, [SuffExp] prints nothing;
    whatever the tag, it leaves one value for every node, and zero at
    every node that is not feasible. *)
Theorem SuffExp_recognized_tag (ts : list Q) (pp : Param) :
  ((-1 <= suff (caseP pp) <= 7)%Z -> snd (SuffExp ts pp) = [])
  /\ length (fst (SuffExp ts pp)) = length ts
  /\ (forall (i : nat) (t : Q),
        ts !! i = Some t -> node_feasible pp t = false ->
        fst (SuffExp ts pp) !! i = Some 0).
Proof.
  split; [|split].
  - intros Hsf. destruct (snd (SuffExp ts pp)) as [|e evs] eqn:E; [done|].
    destruct (SuffExp_events ts pp e) as (t & _ & He).
    { rewrite E. left. }
    rewrite (SuffExp_node_quiet pp t Hsf) in He. by apply elem_of_nil in He.
  - apply SuffExp_length.
  - intros i t Hi Hf. rewrite (SuffExp_lookup ts pp i t Hi). f_equal.
    unfold node_feasible in Hf. unfold SuffExp_node.
    destruct (getW1starFromT t pp) as [w1 [|]]; [done|].
    destruct (getW2starFromT t pp) as [w2 [|]]; [done|]. done.
Qed.

Section NormConst.
Variable M_PI : Q.
Hypothesis M_PI_pos : 0 < M_PI.
Hypothesis exp_pos : forall x : Q, 0 < exp x.
Hypothesis sqrt_nonneg : forall x : Q, 0 <= sqrt x.

(** X12.  The integrand of the normalizing constant is never negative,
    leaves one value for every node, and zero at every node that is not
    feasible. *)
Theorem NormConstT_nonneg (ts : list Q) (pp : Param) :
  length (fst (NormConstT M_PI ts pp)) = length ts
  /\ (forall (i : nat) (v : Q), fst (NormConstT M_PI ts pp) !! i = Some v -> 0 <= v)
  /\ (forall (i : nat) (t : Q),
        ts !! i = Some t -> node_feasible pp t = false ->
        fst (NormConstT M_PI ts pp) !! i = Some 0).
Proof using M_PI_pos exp_pos sqrt_nonneg.
  unfold NormConstT. cbn [fst]. split; [by rewrite length_map|]. split.
  - intros i v Hv. rewrite list_lookup_fmap in Hv.
    destruct (ts !! i) as [t|]; [|done]. simpl in Hv. inversion Hv; subst.
    unfold NormConstT_node.
    destruct (getW1starFromT t pp) as [w1 [|]]; [lra|].
    destruct (getW2starFromT t pp) as [w2 [|]]; [lra|].
    apply Qmult_le_0_compat; [apply Qmult_le_0_compat|].
    + apply Qlt_le_weak, exp_pos.
    + unfold Qdiv. apply Qmult_le_0_compat; [lra|].
      apply Qinv_le_0_compat. apply Qmult_le_0_compat; [lra|apply sqrt_nonneg].
    + apply sqrt_nonneg.
  - intros i t Hi Hf. rewrite list_lookup_fmap, Hi. simpl. f_equal.
    unfold node_feasible in Hf. unfold NormConstT_node.
    destruct (getW1starFromT t pp) as [w1 [|]]; [done|].
    destruct (getW2starFromT t pp) as [w2 [|]]; [done|]. done.
Qed.

End NormConst.

End IntegratorValues.

(** ** The two callers of the quadrature *)

Section Callers.
Import Fintegrate.
Context {RM : Rmath} {EL : EcoLib} {QL : QuadLib}.

(** the quadrature prints nothing of its own: what is printed while it
    runs is printed by the integrand, called on the block it was given *)
Hypothesis Rdqags_events :
  forall (f : integr_fn) (ex : Param) (lb ub epsabs epsrel : Q) (limit : Z)
         (e : event),
    e ∈ q_events (Rdqags f ex lb ub epsabs epsrel limit) ->
    exists ts : list Q, e ∈ snd (f ts ex).

(** the events of [paramIntegration]: those of the integrand, and its own
    two *)
Lemma paramIntegration_events (f : integr_fn) (ex : Param) (e : event) :
  e ∈ snd (paramIntegration f ex) ->
  (exists ts : list Q, e ∈ snd (f ts ex))
  \/ e = ScanfHitEnter
  \/ exists (ier : Z) (result anserr : Q),
       ier <> 0%Z
       /\ e = IntegrationError ier (suff (caseP ex)) (X (caseP ex)) (Y (caseP ex))
                (m00 (Wbounds (caseP ex))) (m01 (Wbounds (caseP ex)))
                result anserr.
Proof using Rdqags_events.
  unfold paramIntegration.
  destruct (Z.eqb_spec (q_ier (Rdqags f ex (1 # 100000) (99999 # 100000)
              (1 # 1000000000) (1 # 1000000000) 100)) 0) as [E|E]; cbn [snd].
  - intros H. left. by apply Rdqags_events in H.
  - intros H. apply elem_of_app in H as [H|H].
    + left. by apply Rdqags_events in H.
    + apply elem_of_cons in H as [->|H].
      * right. right. by eexists _, _, _.
      * apply list_elem_of_singleton in H as ->. right. by left.
Qed.

(** X13.  [getLogLikelihood] overwrites the tag of the unit with 7
    before it integrates and leaves it there: its result does not depend
    on the tag the unit had, it never prints the diagnostic of an
    unrecognized tag, and a diagnostic of the integration carries the
    tag 7. *)
Theorem getLogLikelihood_tag (param : Param) (sf : Z) :
  getLogLikelihood (set_suff param sf) = getLogLikelihood param
  /\ suff (caseP (snd (getLogLikelihood param))) = 7%Z
  /\ (forall e : event, e ∈ snd (fst (getLogLikelihood param)) ->
        (forall k : Z, e <> ErrorSuff k)
        /\ (forall (ier k : Z) (x y lb ub res err : Q),
              e = IntegrationError ier k x y lb ub res err -> k = 7%Z)).
Proof using Rdqags_events.
  split; [done|]. unfold getLogLikelihood.
  destruct (paramIntegration SuffExp (set_suff param 7)) as [v ev] eqn:E.
  cbn [fst snd]. split; [done|]. intros e He.
  assert (He' : e ∈ snd (paramIntegration SuffExp (set_suff param 7)))
    by (by rewrite E).
  apply paramIntegration_events in He' as [(ts & Hts)|[->|(ier & res & err & _ & ->)]].
  - apply SuffExp_events in Hts as (t & _ & Ht).
    rewrite SuffExp_node_quiet in Ht by (simpl; lia). by apply elem_of_nil in Ht.
  - split; [done|]. intros. done.
  - split; [done|]. intros ier' k x y lb ub res' err' [= _ <- _ _ _ _ _ _]. done.
Qed.

(** X14.  [setNormConst] stores the estimate of the quadrature in
    [normcT] and leaves the rest of the unit as it was; the integrand
    prints nothing, so what is printed is the diagnostic of the
    integration and its wait, or nothing. *)
Theorem setNormConst_stores (M_PI : Q) (param : Param) :
  let o := Rdqags (NormConstT M_PI) param (1 # 100000) (99999 # 100000)
             (1 # 1000000000) (1 # 1000000000) 100 in
  let r := setNormConst M_PI param in
  fst r = set_normcT param (q_result o)
  /\ setBounds (fst r) = set_normcT (setBounds param) (q_result o)
  /\ snd r = (if (q_ier o =? 0)%Z then []
              else [IntegrationError (q_ier o) (suff (caseP param))
                      (X (caseP param)) (Y (caseP param))
                      (m00 (Wbounds (caseP param))) (m01 (Wbounds (caseP param)))
                      (q_result o) (q_abserr o);
                    ScanfHitEnter]).
Proof using Rdqags_events.
  intros o r. subst r. unfold setNormConst, paramIntegration. fold o.
  assert (Hq : q_events o = []).
  { destruct (q_events o) as [|e evs] eqn:E; [done|].
    destruct (Rdqags_events (NormConstT M_PI) param (1 # 100000) (99999 # 100000)
                (1 # 1000000000) (1 # 1000000000) 100 e) as [ts Hts].
    - fold o. rewrite E. left.
    - simpl in Hts. by apply elem_of_nil in Hts. }
  destruct (q_ier o =? 0)%Z; cbn [fst snd]; rewrite Hq; done.
Qed.

End Callers.

(** ** The properties of the integrator on concrete units *)

Lemma demo_sqrt_nonneg (x : Q) : 0 <= sqrt x.
Proof.
  cbn [sqrt Demo.rmath]. unfold Demo.sqrt_q, Qle. simpl.
  pose proof (Z.sqrt_nonneg (Qnum x)). lia.
Qed.

Lemma demo_Rdqags_events (f : Fintegrate.integr_fn) (ex : Fintegrate.Param)
    (lb ub epsabs epsrel : Q) (limit : Z) (e : Fintegrate.event) :
  e ∈ Fintegrate.q_events (Fintegrate.Rdqags f ex lb ub epsabs epsrel limit) ->
  exists ts : list Q, e ∈ snd (f ts ex).
Proof.
  cbn [Fintegrate.Rdqags Demo.quadlib]. intros H.
  exists [(lb + ub) / 2]. destruct (f [(lb + ub) / 2] ex) as [vals evs]. done.
Qed.

Lemma interior_nodes_feasible_witness :
  Fintegrate.node_feasible (Fintegrate.setBounds (Demo.param_at (3 # 7) (1 # 2)))
    (1 # 2) = true.
Proof.
  apply (interior_nodes_feasible (Demo.param_at (3 # 7) (1 # 2)) (1 # 2)).
  - vm_compute. split; reflexivity.
  - vm_compute. split; reflexivity.
  - lra.
Defined.

Lemma integration_path_on_line_witness :
  exists W1 W2 : Q,
    (3 # 7) * W1 + (1 - (3 # 7)) * W2 == 1 # 2
    /\ Fintegrate.getW1starFromT (1 # 2)
         (Fintegrate.setBounds (Demo.param_at (3 # 7) (1 # 2)))
       = (log (W1 / (1 - W1)), false)
    /\ Fintegrate.getW2starFromT (1 # 2)
         (Fintegrate.setBounds (Demo.param_at (3 # 7) (1 # 2)))
       = (log (W2 / (1 - W2)), false).
Proof.
  apply (integration_path_on_line (Demo.param_at (3 # 7) (1 # 2)) (1 # 2)).
  - vm_compute. split; reflexivity.
  - vm_compute. split; discriminate.
  - vm_compute. intros [H _]. discriminate.
  - vm_compute. intros [_ H]. discriminate.
  - vm_compute. intros [_ H]. discriminate.
  - vm_compute. intros [H _]. discriminate.
  - vm_compute. reflexivity.
Defined.

Lemma zero_Y_unit_integrands_witness :
  Fintegrate.SuffExp [1 # 4; 1 # 2]
    (Fintegrate.setBounds (Demo.param_at (3 # 7) 0)) = ([0; 0], [])
  /\ Fintegrate.NormConstT (22 # 7) [1 # 4; 1 # 2]
       (Fintegrate.setBounds (Demo.param_at (3 # 7) 0)) = ([0; 0], []).
Proof.
  destruct (zero_Y_unit_integrands (22 # 7) (Demo.param_at (3 # 7) 0)
              [1 # 4; 1 # 2]) as (_ & H1 & H2).
  - vm_compute. split; reflexivity.
  - reflexivity.
  - split; [exact H1|exact H2].
Defined.

Lemma other_proportion_from_identity_witness :
  let w := 1 / (1 + exp (- (1) * 0)) in
  (1 # 2) * Fintegrate.getW1FromW2 (1 # 2) (1 # 2) w + (1 - (1 # 2)) * w == 1 # 2
  /\ (snd (Fintegrate.getW1starFromW2star (1 # 2) (1 # 2) 0) = false
      <-> 0 < Fintegrate.getW1FromW2 (1 # 2) (1 # 2) w < 1).
Proof.
  destruct (other_proportion_from_identity (1 # 2) (1 # 2) 0)
    as [_ (H1 & _ & H3)].
  - lra.
  - split; [exact H1|exact H3].
Defined.

Lemma SuffExp_recognized_tag_witness :
  snd (Fintegrate.SuffExp [1 # 4; 1 # 2] (Demo.param 7)) = [].
Proof.
  apply (SuffExp_recognized_tag [1 # 4; 1 # 2] (Demo.param 7)).
  simpl. lia.
Defined.

Lemma NormConstT_nonneg_witness :
  0 <= fst (Fintegrate.NormConstT (22 # 7) [1 # 4; 1 # 2] (Demo.param 0)) !!! 0%nat.
Proof.
  destruct (NormConstT_nonneg (22 # 7) ltac:(reflexivity) demo_exp_pos
              demo_sqrt_nonneg [1 # 4; 1 # 2] (Demo.param 0)) as (Hlen & Hnn & _).
  apply (Hnn 0%nat). apply list_lookup_lookup_total_lt. rewrite Hlen. simpl. lia.
Defined.

Lemma getLogLikelihood_tag_witness :
  Fintegrate.getLogLikelihood (Fintegrate.set_suff (Demo.param 0) 8)
  = Fintegrate.getLogLikelihood (Demo.param 0)
  /\ Fintegrate.suff (Fintegrate.caseP (snd (Fintegrate.getLogLikelihood (Demo.param 0))))
     = 7%Z.
Proof.
  destruct (getLogLikelihood_tag demo_Rdqags_events (Demo.param 0) 8)
    as (H1 & H2 & _).
  split; [exact H1|exact H2].
Defined.

Lemma setNormConst_stores_witness :
  Fintegrate.normcT (Fintegrate.caseP (fst (Fintegrate.setNormConst (22 # 7) (Demo.param 0))))
  = Fintegrate.q_result
      (Fintegrate.Rdqags (Fintegrate.NormConstT (22 # 7)) (Demo.param 0)
         (1 # 100000) (99999 # 100000) (1 # 1000000000) (1 # 1000000000) 100).
Proof.
  destruct (setNormConst_stores demo_Rdqags_events (22 # 7) (Demo.param 0))
    as (H1 & _).
  rewrite H1. reflexivity.
Defined.

(** ** The storage of the draws *)

Section Storage.
Import GibbsDP.
Context {RM : Rmath} {RR : Rrand} {EL : EcoLib}.
Variable a : args.

(** what the storage of one unit does to the counters and to the seven
    buffers of the draws *)
Lemma store_unit_cells (c : chain) (i : nat) (o o' : store) (r r' : rng) :
  store_unit a c i o r = Some (o', r') ->
  (itempS o' = S (itempS o) /\ itempA o' = itempA o /\ itempC o' = itempC o)
  /\ pdSMu0 o' = <[itempS o := v0 (mu c !!! i)]> (pdSMu0 o)
  /\ pdSMu1 o' = <[itempS o := v1 (mu c !!! i)]> (pdSMu1 o)
  /\ pdSSig00 o' = <[itempS o := m00 (Sigma c !!! i)]> (pdSSig00 o)
  /\ pdSSig01 o' = <[itempS o := m01 (Sigma c !!! i)]> (pdSSig01 o)
  /\ pdSSig11 o' = <[itempS o := m11 (Sigma c !!! i)]> (pdSSig11 o)
  /\ pdSW1 o' = <[itempS o := v0 (W c !!! i)]> (pdSW1 o)
  /\ pdSW2 o' = <[itempS o := v1 (W c !!! i)]> (pdSW2 o).
Proof using Type.
  unfold store_unit. intros Hrun.
  apply bind_Some in Hrun as (o1 & r1 & H1 & Hrun).
  apply ret_Some in Hrun as [-> _]. simpl.
  unfold store_pred in H1. destruct (negb (pred a =? 0)%Z).
  - apply bind_Some in H1 as (vtemp & r2 & _ & H1).
    cbn [itempS pdSWt1 pdSWt2 pdY] in H1.
    destruct (if (link a =? 1)%Z then _ else _) as [wt1 wt2].
    apply ret_Some in H1 as [-> _]. done.
  - apply ret_Some in H1 as [-> _]. done.
Qed.

(** a buffer that every turn of a loop writes at the counter, which it
    then moves by one *)
Lemma column_filled (proj : store -> list Q) (val : nat -> Q) (n : nat)
    (body : nat -> store -> M store) (o o' : store) (r r' : rng) :
  (forall (i : nat) (o1 o2 : store) (r1 r2 : rng),
      body i o1 r1 = Some (o2, r2) ->
      itempS o2 = S (itempS o1)
      /\ proj o2 = <[itempS o1 := val i]> (proj o1)) ->
  (itempS o + n <= length (proj o))%nat ->
  for_loopM n body o r = Some (o', r') ->
  itempS o' = (itempS o + n)%nat
  /\ length (proj o') = length (proj o)
  /\ (forall i : nat, (i < n)%nat -> proj o' !! (itempS o + i)%nat = Some (val i))
  /\ (forall m : nat, (m < itempS o)%nat -> proj o' !! m = proj o !! m).
Proof using Type.
  intros Hbody Hroom Hrun.
  apply (for_loopM_inv_idx
           (fun k s => itempS s = (itempS o + k)%nat
                       /\ length (proj s) = length (proj o)
                       /\ (forall i : nat, (i < k)%nat ->
                             proj s !! (itempS o + i)%nat = Some (val i))
                       /\ (forall m : nat, (m < itempS o)%nat ->
                             proj s !! m = proj o !! m)))
    in Hrun; [done| |].
  - split; [lia|]. split; [done|]. split; [intros i Hi; lia|done].
  - intros k s1 s2 r1 r2 Hk (HS & Hlen & Hin & Hout) Hstep.
    apply Hbody in Hstep as [HS2 Hp]. rewrite Hp, HS.
    split; [lia|]. split; [by rewrite length_insert|]. split.
    + intros i Hi. destruct (decide (i = k)) as [->|Hne].
      * apply list_lookup_insert_eq. lia.
      * rewrite list_lookup_insert_ne by lia. apply Hin. lia.
    + intros m Hm. rewrite list_lookup_insert_ne by lia. by apply Hout.
Qed.

(** the counters after [store_draws] *)
Lemma store_draws_counters (ml : nat) (al : Q) (c : chain) (o o' : store)
    (r r' : rng) :
  store_draws a ml al c o r = Some (o', r') ->
  if (burn_in a <=? Z.of_nat ml)%Z then
    if (itempC o + 1 =? nth a)%Z then
      itempC o' = 0%Z /\ itempS o' = (itempS o + n_samp a)%nat
      /\ itempA o' = (itempA o + if (pinUpdate a =? 0)%Z then 0 else 1)%nat
    else itempC o' = (itempC o + 1)%Z /\ itempS o' = itempS o
         /\ itempA o' = itempA o
  else itempC o' = itempC o /\ itempS o' = itempS o /\ itempA o' = itempA o.
Proof using Type.
  unfold store_draws. intros Hrun.
  destruct (burn_in a <=? Z.of_nat ml)%Z;
    [|by apply ret_Some in Hrun as [-> _]].
  cbn [itempC set_itempC] in Hrun.
  destruct (itempC o + 1 =? nth a)%Z;
    [|by apply ret_Some in Hrun as [-> _]].
  apply bind_Some in Hrun as (o1 & r1 & H1 & Hrun).
  apply ret_Some in Hrun as [-> _]. cbn [itempC itempS itempA set_itempC].
  apply (for_loopM_inv_idx
           (fun k s => itempS s = (itempS o + k)%nat
                       /\ itempA s = (itempA o + if (pinUpdate a =? 0)%Z
                                                  then 0 else 1)%nat))
    in H1; [by destruct H1 as [-> ->]| |].
  - unfold store_alpha. destruct (pinUpdate a =? 0)%Z; simpl; lia.
  - intros k s1 s2 q1 q2 _ [HS HA] Hstep.
    apply store_unit_cells in Hstep as ((-> & -> & _) & _). lia.
Qed.

(** X15.  The number of draws stored.  After [n] turns of the main loop,
    with [m] the number of turns from [burn_in] on: for a thinning
    interval [nth] of one or more, [n_samp] cells have been stored for
    every [nth] of these turns, [itempC] counts the turns since the last
    storage, and the values of [alpha] and [nstar] have been stored as
    often, or never if [pinUpdate] is zero.  For [nth] below one nothing
    is ever stored. *)
Theorem stored_draws_count (n : nat) (o : store) (r r' : rng) (s : state) :
  run a n o r = Some (s, r') ->
  let m := Z.max 0 (Z.of_nat n - Z.max 0 (burn_in a)) in
  ((1 <= nth a)%Z ->
     Z.of_nat (itempS (out s)) = (Z.of_nat (n_samp a) * (m / nth a))%Z
     /\ itempC (out s) = (m mod nth a)%Z
     /\ Z.of_nat (itempA (out s))
        = (if (pinUpdate a =? 0)%Z then 0 else m / nth a)%Z)
  /\ ((nth a <= 0)%Z ->
        itempS (out s) = 0%nat /\ itempA (out s) = 0%nat /\ itempC (out s) = m).
Proof using Type.
  intros Hrun m. unfold run in Hrun.
  apply bind_Some in Hrun as (s0 & r0 & Hs0 & Hrun).
  unfold init_state in Hs0.
  apply bind_Some in Hs0 as (c0 & r1 & _ & Hs0).
  apply ret_Some in Hs0 as [-> _].
  set (mk := fun k : nat => Z.max 0 (Z.of_nat k - Z.max 0 (burn_in a))).
  assert (Hstep : forall (k : nat) (s1 s2 : state) (r1 r2 : rng),
            main_loop_body a k s1 r1 = Some (s2, r2) ->
            if (burn_in a <=? Z.of_nat k)%Z then
              mk (S k) = (mk k + 1)%Z
              /\ (if (itempC (out s1) + 1 =? nth a)%Z then
                    itempC (out s2) = 0%Z
                    /\ itempS (out s2) = (itempS (out s1) + n_samp a)%nat
                    /\ itempA (out s2)
                       = (itempA (out s1)
                          + if (pinUpdate a =? 0)%Z then 0 else 1)%nat
                  else itempC (out s2) = (itempC (out s1) + 1)%Z
                       /\ itempS (out s2) = itempS (out s1)
                       /\ itempA (out s2) = itempA (out s1))
            else mk (S k) = mk k /\ itempC (out s2) = itempC (out s1)
                 /\ itempS (out s2) = itempS (out s1)
                 /\ itempA (out s2) = itempA (out s1)).
  { intros k s1 s2 q1 q2 Hb. unfold main_loop_body in Hb.
    apply bind_Some in Hb as (c1 & p1 & _ & Hb).
    apply bind_Some in Hb as (c2 & p2 & _ & Hb).
    apply bind_Some in Hb as (c3 & p3 & _ & Hb).
    apply bind_Some in Hb as (c4 & p4 & _ & Hb).
    apply bind_Some in Hb as (c5 & p5 & _ & Hb).
    apply bind_Some in Hb as (al & p6 & _ & Hb).
    apply bind_Some in Hb as (o1 & p7 & Ho & Hb).
    apply ret_Some in Hb as [-> _]. cbn [out].
    apply store_draws_counters in Ho. unfold mk.
    destruct (Z.leb_spec (burn_in a) (Z.of_nat k)); [split; [lia|done]|].
    split; [lia|done]. }
  split.
  - intros Hnth.
    apply (for_loopM_inv_idx
             (fun k s1 =>
                Z.of_nat (itempS (out s1))
                = (Z.of_nat (n_samp a) * (mk k / nth a))%Z
                /\ itempC (out s1) = (mk k mod nth a)%Z
                /\ Z.of_nat (itempA (out s1))
                   = (if (pinUpdate a =? 0)%Z then 0 else mk k / nth a)%Z))
      in Hrun; [done| |].
    + assert (Hm0 : mk 0%nat = 0%Z) by (unfold mk; lia).
      rewrite Hm0. cbn [out init_store itempS itempC itempA].
      rewrite Z.div_0_l, Z.mod_0_l by lia. destruct (pinUpdate a =? 0)%Z; lia.
    + intros k s1 s2 q1 q2 _ (HS & HC & HA) Hb. apply Hstep in Hb.
      pose proof (Z.div_mod (mk k) (nth a) ltac:(lia)) as Hdm.
      pose proof (Z.mod_pos_bound (mk k) (nth a) ltac:(lia)) as Hmb.
      destruct (burn_in a <=? Z.of_nat k)%Z.
      * destruct Hb as [Hmk Hb]. rewrite Hmk.
        destruct (Z.eqb_spec (itempC (out s1) + 1) (nth a)) as [E|E].
        -- destruct Hb as (-> & -> & ->).
           assert (Hq : ((mk k + 1) / nth a = mk k / nth a + 1)%Z).
           { symmetry. apply (Z.div_unique_pos _ _ _ 0); lia. }
           assert (Hr : ((mk k + 1) mod nth a = 0)%Z).
           { symmetry. apply (Z.mod_unique_pos _ _ (mk k / nth a + 1)); lia. }
           rewrite Hq, Hr. destruct (pinUpdate a =? 0)%Z; lia.
        -- destruct Hb as (-> & -> & ->).
           assert (Hq : ((mk k + 1) / nth a = mk k / nth a)%Z).
           { symmetry. apply (Z.div_unique_pos _ _ _ (mk k mod nth a + 1)); lia. }
           assert (Hr : ((mk k + 1) mod nth a = mk k mod nth a + 1)%Z).
           { symmetry. apply (Z.mod_unique_pos _ _ (mk k / nth a)); lia. }
           rewrite Hq, Hr. destruct (pinUpdate a =? 0)%Z; lia.
      * destruct Hb as (-> & -> & -> & ->). done.
  - intros Hnth.
    apply (for_loopM_inv_idx
             (fun k s1 => itempS (out s1) = 0%nat /\ itempA (out s1) = 0%nat
                          /\ itempC (out s1) = mk k))
      in Hrun; [done| |].
    + assert (Hm0 : mk 0%nat = 0%Z) by (unfold mk; lia).
      rewrite Hm0. done.
    + intros k s1 s2 q1 q2 _ (HS & HA & HC) Hb. apply Hstep in Hb.
      assert (Hmk0 : (0 <= mk k)%Z) by (unfold mk; lia).
      destruct (burn_in a <=? Z.of_nat k)%Z.
      * destruct Hb as [Hmk Hb].
        destruct (Z.eqb_spec (itempC (out s1) + 1) (nth a)) as [E|E]; [lia|].
        destruct Hb as (-> & -> & ->). rewrite Hmk, HC. done.
      * destruct Hb as (-> & -> & -> & ->). done.
Qed.

(** X16.  The layout of a stored draw.  In a turn that stores (a turn
    from [burn_in] on in which [itempC] reaches [nth]), when the buffers
    have room for [n_samp] more cells, the cell [itempS + i] of the seven
    buffers takes the values of unit [i], for every [i] below [n_samp];
    the cells stored before are left as they were; and with [pinUpdate]
    not zero the cell [itempA] of [pdSa] and [pdSn] takes [alpha] and
    [nstar]. *)
Theorem stored_draw_layout (ml : nat) (al : Q) (c : chain) (o o' : store)
    (r r' : rng) :
  (burn_in a <= Z.of_nat ml)%Z -> (itempC o + 1 = nth a)%Z ->
  store_room (itempS o + n_samp a) o ->
  store_draws a ml al c o r = Some (o', r') ->
  (forall i : nat, (i < n_samp a)%nat ->
     stored_row o' (itempS o + i) = unit_row c i)
  /\ (forall m : nat, (m < itempS o)%nat -> stored_row o' m = stored_row o m)
  /\ (pinUpdate a <> 0%Z ->
      pdSa o' = <[itempA o := al]> (pdSa o)
      /\ pdSn o' = <[itempA o := Z.of_nat (nstar c)]> (pdSn o)).
Proof using Type.
  intros Hb Hc (R1 & R2 & R3 & R4 & R5 & R6 & R7) Hrun.
  unfold store_draws in Hrun.
  apply Z.leb_le in Hb. rewrite Hb in Hrun. cbn [itempC set_itempC] in Hrun.
  apply Z.eqb_eq in Hc. rewrite Hc in Hrun.
  apply bind_Some in Hrun as (o2 & r1 & H1 & Hrun).
  apply ret_Some in Hrun as [-> _].
  set (o1 := store_alpha a al (nstar c) (set_itempC o (itempC o + 1))) in *.
  assert (E1 : itempS o1 = itempS o /\ pdSMu0 o1 = pdSMu0 o
               /\ pdSMu1 o1 = pdSMu1 o /\ pdSSig00 o1 = pdSSig00 o
               /\ pdSSig01 o1 = pdSSig01 o /\ pdSSig11 o1 = pdSSig11 o
               /\ pdSW1 o1 = pdSW1 o /\ pdSW2 o1 = pdSW2 o).
  { unfold o1, store_alpha. by destruct (negb (pinUpdate a =? 0)%Z). }
  destruct E1 as (ES & E1 & E2 & E3 & E4 & E5 & E6 & E7).
  assert (Hcol : forall (proj : store -> list Q) (val : nat -> Q),
            (forall (i : nat) (p1 p2 : store) (q1 q2 : rng),
                store_unit a c i p1 q1 = Some (p2, q2) ->
                proj p2 = <[itempS p1 := val i]> (proj p1)) ->
            proj o1 = proj o ->
            (itempS o + n_samp a <= length (proj o))%nat ->
            (forall i : nat, (i < n_samp a)%nat ->
               proj o2 !! (itempS o + i)%nat = Some (val i))
            /\ (forall m : nat, (m < itempS o)%nat -> proj o2 !! m = proj o !! m)).
  { intros proj val Hbody Ep Hroom.
    destruct (column_filled proj val (n_samp a) (store_unit a c) o1 o2 r r1)
      as (_ & _ & Hin & Hout).
    - intros i p1 p2 q1 q2 Hs. split; [|by apply (Hbody i p1 p2 q1 q2)].
      by apply store_unit_cells in Hs as ((-> & _) & _).
    - rewrite ES, Ep. done.
    - done.
    - rewrite ES, Ep in *. done. }
  destruct (Hcol pdSMu0 (fun i => v0 (mu c !!! i))) as [I1 O1]; [|done|done|].
  { intros i p1 p2 q1 q2 Hs. by apply store_unit_cells in Hs as (_ & -> & _). }
  destruct (Hcol pdSMu1 (fun i => v1 (mu c !!! i))) as [I2 O2]; [|done|done|].
  { intros i p1 p2 q1 q2 Hs. by apply store_unit_cells in Hs as (_ & _ & -> & _). }
  destruct (Hcol pdSSig00 (fun i => m00 (Sigma c !!! i))) as [I3 O3]; [|done|done|].
  { intros i p1 p2 q1 q2 Hs.
    by apply store_unit_cells in Hs as (_ & _ & _ & -> & _). }
  destruct (Hcol pdSSig01 (fun i => m01 (Sigma c !!! i))) as [I4 O4]; [|done|done|].
  { intros i p1 p2 q1 q2 Hs.
    by apply store_unit_cells in Hs as (_ & _ & _ & _ & -> & _). }
  destruct (Hcol pdSSig11 (fun i => m11 (Sigma c !!! i))) as [I5 O5]; [|done|done|].
  { intros i p1 p2 q1 q2 Hs.
    by apply store_unit_cells in Hs as (_ & _ & _ & _ & _ & -> & _). }
  destruct (Hcol pdSW1 (fun i => v0 (W c !!! i))) as [I6 O6]; [|done|done|].
  { intros i p1 p2 q1 q2 Hs.
    by apply store_unit_cells in Hs as (_ & _ & _ & _ & _ & _ & -> & _). }
  destruct (Hcol pdSW2 (fun i => v1 (W c !!! i))) as [I7 O7]; [|done|done|].
  { intros i p1 p2 q1 q2 Hs.
    by apply store_unit_cells in Hs as (_ & _ & _ & _ & _ & _ & _ & ->). }
  split; [|split].
  - intros i Hi. unfold stored_row, unit_row. cbn [set_itempC pdSMu0 pdSMu1
      pdSSig00 pdSSig01 pdSSig11 pdSW1 pdSW2].
    by rewrite (I1 i Hi), (I2 i Hi), (I3 i Hi), (I4 i Hi), (I5 i Hi),
      (I6 i Hi), (I7 i Hi).
  - intros m Hm. unfold stored_row. cbn [set_itempC pdSMu0 pdSMu1
      pdSSig00 pdSSig01 pdSSig11 pdSW1 pdSW2].
    by rewrite (O1 m Hm), (O2 m Hm), (O3 m Hm), (O4 m Hm), (O5 m Hm),
      (O6 m Hm), (O7 m Hm).
  - intros Hup. cbn [set_itempC pdSa pdSn].
    apply (for_loopM_inv (fun s => same_alpha_store o1 s)) in H1.
    + destruct H1 as (-> & -> & _). unfold o1, store_alpha.
      apply Z.eqb_neq in Hup. rewrite Hup. done.
    + done.
    + intros i s1 s2 q1 q2 _ (F1 & F2 & F3) Hs.
      apply store_unit_frame in Hs as (G1 & G2 & G3).
      unfold same_alpha_store. by rewrite G1, G2, G3.
Qed.

(** X21.  The posterior prediction of a stored draw.  With [pred] zero
    the storage of a unit reads no draw and leaves [pdSWt1], [pdSWt2] and
    [pdY] as they were.  With [pred] not zero it reads one draw of
    [rMVN], and the cell of [pdY], when the buffer has it, is the margin
    the predicted pair gives, [Wt1*X + Wt2*(1-X)], with the cells of
    [pdSWt1] and [pdSWt2] as the storage of the unit leaves them; with a
    [link] other than 1, 2 and 3 these two buffers are left as they were,
    so the margin is computed from what the cells held before. *)
Theorem predicted_margin (c : chain) (i : nat) (o o' : store) (r r' : rng) :
  store_unit a c i o r = Some (o', r') ->
  let k := itempS o in
  let x := v0 (X a !!! i) in
  (pred a = 0%Z ->
   r' = r /\ pdSWt1 o' = pdSWt1 o /\ pdSWt2 o' = pdSWt2 o /\ pdY o' = pdY o)
  /\ (pred a <> 0%Z ->
      r' = snd (rMVN (mu c !!! i) (Sigma c !!! i) r)
      /\ ((k < length (pdY o))%nat ->
          pdY o' !!! k = pdSWt1 o' !!! k * x + pdSWt2 o' !!! k * (1 - x))
      /\ (link a <> 1%Z -> link a <> 2%Z -> link a <> 3%Z ->
          pdSWt1 o' = pdSWt1 o /\ pdSWt2 o' = pdSWt2 o)).
Proof using Type.
  intros Hrun k x. unfold store_unit in Hrun.
  apply bind_Some in Hrun as (o1 & r1 & H1 & Hrun).
  apply ret_Some in Hrun as [-> ->]. cbn [pdY pdSWt1 pdSWt2].
  unfold store_pred in H1. split.
  - intros Hp. rewrite Hp in H1. cbn [Z.eqb negb] in H1.
    by apply ret_Some in H1 as [-> ->].
  - intros Hp. apply Z.eqb_neq in Hp. rewrite Hp in H1. cbn [negb] in H1.
    unfold bind, draw in H1.
    destruct (rMVN (mu c !!! i) (Sigma c !!! i) r) as [vtemp r2] eqn:Ed.
    cbn [itempS pdSWt1 pdSWt2 pdY snd] in *. fold k in H1.
    destruct (Z.eqb_spec (link a) 1) as [E1|E1];
      [|destruct (Z.eqb_spec (link a) 2) as [E2|E2];
        [|destruct (Z.eqb_spec (link a) 3) as [E3|E3]]];
      apply ret_Some in H1 as [-> ->]; cbn [pdY pdSWt1 pdSWt2]; fold x;
      (split; [done|]); (split;
        [intros Hk; by rewrite list_lookup_total_insert_eq by done|]);
      intros N1 N2 N3; done.
Qed.

End Storage.

(** ** The proportions the caller has observed *)

Section Observed.
Import GibbsDP.
Context {RM : Rmath} {RR : Rrand} {EL : EcoLib}.
Variable a : args.

Lemma lookup_total_eq {A : Type} `{Inhabited A} (l l' : list A) (k : nat) :
  l' !! k = l !! k -> l' !!! k = l !!! k.
Proof using Type. intros E. by rewrite !list_lookup_total_alt, E. Qed.

(** a write to one coordinate of a pair leaves the other coordinate of
    every pair *)
Lemma set_v1_v0 (l : list vec2) (k j : nat) (x : Q) :
  v0 (set_v1 l k x !!! j) = v0 (l !!! j).
Proof using Type.
  unfold set_v1. destruct (decide (j = k)) as [->|Hne].
  - destruct (decide (k < length l)%nat) as [Hk|Hk].
    + by rewrite list_lookup_total_insert_eq.
    + by rewrite list_insert_ge by lia.
  - by rewrite list_lookup_total_insert_ne.
Qed.

Lemma set_v0_v1 (l : list vec2) (k j : nat) (x : Q) :
  v1 (set_v0 l k x !!! j) = v1 (l !!! j).
Proof using Type.
  unfold set_v0. destruct (decide (j = k)) as [->|Hne].
  - destruct (decide (k < length l)%nat) as [Hk|Hk].
    + by rewrite list_lookup_total_insert_eq.
    + by rewrite list_insert_ge by lia.
  - by rewrite list_lookup_total_insert_ne.
Qed.

(** the loop over the units with margins writes the cells below [n_samp] *)
Lemma update_W_above (c c' : chain) (r r' : rng) (k : nat) :
  (n_samp a <= k)%nat ->
  update_W a c r = Some (c', r') ->
  W c' !! k = W c !! k /\ Wstar c' !! k = Wstar c !! k.
Proof using Type.
  intros Hk Hrun. unfold update_W in Hrun.
  apply (for_loopM_inv_idx
           (fun _ s => W s !! k = W c !! k /\ Wstar s !! k = Wstar c !! k))
    in Hrun; [done|done|].
  intros i s1 s2 r1 r2 Hi [E1 E2] Hstep. unfold update_W_unit in Hstep.
  apply bind_Some in Hstep as (c1 & q1 & H1 & H2).
  apply ret_Some in H2 as [-> _]. cbn [set_Wstar W Wstar].
  rewrite list_lookup_insert_ne by lia.
  destruct (on_tomo_line (X a !!! i)).
  - destruct (draw_W_result a c i r1) as (c2 & Hd & _).
    destruct (draw_W_result a s1 i r1) as (c3 & Hd3 & HW & HWs & _).
    rewrite Hd3 in H1. inversion H1; subst.
    rewrite HW, HWs, list_lookup_insert_ne by lia. done.
  - apply ret_Some in H1 as [-> _]. done.
Qed.

(** the loop over the areas with [X = 1] writes the second coordinate of
    their cells *)
Lemma update_x1_cells (c c' : chain) (r r' : rng) :
  update_x1 a c r = Some (c', r') ->
  (forall k : nat, v0 (W c' !!! k) = v0 (W c !!! k))
  /\ (forall k : nat, (k < n_samp a \/ n_samp a + x1_samp a <= k)%nat ->
        W c' !! k = W c !! k /\ Wstar c' !! k = Wstar c !! k).
Proof using Type.
  intros Hrun. unfold update_x1 in Hrun.
  destruct (x1 a =? 1)%Z; [|by apply ret_Some in Hrun as [-> _]].
  apply (for_loopM_inv_idx
           (fun _ s =>
              (forall k : nat, v0 (W s !!! k) = v0 (W c !!! k))
              /\ (forall k : nat, (k < n_samp a \/ n_samp a + x1_samp a <= k)%nat ->
                    W s !! k = W c !! k /\ Wstar s !! k = Wstar c !! k)))
    in Hrun; [done|done|].
  intros i s1 s2 r1 r2 Hi [E1 E2] Hstep. unfold update_x1_unit in Hstep.
  apply bind_Some in Hstep as (z & r3 & _ & Hstep).
  apply ret_Some in Hstep as [-> _]. cbn [set_W set_Wstar W Wstar]. split.
  - intros k. by rewrite set_v1_v0.
  - intros k Hk. rewrite !set_v1_lookup_ne by lia. by apply E2.
Qed.

(** the loop over the areas with [X = 0] writes the first coordinate of
    their cells of [W], and of the cells [n_samp+i] of [Wstar] *)
Lemma update_x0_cells (c c' : chain) (r r' : rng) :
  update_x0 a c r = Some (c', r') ->
  (forall k : nat, v1 (W c' !!! k) = v1 (W c !!! k))
  /\ (forall k : nat,
        (k < n_samp a + x1_samp a \/ n_samp a + x1_samp a + x0_samp a <= k)%nat ->
        W c' !! k = W c !! k)
  /\ (forall k : nat, (k < n_samp a \/ n_samp a + x0_samp a <= k)%nat ->
        Wstar c' !! k = Wstar c !! k).
Proof using Type.
  intros Hrun. unfold update_x0 in Hrun.
  destruct (x0 a =? 1)%Z; [|by apply ret_Some in Hrun as [-> _]].
  apply (for_loopM_inv_idx
           (fun _ s =>
              (forall k : nat, v1 (W s !!! k) = v1 (W c !!! k))
              /\ (forall k : nat,
                    (k < n_samp a + x1_samp a
                     \/ n_samp a + x1_samp a + x0_samp a <= k)%nat ->
                    W s !! k = W c !! k)
              /\ (forall k : nat, (k < n_samp a \/ n_samp a + x0_samp a <= k)%nat ->
                    Wstar s !! k = Wstar c !! k)))
    in Hrun; [done|done|].
  intros i s1 s2 r1 r2 Hi (E1 & E2 & E3) Hstep.
  destruct (update_x0_unit_cells a i s1 r1) as (c1 & d & Hrun1 & HWs & HW).
  rewrite Hrun1 in Hstep. inversion Hstep; subst. rewrite HW, HWs.
  split; [|split].
  - intros k. by rewrite set_v0_v1.
  - intros k Hk. rewrite set_v0_lookup_ne by lia. by apply E2.
  - intros k Hk. rewrite set_v0_lookup_ne by lia. by apply E3.
Qed.

(** X17.  The sampler never changes what the caller has observed: after
    any number of turns of the main loop the [W1] of an area with [X = 1],
    the [W2] of an area with [X = 0], and both [W] and [Wstar] of a survey
    unit are what they were when the loop started. *)
Theorem observed_proportions_kept (n : nat) (o : store) (r r' : rng) (s : state) :
  run a n o r = Some (s, r') ->
  (forall i : nat, (i < x1_samp a)%nat ->
     v0 (W (ch s) !!! (n_samp a + i)%nat)
     = v0 (fst (init_W a) !!! (n_samp a + i)%nat))
  /\ (forall i : nat, (i < x0_samp a)%nat ->
        v1 (W (ch s) !!! (n_samp a + x1_samp a + i)%nat)
        = v1 (fst (init_W a) !!! (n_samp a + x1_samp a + i)%nat))
  /\ (forall k : nat, (n_samp a + x1_samp a + x0_samp a <= k)%nat ->
        W (ch s) !! k = fst (init_W a) !! k
        /\ Wstar (ch s) !! k = snd (init_W a) !! k).
Proof using Type.
  intros Hrun. unfold run in Hrun.
  apply bind_Some in Hrun as (s0 & r0 & Hs0 & Hrun).
  unfold init_state in Hs0.
  apply bind_Some in Hs0 as (c0 & r1 & Hc0 & Hs0).
  apply ret_Some in Hs0 as [-> _].
  unfold init_chain in Hc0.
  apply bind_Some in Hc0 as (ths & q0 & _ & Hc0).
  apply ret_Some in Hc0 as [-> _].
  apply (for_loopM_inv_idx
           (fun _ s1 =>
              (forall i : nat, (i < x1_samp a)%nat ->
                 v0 (W (ch s1) !!! (n_samp a + i)%nat)
                 = v0 (fst (init_W a) !!! (n_samp a + i)%nat))
              /\ (forall i : nat, (i < x0_samp a)%nat ->
                    v1 (W (ch s1) !!! (n_samp a + x1_samp a + i)%nat)
                    = v1 (fst (init_W a) !!! (n_samp a + x1_samp a + i)%nat))
              /\ (forall k : nat, (n_samp a + x1_samp a + x0_samp a <= k)%nat ->
                    W (ch s1) !! k = fst (init_W a) !! k
                    /\ Wstar (ch s1) !! k = snd (init_W a) !! k)))
    in Hrun; [done|done|].
  intros ml s1 s2 q1 q2 _ (I1 & I2 & I3) Hb. unfold main_loop_body in Hb.
  apply bind_Some in Hb as (c1 & p1 & H1 & Hb).
  apply bind_Some in Hb as (c2 & p2 & H2 & Hb).
  apply bind_Some in Hb as (c3 & p3 & H3 & Hb).
  apply bind_Some in Hb as (c4 & p4 & H4 & Hb).
  apply bind_Some in Hb as (c5 & p5 & H5 & Hb).
  apply bind_Some in Hb as (al & p6 & _ & Hb).
  apply bind_Some in Hb as (o1 & p7 & _ & Hb).
  apply ret_Some in Hb as [-> _]. cbn [ch].
  apply remix_W in H5 as [-> ->]. apply sweep_W in H4 as [-> ->].
  destruct (update_x0_cells _ _ _ _ H3) as (Z1 & Z2 & Z3).
  destruct (update_x1_cells _ _ _ _ H2) as (Y1 & Y2).
  split; [|split].
  - intros i Hi.
    rewrite (lookup_total_eq (W c2) (W c3)) by (apply Z2; lia).
    rewrite Y1.
    rewrite (lookup_total_eq (W (ch s1)) (W c1))
      by (eapply update_W_above; [|exact H1]; lia).
    by apply I1.
  - intros i Hi. rewrite Z1.
    rewrite (lookup_total_eq (W c1) (W c2)) by (apply Y2; lia).
    rewrite (lookup_total_eq (W (ch s1)) (W c1))
      by (eapply update_W_above; [|exact H1]; lia).
    by apply I2.
  - intros k Hk.
    rewrite Z2, Z3 by lia.
    destruct (Y2 k ltac:(lia)) as [-> ->].
    destruct (update_W_above _ _ _ _ k ltac:(lia) H1) as [-> ->].
    by apply I3.
Qed.

End Observed.

(** ** Labels and parameters during the urn *)

Section Consistent.
Import GibbsDP.
Context {RM : Rmath} {RR : Rrand} {EL : EcoLib}.
Variable a : args.

(** the turn of unit [i] in the urn: the unit takes a fresh parameter
    with the label [nstar], or the parameter and the label of another
    unit *)
Lemma sweep_unit_cells (al : Q) (i : nat) (c c' : chain) (r r' : rng) :
  sweep_unit a al i c r = Some (c', r') ->
  exists (th : theta) (l : nat),
    mu c' = <[i := mu_mix th]> (mu c)
    /\ Sigma c' = <[i := Sigma_mix th]> (Sigma c)
    /\ InvSigma c' = <[i := InvSigma_mix th]> (InvSigma c)
    /\ C c' = <[i := l]> (C c)
    /\ ((l = nstar c /\ nstar c' = S (nstar c))
        \/ (exists j : nat,
              (j < t_samp a)%nat /\ j <> i /\ l = C c !!! j
              /\ th = theta_of c j /\ nstar c' = nstar c)).
Proof using Type.
  unfold sweep_unit. intros Hrun.
  apply bind_Some in Hrun as (u & r1 & _ & Hrun).
  destruct (urn_search u _ 0) as [j|] eqn:Ej; [|done].
  apply urn_search_Some in Ej as [Hj _]. rewrite urn_qq_length in Hj.
  apply bind_Some in Hrun as (c1 & r2 & H1 & H2).
  apply ret_Some in H2 as [-> _]. cbn [set_sortC mu Sigma InvSigma C nstar].
  destruct (Nat.eqb_spec j i) as [->|Hne].
  - unfold urn_new in H1.
    apply bind_Some in H1 as (IS & r3 & _ & H1).
    apply bind_Some in H1 as (m & r4 & _ & H1).
    apply ret_Some in H1 as [-> _]. cbn [mu Sigma InvSigma C nstar].
    eexists {| mu_mix := m; Sigma_mix := _; InvSigma_mix := IS |}, _.
    cbn [mu_mix Sigma_mix InvSigma_mix]. repeat (split; [reflexivity|]).
    by left.
  - apply ret_Some in H1 as [-> _]. cbn [urn_copy mu Sigma InvSigma C nstar].
    exists (theta_of c j), (C c !!! j). unfold theta_of.
    cbn [mu_mix Sigma_mix InvSigma_mix].
    rewrite vbuild_vget, !mbuild_mget. repeat (split; [reflexivity|]).
    right. exists j. repeat split; try done. lia.
Qed.

Lemma sweep_unit_consistent (t : nat) (al : Q) (i : nat) (c c' : chain)
    (r r' : rng) :
  t = t_samp a -> (i < t)%nat -> sized t c -> consistent t c ->
  sweep_unit a al i c r = Some (c', r') ->
  sized t c' /\ consistent t c'.
Proof using Type.
  intros Ht Hi (Hm & Hs & His & Hc) [Hlab Hsame] Hstep.
  apply sweep_unit_cells in Hstep
    as (th & l & Em & Es & Eis & Ec & Hcase).
  assert (Hsz : sized t c').
  { unfold sized. by rewrite Em, Es, Eis, Ec, !length_insert. }
  split; [done|].
  assert (Hth : forall k : nat,
            theta_of c' k = if decide (k = i) then th else theta_of c k).
  { intros k. unfold theta_of. rewrite Em, Es, Eis.
    destruct (decide (k = i)) as [->|Hne].
    - rewrite !list_lookup_total_insert_eq by lia. by destruct th.
    - by rewrite !list_lookup_total_insert_ne. }
  assert (HC : forall k : nat,
            C c' !!! k = if decide (k = i) then l else C c !!! k).
  { intros k. rewrite Ec. destruct (decide (k = i)) as [->|Hne].
    - by rewrite list_lookup_total_insert_eq by lia.
    - by rewrite list_lookup_total_insert_ne. }
  unfold consistent.
  destruct Hcase as [[-> Hn]|(j & Hj & Hji & -> & -> & Hn)]; rewrite Hn.
  - split.
    + intros k Hk. rewrite HC. destruct (decide (k = i)); [lia|].
      specialize (Hlab k Hk). lia.
    + intros k1 k2 Hk1 Hk2. rewrite !HC, !Hth.
      destruct (decide (k1 = i)); destruct (decide (k2 = i)); try done.
      * intros E. specialize (Hlab k2 Hk2). lia.
      * intros E. specialize (Hlab k1 Hk1). lia.
      * by apply Hsame.
  - subst t. split.
    + intros k Hk. rewrite HC. destruct (decide (k = i)); by apply Hlab.
    + intros k1 k2 Hk1 Hk2. rewrite !HC, !Hth.
      destruct (decide (k1 = i)); destruct (decide (k2 = i)); try done.
      * intros E. by apply Hsame.
      * intros E. by apply Hsame.
      * by apply Hsame.
Qed.

(** X18.  The urn keeps the labels and the parameters together: if,
    before the loop over the units, every label is below [nstar] and two
    units with the same label hold the same [mu], [Sigma] and [InvSigma],
    then this is so after the loop. *)
Theorem sweep_keeps_consistent (al : Q) (c c' : chain) (r r' : rng) :
  sized (t_samp a) c -> consistent (t_samp a) c ->
  sweep a al c r = Some (c', r') ->
  consistent (t_samp a) c'.
Proof using Type.
  intros Hsz Hco Hrun. unfold sweep in Hrun.
  apply (for_loopM_inv_idx
           (fun _ s => sized (t_samp a) s /\ consistent (t_samp a) s))
    in Hrun; [by destruct Hrun| done |].
  intros i s1 s2 r1 r2 Hi [Hs1 Hc1] Hstep.
  by apply (sweep_unit_consistent (t_samp a) al i s1 s2 r1 r2).
Qed.

(** the state the main loop starts from has one label for every unit *)
Lemma init_chain_consistent (c : chain) (r r' : rng) :
  init_chain a r = Some (c, r') -> consistent (t_samp a) c.
Proof using Type.
  unfold init_chain. intros Hrun.
  apply bind_Some in Hrun as (ths & r1 & _ & Hrun).
  apply ret_Some in Hrun as [-> _]. unfold consistent. cbn [C nstar]. split.
  - intros i Hi. by rewrite lookup_total_seq_lt.
  - intros i j Hi Hj. rewrite !lookup_total_seq_lt by done. simpl.
    by intros ->.
Qed.

End Consistent.

(** ** The latent pairs after a turn of the main loop *)

Section Latent.
Import GibbsDP.
Context {RM : Rmath} {RR : Rrand} {EL : EcoLib}.
Variable a : args.

(** [W] and [Wstar] have [t_samp] cells when the main loop starts *)
Lemma init_W_length :
  (forall n : nat, length (doubleMatrix2 n) = n) ->
  length (fst (init_W a)) = t_samp a /\ length (snd (init_W a)) = t_samp a.
Proof using Type.
  intros Halloc. unfold init_W.
  set (P := fun ws : list vec2 * list vec2 =>
              length (fst ws) = t_samp a /\ length (snd ws) = t_samp a).
  assert (H0 : P (doubleMatrix2 (t_samp a), doubleMatrix2 (t_samp a))).
  { unfold P. simpl. by rewrite Halloc. }
  assert (Hd : forall ws, P ws -> P (init_data a ws)).
  { intros ws Hws. unfold init_data.
    apply for_loop_inv; [done|]. intros k [w wstar] _ Hw. unfold P in *.
    simpl in *. by rewrite !length_insert. }
  assert (H1 : forall ws, P ws -> P (init_x1 a ws)).
  { intros ws Hws. unfold init_x1. destruct (x1 a =? 1)%Z; [|done].
    apply for_loop_inv; [done|]. intros k [w wstar] _ Hw. unfold P, set_v0 in *.
    simpl in *. by rewrite !length_insert. }
  assert (H2 : forall ws, P ws -> P (init_x0 a ws)).
  { intros ws Hws. unfold init_x0. destruct (x0 a =? 1)%Z; [|done].
    apply for_loop_inv; [done|]. intros k [w wstar] _ Hw. unfold P, set_v1 in *.
    simpl in *. by rewrite !length_insert. }
  assert (H3 : forall ws, P ws -> P (init_survey a ws)).
  { intros ws Hws. unfold init_survey. destruct (survey a =? 1)%Z; [|done].
    apply for_loop_inv; [done|]. intros j ws' _ Hws'.
    apply for_loop_inv; [done|]. intros k [w wstar] _ Hw.
    unfold P, set_vk, set_v0, set_v1 in *.
    simpl in *. destruct j; by rewrite !length_insert. }
  by apply H3, H2, H1, Hd.
Qed.

Lemma link_W_idem (w old : vec2) :
  link_W a w (link_W a w old) = link_W a w old.
Proof using Type.
  unfold link_W. by repeat destruct (link a =? _)%Z.
Qed.

(** the loop over the units with margins leaves [Wstar[i]] the image of
    [W[i]] under the link, for every [i] below [n_samp] *)
Lemma update_W_linked (t : nat) (c c' : chain) (r r' : rng) :
  (n_samp a <= t)%nat -> length (W c) = t -> length (Wstar c) = t ->
  update_W a c r = Some (c', r') ->
  (length (W c') = t /\ length (Wstar c') = t)
  /\ (forall i : nat, (i < n_samp a)%nat ->
        Wstar c' !!! i = link_W a (W c' !!! i) (Wstar c' !!! i)).
Proof using Type.
  intros Ht HlW HlWs Hrun. unfold update_W in Hrun.
  apply (for_loopM_inv_idx
           (fun k s => (length (W s) = t /\ length (Wstar s) = t)
                       /\ (forall i : nat, (i < k)%nat ->
                             Wstar s !!! i
                             = link_W a (W s !!! i) (Wstar s !!! i))))
    in Hrun; [done| |].
  - split; [done|]. intros i Hi. lia.
  - intros j s1 s2 r1 r2 Hj [[L1 L2] Hlink] Hstep.
    unfold update_W_unit in Hstep.
    apply bind_Some in Hstep as (c1 & q1 & H1 & H2).
    apply ret_Some in H2 as [-> _]. cbn [set_Wstar W Wstar].
    assert (Hc1 : Wstar c1 = Wstar s1
                  /\ length (W c1) = t
                  /\ (forall i : nat, i <> j -> W c1 !!! i = W s1 !!! i)).
    { destruct (on_tomo_line (X a !!! j)).
      - destruct (draw_W_result a s1 j r1) as (c3 & Hd3 & HW & HWs & _).
        rewrite Hd3 in H1. inversion H1; subst.
        rewrite HW, length_insert. split; [done|]. split; [done|].
        intros i Hi. by rewrite list_lookup_total_insert_ne.
      - apply ret_Some in H1 as [-> _]. done. }
    destruct Hc1 as (EWs & L1' & EW). rewrite EWs, length_insert.
    split; [done|]. intros i Hi.
    destruct (decide (i = j)) as [->|Hne].
    + rewrite list_lookup_total_insert_eq by lia. by rewrite link_W_idem.
    + rewrite list_lookup_total_insert_ne by done. rewrite EW by done.
      apply Hlink. lia.
Qed.

Lemma update_x1_length (t : nat) (c c' : chain) (r r' : rng) :
  length (W c) = t /\ length (Wstar c) = t ->
  update_x1 a c r = Some (c', r') ->
  length (W c') = t /\ length (Wstar c') = t.
Proof using Type.
  intros Hl Hrun. unfold update_x1 in Hrun.
  destruct (x1 a =? 1)%Z; [|by apply ret_Some in Hrun as [-> _]].
  apply (for_loopM_inv (fun s => length (W s) = t /\ length (Wstar s) = t))
    in Hrun; [done|done|].
  intros j s1 s2 r1 r2 _ [L1 L2] Hstep. unfold update_x1_unit in Hstep.
  apply bind_Some in Hstep as (z & r3 & _ & Hstep).
  apply ret_Some in Hstep as [-> _]. cbn [set_W set_Wstar W Wstar].
  unfold set_v1. by rewrite !length_insert.
Qed.

Lemma update_x0_length (t : nat) (c c' : chain) (r r' : rng) :
  length (W c) = t /\ length (Wstar c) = t ->
  update_x0 a c r = Some (c', r') ->
  length (W c') = t /\ length (Wstar c') = t.
Proof using Type.
  intros Hl Hrun. unfold update_x0 in Hrun.
  destruct (x0 a =? 1)%Z; [|by apply ret_Some in Hrun as [-> _]].
  apply (for_loopM_inv (fun s => length (W s) = t /\ length (Wstar s) = t))
    in Hrun; [done|done|].
  intros j s1 s2 r1 r2 _ [L1 L2] Hstep. unfold update_x0_unit in Hstep.
  apply bind_Some in Hstep as (z & r3 & _ & Hstep).
  apply ret_Some in Hstep as [-> _]. cbn [set_W set_Wstar W Wstar].
  unfold set_v0. by rewrite !length_insert.
Qed.

(** the five steps of a turn, one after the other *)
Lemma main_loop_body_steps (ml : nat) (s s' : state) (r r' : rng) :
  main_loop_body a ml s r = Some (s', r') ->
  exists (c1 c2 c3 c4 : chain) (r1 r2 r3 r4 r5 : rng),
    update_W a (ch s) r = Some (c1, r1)
    /\ update_x1 a c1 r1 = Some (c2, r2)
    /\ update_x0 a c2 r2 = Some (c3, r3)
    /\ sweep a (alpha s) c3 r3 = Some (c4, r4)
    /\ remix a c4 r4 = Some (ch s', r5).
Proof using Type.
  intros Hb. unfold main_loop_body in Hb.
  apply bind_Some in Hb as (c1 & p1 & H1 & Hb).
  apply bind_Some in Hb as (c2 & p2 & H2 & Hb).
  apply bind_Some in Hb as (c3 & p3 & H3 & Hb).
  apply bind_Some in Hb as (c4 & p4 & H4 & Hb).
  apply bind_Some in Hb as (c5 & p5 & H5 & Hb).
  apply bind_Some in Hb as (al & p6 & _ & Hb).
  apply bind_Some in Hb as (o1 & p7 & _ & Hb).
  apply ret_Some in Hb as [-> _]. cbn [ch].
  by exists c1, c2, c3, c4, p1, p2, p3, p4, p5.
Qed.

Lemma main_loop_body_length (t ml : nat) (s s' : state) (r r' : rng) :
  (n_samp a <= t)%nat ->
  length (W (ch s)) = t /\ length (Wstar (ch s)) = t ->
  main_loop_body a ml s r = Some (s', r') ->
  length (W (ch s')) = t /\ length (Wstar (ch s')) = t.
Proof using Type.
  intros Ht [L1 L2] Hb.
  apply main_loop_body_steps in Hb
    as (c1 & c2 & c3 & c4 & r1 & r2 & r3 & r4 & r5 & H1 & H2 & H3 & H4 & H5).
  apply remix_W in H5 as [-> ->]. apply sweep_W in H4 as [-> ->].
  apply (update_x0_length t _ _ _ _) in H3; [done|].
  apply (update_x1_length t _ _ _ _) in H2; [done|].
  by apply (update_W_linked t _ _ _ _ Ht L1 L2) in H1 as [H1 _].
Qed.

(** the last turn of a run, and the sizes of [W] and [Wstar] before it *)
Lemma run_last_turn (n : nat) (o : store) (r r' : rng) (s : state) :
  (forall k : nat, length (doubleMatrix2 k) = k) ->
  run a (S n) o r = Some (s, r') ->
  exists (s1 : state) (r1 : rng),
    length (W (ch s1)) = t_samp a /\ length (Wstar (ch s1)) = t_samp a
    /\ main_loop_body a n s1 r1 = Some (s, r').
Proof using Type.
  intros Halloc Hrun. unfold run in Hrun.
  apply bind_Some in Hrun as (s0 & r0 & Hs0 & Hrun).
  unfold init_state in Hs0.
  apply bind_Some in Hs0 as (c0 & q0 & Hc0 & Hs0).
  apply ret_Some in Hs0 as [-> _].
  unfold init_chain in Hc0.
  apply bind_Some in Hc0 as (ths & q1 & _ & Hc0).
  apply ret_Some in Hc0 as [-> _].
  rewrite for_loopM_S in Hrun.
  apply bind_Some in Hrun as (s1 & p1 & Hloop & Hstep).
  exists s1, p1. split; [|split]; [| |done].
  - apply (for_loopM_inv (fun s2 => length (W (ch s2)) = t_samp a
                                   /\ length (Wstar (ch s2)) = t_samp a))
      in Hloop; [by destruct Hloop| |].
    + cbn [ch W Wstar]. by apply init_W_length.
    + intros ml s2 s3 q2 q3 _ Hl Hb.
      apply (main_loop_body_length (t_samp a) ml s2 s3 q2 q3); [|done|done].
      unfold t_samp. lia.
  - apply (for_loopM_inv (fun s2 => length (W (ch s2)) = t_samp a
                                   /\ length (Wstar (ch s2)) = t_samp a))
      in Hloop; [by destruct Hloop| |].
    + cbn [ch W Wstar]. by apply init_W_length.
    + intros ml s2 s3 q2 q3 _ Hl Hb.
      apply (main_loop_body_length (t_samp a) ml s2 s3 q2 q3); [|done|done].
      unfold t_samp. lia.
Qed.


Lemma set_v1_own (l : list vec2) (k : nat) (x : Q) :
  (k < length l)%nat -> v1 (set_v1 l k x !!! k) = x.
Proof using Type.
  intros Hk. unfold set_v1. by rewrite list_lookup_total_insert_eq.
Qed.

Lemma set_v0_own (l : list vec2) (k : nat) (x : Q) :
  (k < length l)%nat -> v0 (set_v0 l k x !!! k) = x.
Proof using Type.
  intros Hk. unfold set_v0. by rewrite list_lookup_total_insert_eq.
Qed.

Lemma set_v1_other (l : list vec2) (k j : nat) (x : Q) :
  j <> k -> set_v1 l k x !!! j = l !!! j.
Proof using Type.
  intros Hk. unfold set_v1. by rewrite list_lookup_total_insert_ne.
Qed.

Lemma set_v0_other (l : list vec2) (k j : nat) (x : Q) :
  j <> k -> set_v0 l k x !!! j = l !!! j.
Proof using Type.
  intros Hk. unfold set_v0. by rewrite list_lookup_total_insert_ne.
Qed.

Lemma set_v1_length (l : list vec2) (k : nat) (x : Q) :
  length (set_v1 l k x) = length l.
Proof using Type. unfold set_v1. by rewrite length_insert. Qed.

Lemma set_v0_length (l : list vec2) (k : nat) (x : Q) :
  length (set_v0 l k x) = length l.
Proof using Type. unfold set_v0. by rewrite length_insert. Qed.

(** the loop over the areas with [X = 0] writes no second coordinate of
    [Wstar] *)
Lemma update_x0_Wstar_v1 (c c' : chain) (r r' : rng) :
  update_x0 a c r = Some (c', r') ->
  forall k : nat, v1 (Wstar c' !!! k) = v1 (Wstar c !!! k).
Proof using Type.
  intros Hrun. unfold update_x0 in Hrun.
  destruct (x0 a =? 1)%Z; [|by apply ret_Some in Hrun as [-> _]].
  eapply (for_loopM_inv
            (fun s => forall k : nat, v1 (Wstar s !!! k) = v1 (Wstar c !!! k)));
    [done| |exact Hrun].
  intros i s1 s2 r1 r2 _ E Hstep.
  destruct (update_x0_unit_cells a i s1 r1) as (c1 & d & Hrun1 & HWs & _).
  rewrite Hrun1 in Hstep. inversion Hstep; subst. rewrite HWs.
  intros k. by rewrite set_v0_v1.
Qed.

(** the loop over the areas with [X = 1] leaves in [W[n_samp+i][1]] the
    logistic image of [Wstar[n_samp+i][1]] *)
Lemma update_x1_logistic (t : nat) (c c' : chain) (r r' : rng) :
  (n_samp a + x1_samp a <= t)%nat ->
  length (W c) = t -> length (Wstar c) = t -> x1 a = 1%Z ->
  update_x1 a c r = Some (c', r') ->
  forall i : nat, (i < x1_samp a)%nat ->
    v1 (W c' !!! (n_samp a + i)%nat)
    = exp (v1 (Wstar c' !!! (n_samp a + i)%nat))
      / (1 + exp (v1 (Wstar c' !!! (n_samp a + i)%nat))).
Proof using Type.
  intros Ht HlW HlWs Hx Hrun. unfold update_x1 in Hrun. rewrite Hx in Hrun.
  simpl in Hrun.
  apply (for_loopM_inv_idx
           (fun k s =>
              (length (W s) = t /\ length (Wstar s) = t)
              /\ forall i : nat, (i < k)%nat ->
                   v1 (W s !!! (n_samp a + i)%nat)
                   = exp (v1 (Wstar s !!! (n_samp a + i)%nat))
                     / (1 + exp (v1 (Wstar s !!! (n_samp a + i)%nat)))))
    in Hrun; [by destruct Hrun| |].
  - split; [done|]. intros i Hi. lia.
  - intros j s1 s2 r1 r2 Hj [[L1 L2] Hin] Hstep. unfold update_x1_unit in Hstep.
    apply bind_Some in Hstep as (z & r3 & _ & Hstep).
    apply ret_Some in Hstep as [-> _]. cbn [set_W set_Wstar W Wstar].
    rewrite !set_v1_length. split; [done|].
    intros i Hi. destruct (decide (i = j)) as [->|Hne].
    + by rewrite set_v1_own by lia.
    + rewrite !set_v1_other by lia. apply Hin. lia.
Qed.

(** X20.  After every turn of the main loop the [W2] of an area with
    [X = 1] is the logistic image [exp(w)/(1+exp(w))] of the second
    coordinate [w] of its [Wstar], as line 414 leaves it: no later step
    of the turn writes either cell. *)
Theorem x1_area_logistic (n : nat) (o : store) (r r' : rng) (s : state)
    (i : nat) :
  (forall k : nat, length (doubleMatrix2 k) = k) ->
  x1 a = 1%Z -> (i < x1_samp a)%nat ->
  run a (S n) o r = Some (s, r') ->
  let w := v1 (Wstar (ch s) !!! (n_samp a + i)%nat) in
  v1 (W (ch s) !!! (n_samp a + i)%nat) = exp w / (1 + exp w).
Proof using Type.
  intros Halloc Hx Hi Hrun w. subst w.
  destruct (run_last_turn n o r r' s Halloc Hrun) as (s1 & r1 & L1 & L2 & Hb).
  apply main_loop_body_steps in Hb
    as (c1 & c2 & c3 & c4 & q1 & q2 & q3 & q4 & q5 & H1 & H2 & H3 & H4 & H5).
  assert (Ht : (n_samp a <= t_samp a)%nat) by (unfold t_samp; lia).
  apply remix_W in H5 as [-> ->]. apply sweep_W in H4 as [-> ->].
  destruct (update_W_linked (t_samp a) _ _ _ _ Ht L1 L2 H1) as [[M1 M2] _].
  destruct (update_x0_cells a _ _ _ _ H3) as (Z1 & _). rewrite Z1.
  rewrite (update_x0_Wstar_v1 _ _ _ _ H3).
  apply (update_x1_logistic (t_samp a) c1 c2 q1 q2); try done.
  unfold t_samp. lia.
Qed.

End Latent.

(** ** The properties of the sampler on the five units *)

Lemma demo_doubleMatrix2_length (k : nat) : length (doubleMatrix2 k) = k.
Proof. apply length_replicate. Qed.

Lemma stored_draws_count_witness :
  exists (s : GibbsDP.state) (r' : nat),
    GibbsDP.run (RR := Demo.rrand) (Demo.args5 1) 2 (Demo.store0 4) 0%nat
    = Some (s, r')
    /\ Z.of_nat (GibbsDP.itempS (GibbsDP.out s)) = 4%Z
    /\ GibbsDP.itempC (GibbsDP.out s) = 0%Z
    /\ Z.of_nat (GibbsDP.itempA (GibbsDP.out s)) = 2%Z.
Proof.
  destruct (run_total (RR := Demo.rrand) (Demo.args5 1) demo_dMVN_pos
              demo_dMVT_pos demo_unif_lt_1 demo_rgamma_pos 2 (Demo.store0 4) 0%nat)
    as (s & r' & Hrun).
  exists s, r'. split; [exact Hrun|].
  destruct (stored_draws_count (RR := Demo.rrand) (Demo.args5 1) 2
              (Demo.store0 4) 0%nat r' s Hrun) as [H _].
  apply H. simpl. lia.
Defined.

Lemma stored_draw_layout_witness :
  exists (o' : GibbsDP.store) (r' : nat),
    GibbsDP.store_draws (RR := Demo.rrand) (Demo.args5 1) 0 1 Demo.chain5
      (Demo.store0 4) 0%nat = Some (o', r')
    /\ GibbsDP.stored_row o' 1 = GibbsDP.unit_row Demo.chain5 1
    /\ GibbsDP.pdSa o' = <[0%nat := 1]> (GibbsDP.pdSa (Demo.store0 4)).
Proof.
  destruct (store_draws_total (RR := Demo.rrand) (Demo.args5 1) 0 1 Demo.chain5
              (Demo.store0 4) 0%nat) as (o' & r' & Hrun).
  exists o', r'. split; [exact Hrun|].
  destruct (stored_draw_layout (RR := Demo.rrand) (Demo.args5 1) 0 1 Demo.chain5
              (Demo.store0 4) o' 0%nat r') as (H1 & _ & H3).
  - simpl. lia.
  - reflexivity.
  - vm_compute. repeat split; lia.
  - exact Hrun.
  - split; [apply (H1 1%nat); simpl; lia|]. apply H3. discriminate.
Defined.

Lemma observed_proportions_kept_witness :
  exists (s : GibbsDP.state) (r' : nat),
    GibbsDP.run (RR := Demo.rrand) (Demo.args5 1) 2 (Demo.store0 4) 0%nat
    = Some (s, r')
    /\ v0 (GibbsDP.W (GibbsDP.ch s) !!! 2%nat)
       = v0 (fst (GibbsDP.init_W (Demo.args5 1)) !!! 2%nat)
    /\ GibbsDP.W (GibbsDP.ch s) !! 4%nat
       = fst (GibbsDP.init_W (Demo.args5 1)) !! 4%nat.
Proof.
  destruct (run_total (RR := Demo.rrand) (Demo.args5 1) demo_dMVN_pos
              demo_dMVT_pos demo_unif_lt_1 demo_rgamma_pos 2 (Demo.store0 4) 0%nat)
    as (s & r' & Hrun).
  exists s, r'. split; [exact Hrun|].
  destruct (observed_proportions_kept (RR := Demo.rrand) (Demo.args5 1) 2
              (Demo.store0 4) 0%nat r' s Hrun) as (H1 & _ & H3).
  split.
  - apply (H1 0%nat). simpl. lia.
  - apply (H3 4%nat). simpl. lia.
Defined.

Lemma sweep_keeps_consistent_witness :
  exists (c' : GibbsDP.chain) (r' : nat),
    GibbsDP.sweep (RR := Demo.rrand) (Demo.args5 0) 1 Demo.chain5 0%nat
    = Some (c', r')
    /\ GibbsDP.consistent 5 c'.
Proof.
  destruct (sweep_total (RR := Demo.rrand) (Demo.args5 0) demo_dMVN_pos
              demo_dMVT_pos demo_unif_lt_1 1 Demo.chain5 0%nat)
    as (c' & r' & Hsweep); [lra|].
  exists c', r'. split; [exact Hsweep|].
  assert (Hinit : exists r0 : nat,
            GibbsDP.init_chain (RR := Demo.rrand) (Demo.args5 0) 0%nat
            = Some (Demo.chain5, r0)).
  { vm_compute. eexists. reflexivity. }
  destruct Hinit as [r0 Hinit].
  apply (sweep_keeps_consistent (RR := Demo.rrand) (Demo.args5 0) 1
           Demo.chain5 c' 0%nat r').
  - vm_compute. repeat split.
  - exact (init_chain_consistent (RR := Demo.rrand) (Demo.args5 0)
             Demo.chain5 0%nat r0 Hinit).
  - exact Hsweep.
Defined.


Lemma x1_area_logistic_witness :
  exists (s : GibbsDP.state) (r' : nat),
    GibbsDP.run (RR := Demo.rrand) (Demo.args5 1) 1 (Demo.store0 4) 0%nat
    = Some (s, r')
    /\ v1 (GibbsDP.W (GibbsDP.ch s) !!! 2%nat)
       = exp (v1 (GibbsDP.Wstar (GibbsDP.ch s) !!! 2%nat))
         / (1 + exp (v1 (GibbsDP.Wstar (GibbsDP.ch s) !!! 2%nat))).
Proof.
  destruct (run_total (RR := Demo.rrand) (Demo.args5 1) demo_dMVN_pos
              demo_dMVT_pos demo_unif_lt_1 demo_rgamma_pos 1 (Demo.store0 4) 0%nat)
    as (s & r' & Hrun).
  exists s, r'. split; [exact Hrun|].
  apply (x1_area_logistic (RR := Demo.rrand) (Demo.args5 1) 0
           (Demo.store0 4) 0%nat r' s 0 demo_doubleMatrix2_length).
  - reflexivity.
  - simpl. lia.
  - exact Hrun.
Defined.

(** ** The survey units when the main loop starts *)

Section Survey.
Import GibbsDP.
Context {RM : Rmath} {RR : Rrand} {EL : EcoLib}.
Variable a : args.

(** the sentinels keep a proportion strictly between 0 and 1, and leave
    it as it is when it is there already *)
Lemma clamp01_inside (w : Q) :
  0 <= w <= 1 -> 0 < clamp01 w < 1 /\ (0 < w < 1 -> clamp01 w = w).
Proof using Type.
  intros Hw. unfold clamp01.
  destruct (Qeq_bool w 0) eqn:E0.
  - apply Qeq_bool_iff in E0. split; [split; reflexivity|]. intros H. lra.
  - destruct (Qeq_bool w 1) eqn:E1.
    + apply Qeq_bool_iff in E1. split; [split; reflexivity|]. intros H. lra.
    + apply Qeq_bool_neq in E0. apply Qeq_bool_neq in E1.
      split; [|done]. split.
      * destruct (Qlt_le_dec 0 w) as [H|H]; [done|].
        destruct E0. apply Qle_antisym; lra.
      * destruct (Qlt_le_dec w 1) as [H|H]; [done|].
        destruct E1. apply Qle_antisym; lra.
Qed.

Lemma for_loop_inv_idx {St : Type} (P : nat -> St -> Prop) (n : nat)
    (body : nat -> St -> St) (s : St) :
  P 0%nat s ->
  (forall (i : nat) (s' : St), (i < n)%nat -> P i s' -> P (S i) (body i s')) ->
  P n (for_loop n body s).
Proof using Type.
  intros H0 Hstep. induction n as [|n IH]; [done|].
  rewrite for_loop_S. apply Hstep; [lia|]. apply IH. intros i s' Hi.
  apply Hstep. lia.
Qed.

Lemma set_vk_length (l : list vec2) (k j : nat) (x : Q) :
  length (set_vk l k j x) = length l.
Proof using Type.
  destruct j; simpl; [apply set_v0_length|apply set_v1_length].
Qed.

Lemma set_vk_own (l : list vec2) (k j : nat) (x : Q) :
  (k < length l)%nat -> vget (set_vk l k j x !!! k) j = x.
Proof using Type.
  intros Hk. destruct j; simpl; [by apply set_v0_own|by apply set_v1_own].
Qed.

Lemma set_vk_other (l : list vec2) (k j m : nat) (x : Q) :
  m <> k -> set_vk l k j x !!! m = l !!! m.
Proof using Type.
  intros Hk. destruct j; simpl; [by apply set_v0_other|by apply set_v1_other].
Qed.

Lemma set_vk_other_coord (l : list vec2) (k j m : nat) (x : Q) :
  (j <= 1)%nat ->
  vget (set_vk l k j x !!! m) (1 - j) = vget (l !!! m) (1 - j).
Proof using Type.
  intros Hj. destruct j as [|[|j]]; simpl; [apply set_v0_v1|apply set_v1_v0|lia].
Qed.

(** the loop over the survey units for the coordinate [j] *)
Lemma init_survey_coord (j t : nat) (ws : list vec2 * list vec2) :
  (j <= 1)%nat ->
  (n_samp a + x1_samp a + x0_samp a + s_samp a <= t)%nat ->
  length (fst ws) = t -> length (snd ws) = t ->
  let ws' :=
    for_loop (s_samp a)
      (fun i '(w, wstar) =>
         let k := (n_samp a + x1_samp a + x0_samp a + i)%nat in
         let sw := clamp01 (sur_W a !!! (j * s_samp a + i)%nat) in
         (set_vk w k j sw, set_vk wstar k j (log sw - log (1 - sw)))) ws in
  (length (fst ws') = t /\ length (snd ws') = t)
  /\ (forall i : nat, (i < s_samp a)%nat ->
        let k := (n_samp a + x1_samp a + x0_samp a + i)%nat in
        let sw := clamp01 (sur_W a !!! (j * s_samp a + i)%nat) in
        vget (fst ws' !!! k) j = sw
        /\ vget (snd ws' !!! k) j = log sw - log (1 - sw))
  /\ (forall m : nat,
        vget (fst ws' !!! m) (1 - j) = vget (fst ws !!! m) (1 - j)
        /\ vget (snd ws' !!! m) (1 - j) = vget (snd ws !!! m) (1 - j)).
Proof using Type.
  intros Hj Ht L1 L2 ws'. subst ws'.
  apply (for_loop_inv_idx
           (fun n ws' =>
              (length (fst ws') = t /\ length (snd ws') = t)
              /\ (forall i : nat, (i < n)%nat ->
                    let k := (n_samp a + x1_samp a + x0_samp a + i)%nat in
                    let sw := clamp01 (sur_W a !!! (j * s_samp a + i)%nat) in
                    vget (fst ws' !!! k) j = sw
                    /\ vget (snd ws' !!! k) j = log sw - log (1 - sw))
              /\ (forall m : nat,
                    vget (fst ws' !!! m) (1 - j) = vget (fst ws !!! m) (1 - j)
                    /\ vget (snd ws' !!! m) (1 - j)
                       = vget (snd ws !!! m) (1 - j)))).
  - split; [done|]. split; [intros i Hi; lia|done].
  - intros n [w wstar] Hn ([M1 M2] & Hin & Hout). cbn [fst snd] in *.
    rewrite !set_vk_length. split; [done|]. split.
    + intros i Hi. destruct (decide (i = n)) as [->|Hne].
      * rewrite !set_vk_own by lia. done.
      * rewrite !set_vk_other by lia. apply Hin. lia.
    + intros m. rewrite !set_vk_other_coord by done. apply Hout.
Qed.

Lemma init_steps_length (t : nat) (ws : list vec2 * list vec2) :
  length (fst ws) = t /\ length (snd ws) = t ->
  length (fst (init_x0 a (init_x1 a (init_data a ws)))) = t
  /\ length (snd (init_x0 a (init_x1 a (init_data a ws)))) = t.
Proof using Type.
  set (P := fun ws : list vec2 * list vec2 =>
              length (fst ws) = t /\ length (snd ws) = t).
  intros H0.
  assert (Hd : forall ws, P ws -> P (init_data a ws)).
  { intros ws1 Hws. unfold init_data.
    apply for_loop_inv; [done|]. intros k [w wstar] _ Hw. unfold P in *.
    simpl in *. by rewrite !length_insert. }
  assert (H1 : forall ws, P ws -> P (init_x1 a ws)).
  { intros ws1 Hws. unfold init_x1. destruct (x1 a =? 1)%Z; [|done].
    apply for_loop_inv; [done|]. intros k [w wstar] _ Hw. unfold P in *.
    simpl in *. by rewrite !set_v0_length. }
  assert (H2 : forall ws, P ws -> P (init_x0 a ws)).
  { intros ws1 Hws. unfold init_x0. destruct (x0 a =? 1)%Z; [|done].
    apply for_loop_inv; [done|]. intros k [w wstar] _ Hw. unfold P in *.
    simpl in *. by rewrite !set_v1_length. }
  by apply H2, H1, Hd.
Qed.

(** X22.  When the main loop starts, a survey unit holds the two
    proportions the caller gave for it, with 0 replaced by 0.000001 and 1
    by 0.999999, and their logits in [Wstar]; proportions between 0 and 1
    are thus stored strictly between 0 and 1. *)
Theorem survey_units_start (i : nat) :
  (forall n : nat, length (doubleMatrix2 n) = n) ->
  survey a = 1%Z -> (i < s_samp a)%nat ->
  let k := (n_samp a + x1_samp a + x0_samp a + i)%nat in
  let w1 := clamp01 (sur_W a !!! i) in
  let w2 := clamp01 (sur_W a !!! (s_samp a + i)%nat) in
  fst (init_W a) !! k = Some (Vec2 w1 w2)
  /\ snd (init_W a) !! k
     = Some (Vec2 (log w1 - log (1 - w1)) (log w2 - log (1 - w2)))
  /\ (0 <= sur_W a !!! i <= 1 -> 0 < w1 < 1)
  /\ (0 <= sur_W a !!! (s_samp a + i)%nat <= 1 -> 0 < w2 < 1).
Proof using Type.
  intros Halloc Hs Hi k w1 w2.
  assert (Ht : (n_samp a + x1_samp a + x0_samp a + s_samp a <= t_samp a)%nat)
    by (unfold t_samp; lia).
  unfold init_W.
  destruct (init_steps_length (t_samp a)
              (doubleMatrix2 (t_samp a), doubleMatrix2 (t_samp a)))
    as [L1 L2]; [simpl; by rewrite Halloc|].
  set (ws0 := init_x0 a (init_x1 a (init_data a
                (doubleMatrix2 (t_samp a), doubleMatrix2 (t_samp a))))) in *.
  unfold init_survey. rewrite Hs. cbn [Z.eqb Pos.eqb].
  rewrite !for_loop_S. change (for_loop 0 _ ws0) with ws0.
  destruct (init_survey_coord 0 (t_samp a) ws0 ltac:(lia) Ht L1 L2)
    as ([M1 M2] & Hin0 & _).
  cbv zeta in Hin0, M1, M2.
  set (ws1 := for_loop (s_samp a) _ ws0) in *.
  destruct (init_survey_coord 1 (t_samp a) ws1 ltac:(lia) Ht M1 M2)
    as ([N1 N2] & Hin1 & Hout1).
  cbv zeta in Hin1, Hout1, N1, N2.
  set (ws2 := for_loop (s_samp a) _ ws1) in *.
  destruct (Hin0 i Hi) as [A0 B0]. destruct (Hin1 i Hi) as [A1 B1].
  destruct (Hout1 k) as [C0 D0]. fold k in A0, B0, A1, B1.
  simpl in A0, B0, A1, B1, C0, D0.
  replace (s_samp a + 0 + i)%nat with (s_samp a + i)%nat in A1, B1 by lia.
  fold w1 in A0, B0. fold w2 in A1, B1.
  rewrite A0 in C0. rewrite B0 in D0.
  split; [|split; [|split]].
  - rewrite (list_lookup_lookup_total_lt (fst ws2) k) by lia. f_equal.
    destruct (fst ws2 !!! k) as [x y]. simpl in *. by subst.
  - rewrite (list_lookup_lookup_total_lt (snd ws2) k) by lia. f_equal.
    destruct (snd ws2 !!! k) as [x y]. simpl in *. by subst.
  - intros H. by apply clamp01_inside.
  - intros H. by apply clamp01_inside.
Qed.

Lemma init_data_length (t : nat) (ws : list vec2 * list vec2) :
  length (fst ws) = t /\ length (snd ws) = t ->
  length (fst (init_data a ws)) = t /\ length (snd (init_data a ws)) = t.
Proof using Type.
  intros Hws. unfold init_data.
  apply (for_loop_inv (fun ws => length (fst ws) = t /\ length (snd ws) = t));
    [done|].
  intros k [w wstar] _ Hw. simpl in *. by rewrite !length_insert.
Qed.

(** lines 210 to 216: the first coordinate of the areas with [X = 1] *)
Lemma init_x1_cells (t : nat) (ws : list vec2 * list vec2) :
  (n_samp a + x1_samp a <= t)%nat ->
  length (fst ws) = t -> length (snd ws) = t ->
  (length (fst (init_x1 a ws)) = t /\ length (snd (init_x1 a ws)) = t)
  /\ (x1 a = 1%Z ->
      forall i : nat, (i < x1_samp a)%nat ->
        v0 (fst (init_x1 a ws) !!! (n_samp a + i)%nat) = clamp01 (x1_W1 a !!! i)
        /\ v0 (snd (init_x1 a ws) !!! (n_samp a + i)%nat)
           = log (clamp01 (x1_W1 a !!! i)) - log (1 - clamp01 (x1_W1 a !!! i))).
Proof using Type.
  intros Ht L1 L2. unfold init_x1.
  destruct (Z.eqb_spec (x1 a) 1) as [E|E]; [|split; [done|]; intros H; by destruct E].
  pose proof (for_loop_inv_idx
             (fun n ws' =>
                (length (fst ws') = t /\ length (snd ws') = t)
                /\ forall i : nat, (i < n)%nat ->
                     v0 (fst ws' !!! (n_samp a + i)%nat) = clamp01 (x1_W1 a !!! i)
                     /\ v0 (snd ws' !!! (n_samp a + i)%nat)
                        = log (clamp01 (x1_W1 a !!! i))
                          - log (1 - clamp01 (x1_W1 a !!! i)))
             (x1_samp a)
             (fun i '(w, wstar) =>
                let w := set_v0 w (n_samp a + i) (clamp01 (x1_W1 a !!! i)) in
                let w0 := v0 (w !!! (n_samp a + i)%nat) in
                (w, set_v0 wstar (n_samp a + i) (log w0 - log (1 - w0)))) ws) as H.
  destruct H as (H1 & H2).
  - split; [done|]. intros i Hi. lia.
  - intros n [w wstar] Hn ([M1 M2] & Hin). cbn [fst snd] in *.
    rewrite !set_v0_length. split; [done|].
    intros i Hi. destruct (decide (i = n)) as [->|Hne].
    + rewrite !set_v0_own by lia. done.
    + rewrite !set_v0_other by lia. apply Hin. lia.
  - split; [done|]. intros _. exact H2.
Qed.

(** lines 218 to 224: the second coordinate of the areas with [X = 0];
    the first coordinate of every cell is left as it was *)
Lemma init_x0_cells (t : nat) (ws : list vec2 * list vec2) :
  (n_samp a + x1_samp a + x0_samp a <= t)%nat ->
  length (fst ws) = t -> length (snd ws) = t ->
  (length (fst (init_x0 a ws)) = t /\ length (snd (init_x0 a ws)) = t)
  /\ (forall m : nat,
        v0 (fst (init_x0 a ws) !!! m) = v0 (fst ws !!! m)
        /\ v0 (snd (init_x0 a ws) !!! m) = v0 (snd ws !!! m))
  /\ (x0 a = 1%Z ->
      forall i : nat, (i < x0_samp a)%nat ->
        v1 (fst (init_x0 a ws) !!! (n_samp a + x1_samp a + i)%nat)
        = clamp01 (x0_W2 a !!! i)
        /\ v1 (snd (init_x0 a ws) !!! (n_samp a + x1_samp a + i)%nat)
           = log (clamp01 (x0_W2 a !!! i)) - log (1 - clamp01 (x0_W2 a !!! i))).
Proof using Type.
  intros Ht L1 L2. unfold init_x0.
  destruct (Z.eqb_spec (x0 a) 1) as [E|E];
    [|split; [done|]; split; [done|]; intros H; by destruct E].
  pose proof (for_loop_inv_idx
             (fun n ws' =>
                (length (fst ws') = t /\ length (snd ws') = t)
                /\ (forall m : nat,
                      v0 (fst ws' !!! m) = v0 (fst ws !!! m)
                      /\ v0 (snd ws' !!! m) = v0 (snd ws !!! m))
                /\ forall i : nat, (i < n)%nat ->
                     v1 (fst ws' !!! (n_samp a + x1_samp a + i)%nat)
                     = clamp01 (x0_W2 a !!! i)
                     /\ v1 (snd ws' !!! (n_samp a + x1_samp a + i)%nat)
                        = log (clamp01 (x0_W2 a !!! i))
                          - log (1 - clamp01 (x0_W2 a !!! i)))
             (x0_samp a)
             (fun i '(w, wstar) =>
                let k := (n_samp a + x1_samp a + i)%nat in
                let w := set_v1 w k (clamp01 (x0_W2 a !!! i)) in
                let w1 := v1 (w !!! k) in
                (w, set_v1 wstar k (log w1 - log (1 - w1)))) ws) as H.
  destruct H as (H1 & H2 & H3).
  - split; [done|]. split; [done|]. intros i Hi. lia.
  - intros n [w wstar] Hn ([M1 M2] & Hv0 & Hin). cbn [fst snd] in *.
    rewrite !set_v1_length. split; [done|]. split.
    + intros m. rewrite !set_v1_v0. apply Hv0.
    + intros i Hi. destruct (decide (i = n)) as [->|Hne].
      * rewrite !set_v1_own by lia. done.
      * rewrite !set_v1_other by lia. apply Hin. lia.
  - split; [done|]. split; [done|]. intros _. exact H3.
Qed.

(** lines 229 to 242 leave the cells before those of the survey units *)
Lemma init_survey_below (ws : list vec2 * list vec2) (m : nat) :
  (m < n_samp a + x1_samp a + x0_samp a)%nat ->
  fst (init_survey a ws) !!! m = fst ws !!! m
  /\ snd (init_survey a ws) !!! m = snd ws !!! m.
Proof using Type.
  intros Hm. unfold init_survey. destruct (survey a =? 1)%Z; [|done].
  apply (for_loop_inv (fun ws' => fst ws' !!! m = fst ws !!! m
                                  /\ snd ws' !!! m = snd ws !!! m)); [done|].
  intros j ws1 _ Hws1.
  apply (for_loop_inv (fun ws' => fst ws' !!! m = fst ws !!! m
                                  /\ snd ws' !!! m = snd ws !!! m)); [done|].
  intros i [w wstar] _ Hw. cbn [fst snd] in *.
  by rewrite !set_vk_other by lia.
Qed.

(** X23.  When the main loop starts, an area with [X = 1] holds the [W1]
    the caller gave for it, and an area with [X = 0] the [W2], with 0
    replaced by 0.000001 and 1 by 0.999999, and its logit in the same
    coordinate of [Wstar]. *)
Theorem areas_start (i : nat) :
  (forall n : nat, length (doubleMatrix2 n) = n) ->
  (x1 a = 1%Z -> (i < x1_samp a)%nat ->
   let k := (n_samp a + i)%nat in
   let w := clamp01 (x1_W1 a !!! i) in
   v0 (fst (init_W a) !!! k) = w
   /\ v0 (snd (init_W a) !!! k) = log w - log (1 - w))
  /\ (x0 a = 1%Z -> (i < x0_samp a)%nat ->
      let k := (n_samp a + x1_samp a + i)%nat in
      let w := clamp01 (x0_W2 a !!! i) in
      v1 (fst (init_W a) !!! k) = w
      /\ v1 (snd (init_W a) !!! k) = log w - log (1 - w)).
Proof using Type.
  intros Halloc. unfold init_W.
  destruct (init_data_length (t_samp a)
              (doubleMatrix2 (t_samp a), doubleMatrix2 (t_samp a)))
    as [D1 D2]; [simpl; by rewrite Halloc|].
  set (wsd := init_data a (doubleMatrix2 (t_samp a), doubleMatrix2 (t_samp a)))
    in *.
  destruct (init_x1_cells (t_samp a) wsd ltac:(unfold t_samp; lia) D1 D2)
    as ([E1 E2] & Hx1).
  set (ws1 := init_x1 a wsd) in *.
  destruct (init_x0_cells (t_samp a) ws1 ltac:(unfold t_samp; lia) E1 E2)
    as (_ & Hkeep & Hx0).
  set (ws2 := init_x0 a ws1) in *.
  split.
  - intros Hx Hi.
    destruct (init_survey_below ws2 (n_samp a + i) ltac:(lia)) as [-> ->].
    destruct (Hkeep (n_samp a + i)%nat) as [-> ->]. by apply Hx1.
  - intros Hx Hi.
    destruct (init_survey_below ws2 (n_samp a + x1_samp a + i) ltac:(lia))
      as [-> ->].
    by apply Hx0.
Qed.

End Survey.

Lemma areas_start_witness :
  v0 (fst (GibbsDP.init_W (Demo.args5 0)) !!! 2%nat) = 1 # 2
  /\ v1 (fst (GibbsDP.init_W (Demo.args5 0)) !!! 3%nat) = 1 # 4.
Proof.
  destruct (areas_start (Demo.args5 0) 0 demo_doubleMatrix2_length) as [H1 H2].
  split.
  - apply H1; [reflexivity|simpl; lia].
  - apply H2; [reflexivity|simpl; lia].
Defined.

Lemma survey_units_start_witness :
  fst (GibbsDP.init_W (Demo.args5 0)) !! 4%nat = Some (Vec2 (1 # 3) (2 # 3)).
Proof.
  destruct (survey_units_start (Demo.args5 0) 0 demo_doubleMatrix2_length)
    as (H1 & _).
  - reflexivity.
  - simpl. lia.
  - exact H1.
Defined.

Lemma predicted_margin_witness :
  exists (o' : GibbsDP.store) (r' : nat),
    GibbsDP.store_unit (RR := Demo.rrand) Demo.args_pred Demo.chain5 0
      (Demo.store0 4) 0%nat = Some (o', r')
    /\ r' = 1%nat
    /\ GibbsDP.pdY o' !!! 0%nat
       = GibbsDP.pdSWt1 o' !!! 0%nat * (1 # 2)
         + GibbsDP.pdSWt2 o' !!! 0%nat * (1 - (1 # 2)).
Proof.
  assert (H : exists (o' : GibbsDP.store) (r' : nat),
            GibbsDP.store_unit (RR := Demo.rrand) Demo.args_pred Demo.chain5 0
              (Demo.store0 4) 0%nat = Some (o', r')).
  { vm_compute. eexists _, _. reflexivity. }
  destruct H as (o' & r' & E). exists o', r'. split; [exact E|].
  destruct (predicted_margin (RR := Demo.rrand) Demo.args_pred Demo.chain5 0
              (Demo.store0 4) o' 0%nat r' E) as [_ H].
  destruct H as (H1 & H2 & _); [discriminate|].
  split; [exact H1|]. apply H2. simpl. lia.
Defined.

(** ** The accounting identity of the units that are drawn *)

Section Accounting.
Import GibbsDP.
Context {RM : Rmath} {RR : Rrand} {EL : EcoLib}.
Variable a : args.







End Accounting.



(** ** The remixing step after a loop of the urn *)

(** On the five units the loop of the urn of the first turn leaves the
    labels 2, 5, 6, 2, 6 with [nstar = 7]; the remixing step renumbers the
    three clusters 0, 1, 2.  After the whole turn there are two clusters. *)
Lemma remix_labels_contiguous_witness :
  exists (c' : GibbsDP.chain) (drawn : list GibbsDP.theta) (r' : nat)
         (s : GibbsDP.state) (q : nat) (drawn' : list GibbsDP.theta),
    (GibbsDP.sweep (RR := Demo.rrand) (Demo.args5 0) 1 Demo.chain5 0%nat
     = Some (Demo.chain5_swept, 9%nat)
     /\ GibbsDP.C Demo.chain5_swept = [2; 5; 6; 2; 6]%nat
     /\ GibbsDP.nstar Demo.chain5_swept = 7%nat)
    /\ (GibbsDP.remix (RR := Demo.rrand) (Demo.args5 0) Demo.chain5_swept 9%nat
        = Some (c', r')
        /\ GibbsDP.C c' = [0; 1; 2; 0; 2]%nat /\ GibbsDP.nstar c' = 3%nat
        /\ GibbsDP.nstar c' = length drawn
        /\ (forall i : nat, (i < 5)%nat ->
              exists k : nat,
                GibbsDP.C c' !! i = Some k /\ (k < GibbsDP.nstar c')%nat
                /\ drawn !! k = Some (GibbsDP.theta_of c' i))
        /\ (forall k : nat, (k < GibbsDP.nstar c')%nat ->
              exists i : nat, (i < 5)%nat /\ GibbsDP.C c' !! i = Some k))
    /\ (GibbsDP.run (RR := Demo.rrand) (Demo.args5 0) 1 (Demo.store0 4) 0%nat
        = Some (s, q)
        /\ GibbsDP.C (GibbsDP.ch s) = [0; 1; 0; 0; 1]%nat
        /\ GibbsDP.nstar (GibbsDP.ch s) = 2%nat
        /\ GibbsDP.contiguous 5 (GibbsDP.ch s) drawn').
Proof.
  assert (Hsweep : GibbsDP.sweep (RR := Demo.rrand) (Demo.args5 0) 1
                     Demo.chain5 0%nat = Some (Demo.chain5_swept, 9%nat)).
  { vm_compute. reflexivity. }
  assert (Hremix : exists (c' : GibbsDP.chain) (r' : nat),
            GibbsDP.remix (RR := Demo.rrand) (Demo.args5 0) Demo.chain5_swept
              9%nat = Some (c', r')
            /\ GibbsDP.C c' = [0; 1; 2; 0; 2]%nat /\ GibbsDP.nstar c' = 3%nat).
  { vm_compute. eexists _, _. split; [reflexivity|]. split; reflexivity. }
  assert (Hrun : exists (s : GibbsDP.state) (q : nat),
            GibbsDP.run (RR := Demo.rrand) (Demo.args5 0) 1 (Demo.store0 4)
              0%nat = Some (s, q)
            /\ GibbsDP.C (GibbsDP.ch s) = [0; 1; 0; 0; 1]%nat
            /\ GibbsDP.nstar (GibbsDP.ch s) = 2%nat).
  { vm_compute. eexists _, _. split; [reflexivity|]. split; reflexivity. }
  destruct Hremix as (c' & r' & Er & EC & En).
  destruct Hrun as (s & q & Es & EsC & Esn).
  destruct (remix_labels_contiguous (RR := Demo.rrand) (Demo.args5 0)
              demo_qsort_perm) as [P1 P2].
  destruct (P1 Demo.chain5_swept 9%nat)
    as (c'' & drawn & r'' & _ & H1 & H2 & H3 & H4).
  - apply (sweep_sized (RR := Demo.rrand) (Demo.args5 0) 5 1 Demo.chain5
             Demo.chain5_swept 0%nat 9%nat); [|exact Hsweep].
    vm_compute. repeat split.
  - apply (sweep_sized (RR := Demo.rrand) (Demo.args5 0) 5 1 Demo.chain5
             Demo.chain5_swept 0%nat 9%nat); [|exact Hsweep].
    vm_compute. repeat split.
  - rewrite Er in H1. injection H1 as <- <-.
    destruct (P2 demo_intArray_length 0%nat (Demo.store0 4) 0%nat q s Es)
      as [drawn' Hc].
    exists c', drawn, r', s, q, drawn'.
    split; [split; [exact Hsweep|split; reflexivity]|].
    split; [|split; [exact Es|split; [exact EsC|split; [exact Esn|exact Hc]]]].
    split; [exact Er|]. split; [exact EC|]. split; [exact En|].
    split; [exact H2|]. split; [exact H3|exact H4].
Defined.
